(** * gust_tools: PAK unpacker and ".e" descrambler / Glaze decompressor

    A shallow embedding of the decoding core of [Pak_Decrypt.c] and
    [gust_enc.c], and the properties of it that the specification states.

    Conventions.
    - A [uint8_t], [uint16_t], [uint32_t] or [uint64_t] value is a [Z] in
      range; every store wraps explicitly ([wrap8], [wrap16], ...).
    - A C buffer is a [list Z] of bytes that starts at the pointer the
      function receives and extends to the end of the allocation.  Every
      access goes through [rd] / [wr]; an access outside the list is
      undefined behaviour in C and is reported as [Crash OutOfBounds].
    - A function that mutates its arguments returns their new values. *)

From Stdlib Require Import ZArith Lia Bool.
From stdpp Require Import base tactics option list numbers sets.

Local Open Scope Z_scope.

(** ** Machine integers *)

Definition wrap8 (z : Z) : Z := z mod 2 ^ 8.
Definition wrap16 (z : Z) : Z := z mod 2 ^ 16.
Definition wrap32 (z : Z) : Z := z mod 2 ^ 32.
Definition wrap64 (z : Z) : Z := z mod 2 ^ 64.

Definition is_byte (z : Z) : Prop := 0 <= z < 256.
Definition byte_buf (buf : list Z) : Prop := Forall is_byte buf.

#[global] Instance is_byte_dec (z : Z) : Decision (is_byte z).
Proof. unfold is_byte. apply _. Defined.
#[global] Instance byte_buf_dec (buf : list Z) : Decision (byte_buf buf).
Proof. unfold byte_buf. apply _. Defined.

(** ** Executions that may leave defined behaviour *)

Inductive fault : Set :=
| OutOfBounds      (* access outside the buffer *)
| DivideByZero     (* [%] or [/] by zero *)
| Uninitialised    (* what follows depends on a cell that was never written *)
| OutOfFuel.       (* the loop bound of the embedding was too small *)

Inductive exec (A : Type) : Type :=
| Done (a : A)
| Crash (f : fault).
Arguments Done {A} a.
Arguments Crash {A} f.

#[global] Instance exec_ret : MRet exec := @Done.
#[global] Instance exec_bind : MBind exec :=
  fun A B f m => match m with Done a => f a | Crash e => Crash e end.

(** The cell at index [i] of an array, for an index that is in range (0
    elsewhere); what [rd] returns when it succeeds. *)
Definition cell (buf : list Z) (i : nat) : Z := default 0 (buf !! i).

(** The execution does not end in the fault [e]. *)
Definition avoids {A : Type} (e : fault) (m : exec A) : Prop := m <> Crash e.

(** [buf[i]] as an rvalue. *)
Definition rd (buf : list Z) (i : Z) : exec Z :=
  if i <? 0 then Crash OutOfBounds
  else match buf !! Z.to_nat i with
       | Some b => Done b
       | None => Crash OutOfBounds
       end.

(** [buf[i] = v] for a [uint8_t] buffer. *)
Definition wr (buf : list Z) (i : Z) (v : Z) : exec (list Z) :=
  if (0 <=? i) && (i <? Z.of_nat (length buf))
  then Done (<[Z.to_nat i := wrap8 v]> buf)
  else Crash OutOfBounds.

(** ** util.h *)

Module Util.

(** Modelled from the spec: [util.h] is not among the sources.  [min] is the
    usual macro; [Pak_Decrypt.c] defines it itself in these words. *)
Definition min (a b : Z) : Z := if a <? b then a else b.

(** Modelled from the spec: [getbe16] of [util.h], "big-endian u16 at
    buf[i..i+2]". *)
Definition getbe16 (buf : list Z) (i : Z) : exec Z :=
  b0 ← rd buf i; b1 ← rd buf (i + 1);
  Done (Z.lor (Z.shiftl b0 8) b1).

(** Modelled from the spec: [setbe16] of [util.h], "write w back
    big-endian". *)
Definition setbe16 (buf : list Z) (i : Z) (w : Z) : exec (list Z) :=
  buf1 ← wr buf i (Z.shiftr w 8); wr buf1 (i + 1) w.

(** Modelled from the spec: [getbe32] of [util.h], "BE_u32". *)
Definition getbe32 (buf : list Z) (i : Z) : exec Z :=
  b0 ← rd buf i; b1 ← rd buf (i + 1); b2 ← rd buf (i + 2); b3 ← rd buf (i + 3);
  Done (Z.lor (Z.lor (Z.lor (Z.shiftl b0 24) (Z.shiftl b1 16)) (Z.shiftl b2 8)) b3).

(** Little-endian loads: the packed structs of [Pak_Decrypt.c] are read in
    place on a little-endian host ("four 32-bit little-endian words"). *)
Definition getle32 (buf : list Z) (i : Z) : exec Z :=
  b0 ← rd buf i; b1 ← rd buf (i + 1); b2 ← rd buf (i + 2); b3 ← rd buf (i + 3);
  Done (Z.lor (Z.lor (Z.lor b0 (Z.shiftl b1 8)) (Z.shiftl b2 16)) (Z.shiftl b3 24)).

Definition getle64 (buf : list Z) (i : Z) : exec Z :=
  lo ← getle32 buf i; hi ← getle32 buf (i + 4);
  Done (Z.lor lo (Z.shiftl hi 32)).

End Util.

(** ** Pak_Decrypt.c *)

Module Pak.

(** [decode]: [for (i = 0; i < length; i++) a[i] ^= k[i % 20];]
    [n] counts the iterations that remain. *)
Fixpoint decode_from (n : nat) (i : Z) (a k : list Z) : exec (list Z) :=
  match n with
  | O => Done a
  | S n' =>
      x ← rd a i;
      y ← rd k (i mod 20);
      a' ← wr a i (Z.lxor x y);
      decode_from n' (i + 1) a' k
  end.

Definition decode (a k : list Z) (length : Z) : exec (list Z) :=
  decode_from (Z.to_nat length) 0 a k.

(** What one iteration does to the byte at index [j]. *)
Definition unmask (k : list Z) (j : nat) (x : Z) : Z := Z.lxor x (cell k (j mod 20)).

(** Field offsets of the packed entry structs:
    [filename] 0, [length] 128, [key] 132, [data_offset] 152;
    [sizeof (pak_entry32)] = 160, [sizeof (pak_entry64)] = 168. *)
Definition sizeof_pak_entry32 : Z := 160.
Definition sizeof_pak_entry64 : Z := 168.
Definition offsetof_data_offset : Z := 152.

(** [sum], [last] of the detection loop in [main]. *)
Record detect_state : Set := mk_detect
  { sum0 : Z; sum1 : Z; last0 : Z; last1 : Z }.

(** [(val > last) ? val - last : last - val] on [uint32_t]. *)
Definition abs_delta (val last : Z) : Z :=
  if val >? last then wrap32 (val - last) else wrap32 (last - val).

(** The detection loop; [entries] is the [calloc]ed, then [fread], entry
    buffer [entries64] as raw bytes, [n] the iterations that remain. *)
Fixpoint detect_loop (n : nat) (i : Z) (entries : list Z) (st : detect_state)
  : exec detect_state :=
  match n with
  | O => Done st
  | S n' =>
      v0 ← Util.getle32 entries (sizeof_pak_entry32 * i + offsetof_data_offset);
      d ← Util.getle64 entries (sizeof_pak_entry64 * i + offsetof_data_offset);
      let v1 := wrap32 (Z.shiftr d 32) in
      detect_loop n' (i + 1) entries
        {| sum0 := wrap64 (sum0 st + abs_delta v0 (last0 st));
           sum1 := wrap64 (sum1 st + abs_delta v1 (last1 st));
           last0 := v0; last1 := v1 |}
  end.

(** [is_pak32] as [main] computes it. *)
Definition is_pak32 (nb_entries : Z) (entries : list Z) : exec bool :=
  st ← detect_loop (Z.to_nat (Util.min nb_entries 64)) 0 entries (mk_detect 0 0 0 0);
  Done (sum0 st <? sum1 st).

(** *** The autodetect rule in the words of the specification *)

(** "the sum of absolute deltas of successive data_offset values" *)
Fixpoint sum_abs_deltas (l : list Z) : Z :=
  match l with
  | a :: t => match t with
              | b :: _ => Z.abs (b - a) + sum_abs_deltas t
              | [] => 0
              end
  | [] => 0
  end.

Definition le32_at (buf : list Z) (i : Z) : Z :=
  cell buf (Z.to_nat i) + 2 ^ 8 * cell buf (Z.to_nat (i + 1))
  + 2 ^ 16 * cell buf (Z.to_nat (i + 2)) + 2 ^ 24 * cell buf (Z.to_nat (i + 3)).

Definition le64_at (buf : list Z) (i : Z) : Z :=
  le32_at buf i + 2 ^ 32 * le32_at buf (i + 4).

(** The [data_offset] fields of the first [n] entries under each layout. *)
Definition data_offsets32 (n : Z) (entries : list Z) : list Z :=
  (fun i => le32_at entries (160 * i + 152)) <$> seqZ 0 n.
Definition data_offsets64 (n : Z) (entries : list Z) : list Z :=
  (fun i => le64_at entries (168 * i + 152)) <$> seqZ 0 n.

Definition spec_is_pak32 (nb_entries : Z) (entries : list Z) : bool :=
  let n := Z.min nb_entries 64 in
  sum_abs_deltas (data_offsets32 n entries) <? sum_abs_deltas (data_offsets64 n entries).

(** What the loop samples: for the first candidate the [data_offset] of the
    32-bit layout; for the second the upper half of the 64-bit
    [data_offset], i.e. the 32-bit word at offset 156 of each 168-byte
    entry. *)
Definition low_word (entries : list Z) (i : Z) : Z := le32_at entries (160 * i + 152).
Definition high_word (entries : list Z) (i : Z) : Z := le32_at entries (168 * i + 156).
Definition high_words64 (n : Z) (entries : list Z) : list Z :=
  high_word entries <$> seqZ 0 n.

(** Scenario S1 with every byte the scenario leaves open set to zero: two
    160-byte entries with [data_offset] 0 and 0x200, and the 16 bytes that
    [fread] takes beyond them. *)
Definition s1_entries : list Z :=
  replicate 160 0 ++ (replicate 152 0 ++ [0; 2; 0; 0] ++ replicate 4 0) ++ replicate 16 0.

(** Two 168-byte entries with the 64-bit [data_offset] values 0 and 0x200. *)
Definition wide_entries : list Z :=
  replicate 168 0 ++ (replicate 152 0 ++ [0; 2; 0; 0; 0; 0; 0; 0] ++ replicate 8 0).

End Pak.

(** ** gust_enc.c *)

Module Gust.

Definition SEED_CONSTANT : Z := 0x3b9a73c9.
Definition SEED_INCREMENT : Z := 0x2f09.

(** A [uint32_t x[3]] array; the index is always 0, 1 or 2 in the code. *)
Definition arr3 : Set := (Z * Z * Z)%type.

Definition get3 (a : arr3) (i : Z) : Z :=
  let '(a0, a1, a2) := a in
  if i =? 0 then a0 else if i =? 1 then a1 else a2.

Definition set3 (a : arr3) (i : Z) (v : Z) : arr3 :=
  let '(a0, a1, a2) := a in
  if i =? 0 then (v, a1, a2) else if i =? 1 then (a0, v, a2) else (a0, a1, v).

(** [seed_data]; the field [length] is [seeds_length] here. *)
Record seed_data : Set := mk_seeds
  { seeds_main : arr3; seeds_table : arr3; seeds_length : arr3; seeds_fence : Z }.

(** [seed[1] = seed[0] * seed[1] + SEED_INCREMENT] on [uint32_t seed[2]]. *)
Definition prng (seed : Z * Z) : Z * Z :=
  (seed.1, wrap32 (seed.1 * seed.2 + SEED_INCREMENT)).

(** *** descramble_chunk *)

(** [base_table[i] = (uint16_t)i] for [i < table_size]. *)
Definition base_table (table_size : Z) : list Z := wrap16 <$> seqZ 0 table_size.

(** [memmove (dst, src, n * sizeof (uint16_t))] inside one array of
    16-bit cells: the [n] cells from index [src] on are read, then stored
    from index [dst] on. *)
Fixpoint load_cells (n : nat) (mem : list Z) (i : Z) : exec (list Z) :=
  match n with
  | O => Done []
  | S n' => v ← rd mem i; vs ← load_cells n' mem (i + 1); Done (v :: vs)
  end.

Fixpoint store_cells (vs : list Z) (mem : list Z) (i : Z) : exec (list Z) :=
  match vs with
  | [] => Done mem
  | v :: vs' =>
      if (0 <=? i) && (i <? Z.of_nat (length mem))
      then store_cells vs' (<[Z.to_nat i := v]> mem) (i + 1)
      else Crash OutOfBounds
  end.

Definition memmove (mem : list Z) (dst src : Z) (n : nat) : exec (list Z) :=
  vs ← load_cells n mem src; store_cells vs mem dst.

(** The loop that fills [scrambling_table], [n = table_size - i] iterations
    remaining.  [mem] is the memory at [base_table]: its [table_size] cells,
    then the cells that can be read behind them.  The [memmove] moves
    [table_size - i - x] cells from [base_table[x + 1]] on, the last of which
    is [base_table[table_size - i]]: at [i = 0] the cell behind the array. *)
Fixpoint scramble (n : nat) (i table_size : Z) (mem : list Z) (seed : Z * Z)
  : exec (list Z * (Z * Z)) :=
  match n with
  | O => Done ([], seed)
  | S n' =>
      let seed' := prng seed in
      let x := Z.land (Z.shiftr seed'.2 16) 0x7FFF mod (table_size - i) in
      v ← rd mem x;
      mem' ← memmove mem x (x + 1) (Z.to_nat (table_size - i - x));
      '(rest, seed'') ← scramble n' (i + 1) table_size mem' seed';
      Done (v :: rest, seed'')
  end.

(** One iteration of the swap loop, for the table entries [s0], [s1]. *)
Definition swap_bits (chunk : list Z) (s0 s1 : Z) : exec (list Z) :=
  let p0 := wrap8 (Z.shiftr s0 3) in
  let b0 := wrap8 (Z.land s0 7) in
  let p1 := wrap8 (Z.shiftr s1 3) in
  let b1 := wrap8 (Z.land s1 7) in
  c0 ← rd chunk p0;
  let v0 := wrap8 (Z.shiftr (Z.land c0 (Z.shiftl 1 b0)) b0) in
  c1 ← rd chunk p1;
  let v1 := wrap8 (Z.shiftr (Z.land c1 (Z.shiftl 1 b1)) b1) in
  x ← rd chunk p0;
  chunk ← wr chunk p0 (Z.land x (Z.lnot (Z.shiftl 1 b0)));
  x ← rd chunk p0;
  chunk ← wr chunk p0 (Z.lor x (Z.shiftl v1 b0));
  x ← rd chunk p1;
  chunk ← wr chunk p1 (Z.land x (Z.lnot (Z.shiftl 1 b1)));
  x ← rd chunk p1;
  wr chunk p1 (Z.lor x (Z.shiftl v0 b1)).

(** [for (i = 0; i < min(table_size, chunk_size << 3); i += 2)]; [tbl] is
    [scrambling_table] from index [i] on, [limit] the loop bound. *)
Fixpoint swap_loop (tbl : list Z) (i limit : Z) (chunk : list Z) : exec (list Z) :=
  match tbl with
  | s0 :: s1 :: tbl' =>
      if i <? limit
      then chunk' ← swap_bits chunk s0 s1; swap_loop tbl' (i + 2) limit chunk'
      else Done chunk
  | _ => if i <? limit then Crash OutOfBounds else Done chunk
  end.

Section Chunk.
(** The cells that a read can reach behind the [calloc]ed [base_table]:
    none ([[]]) when the block is exactly the [table_size] elements asked
    for; an allocator that rounds the block up leaves some, with contents
    of its own. *)
Variable behind : list Z.

(** [while (chunk < max_chunk)]; [remaining] is [max_chunk - chunk], and
    [chunk = &chunk[slice_size]] drops the slice from the view. *)
Fixpoint slices (fuel : nat) (chunk : list Z) (remaining chunk_size : Z)
    (seed : Z * Z) (slice_size table_size : Z) : exec (list Z * (Z * Z)) :=
  if 0 <? remaining then
    match fuel with
    | O => Crash OutOfFuel
    | S fuel' =>
        '(tbl, seed') ← scramble (Z.to_nat table_size) 0 table_size
                          (base_table table_size ++ behind) seed;
        chunk' ← swap_loop tbl 0 (Util.min table_size (wrap32 (Z.shiftl chunk_size 3))) chunk;
        '(rest, seed'') ← slices fuel' (drop (Z.to_nat slice_size) chunk')
                            (remaining - slice_size) (wrap32 (chunk_size - slice_size))
                            seed' slice_size table_size;
        Done (take (Z.to_nat slice_size) chunk' ++ rest, seed'')
    end
  else Done (chunk, seed).

(** [descramble_chunk]; returns the result, the chunk and [seed].  The two
    [calloc]s are taken to succeed. *)
Definition descramble_chunk (chunk : list Z) (chunk_size : Z) (seed : Z * Z)
    (slice_size : Z) : exec (bool * list Z * (Z * Z)) :=
  let table_size := wrap32 (Z.shiftl slice_size 3) in
  if table_size <? 4 then Done (false, chunk, seed)
  else
    '(chunk', seed') ← slices (Z.to_nat chunk_size) chunk chunk_size chunk_size
                         seed slice_size table_size;
    Done (true, chunk', seed').
End Chunk.

(** *** The bit swap seen as a permutation of bit positions *)

(** The bit at position [pos] of a buffer: bit [pos & 7] of byte
    [pos >> 3]. *)
Definition bit (buf : list Z) (pos : Z) : bool :=
  Z.testbit (cell buf (Z.to_nat (pos / 8))) (pos mod 8).

(** Exchanging the positions [s0] and [s1]. *)
Definition exchange (s0 s1 q : Z) : Z :=
  if q =? s1 then s0 else if q =? s0 then s1 else q.

(** The position whose bit the swap loop moves to [pos]: the loop of
    [swap_loop], run on positions instead of on a chunk. *)
Fixpoint partner (tbl : list Z) (i limit : Z) (pos : Z) : Z :=
  match tbl with
  | s0 :: s1 :: tbl' =>
      if i <? limit then exchange s0 s1 (partner tbl' (i + 2) limit pos) else pos
  | _ => pos
  end.

(** The scrambling table in closed form, for a list [base] of [n] live
    entries: entry [x] is taken and deleted from the list. *)
Fixpoint shuffle (n : nat) (base : list Z) (seed : Z * Z) : list Z * (Z * Z) :=
  match n with
  | O => ([], seed)
  | S n' =>
      let seed' := prng seed in
      let x := Z.to_nat (Z.land (Z.shiftr seed'.2 16) 0x7FFF mod Z.of_nat n) in
      let '(rest, seed'') := shuffle n' (delete x base) seed' in
      (cell base x :: rest, seed'')
  end.

(** The number of bytes that the slices of a chunk of [chunk_size] bytes
    span: [slice_size] times the number of slices. *)
Definition span (chunk_size slice_size : Z) : Z :=
  slice_size * ((chunk_size + slice_size - 1) / slice_size).

(** *** descrambler1 *)

(** [for (i = 0; i < buf_size; i += 2)], [n] iterations remaining. *)
Fixpoint d1_loop (n : nat) (i : Z) (buf : list Z) (seed : Z * Z) (fence : Z)
  : exec (list Z) :=
  match n with
  | O => Done buf
  | S n' =>
      let seed' := prng seed in
      let x := Z.land (Z.shiftr seed'.2 16) 0x7fff in
      w ← Util.getbe16 buf i;
      if fence =? 0 then Crash DivideByZero
      else
        let w := if x mod fence >=? fence / 2 then wrap16 (Z.lxor w (wrap16 x)) else w in
        let w := wrap16 (w - wrap16 x) in
        buf' ← Util.setbe16 buf i w;
        d1_loop n' (i + 2) buf' seed' fence
  end.

(** [descrambler1]; the tables of [descramble_chunk] are the blocks that
    [calloc] is asked for, with nothing readable behind them. *)
Definition descrambler1 (buf : list Z) (buf_size : Z) (seeds : seed_data)
  : exec (bool * list Z) :=
  let chunk_size := Util.min buf_size 0x800 in
  let off := Z.to_nat (buf_size - chunk_size) in
  '(ok, chunk, _) ← descramble_chunk [] (drop off buf) chunk_size
                      (SEED_CONSTANT, get3 (seeds_main seeds) 0) 0x100;
  let buf := take off buf ++ chunk in
  if negb ok then Done (false, buf)
  else
    buf ← d1_loop (Z.to_nat ((buf_size + 1) / 2)) 0 buf
            (SEED_CONSTANT, get3 (seeds_main seeds) 1) (seeds_fence seeds);
    Done (true, buf).

(** *** descrambler2 *)

(** The three messages that precede a [return false]. *)
Inductive d2_error : Set := InvalidSize | MarkerNotFound | ChecksumMismatch.

(** The return value ([None] for [true]) and the two objects the function
    writes through its pointers. *)
Record d2_result : Set := mk_d2
  { d2_error_of : option d2_error; d2_buf : list Z; d2_seeds : seed_data }.

(** [for ( ; (buf_size > 0) && (buf[buf_size] != 0xff); buf_size--);] *)
Fixpoint find_marker (buf : list Z) (buf_size : nat) : exec Z :=
  match buf_size with
  | O => Done 0
  | S n =>
      b ← rd buf (Z.of_nat buf_size);
      if b =? 0xff then Done (Z.of_nat buf_size) else find_marker buf n
  end.

Record xor_state : Set := mk_xor
  { seed1 : Z; seed_index : Z; seed_switch_fudge : Z;
    processed_for_this_seed : Z; table : arr3 }.

(** The per-byte XOR loop, [n] iterations remaining; [seed0] is [seed[0]],
    [lengths] is [seeds->length]. *)
Fixpoint xor_loop (n : nat) (i : Z) (buf : list Z) (seed0 : Z) (lengths : arr3)
    (st : xor_state) : exec (list Z * xor_state) :=
  match n with
  | O => Done (buf, st)
  | S n' =>
      let s1 := wrap32 (seed0 * seed1 st + SEED_INCREMENT) in
      b ← rd buf i;
      buf' ← wr buf i (Z.lxor b (Z.shiftr s1 16));
      let processed := wrap32 (processed_for_this_seed st + 1) in
      if processed >=? wrap32 (get3 lengths (seed_index st) + seed_switch_fudge st)
      then
        let table' := set3 (table st) (seed_index st) s1 in
        let index' := seed_index st + 1 in
        let '(index'', fudge') :=
          if index' >=? 3 then (0, wrap32 (seed_switch_fudge st + 1))
          else (index', seed_switch_fudge st) in
        xor_loop n' (i + 1) buf' seed0 lengths
          (mk_xor (get3 table' index'') index'' fudge' 0 table')
      else
        xor_loop n' (i + 1) buf' seed0 lengths
          (mk_xor s1 (seed_index st) (seed_switch_fudge st) processed (table st))
  end.

(** The state in which the per-byte XOR loop starts: [seed[1]] is
    [seeds->table[0]], the three counters are 0. *)
Definition xor_init (seeds : seed_data) : xor_state :=
  mk_xor (get3 (seeds_table seeds) 0) 0 0 0 (seeds_table seeds).

(** [for (i = 0; i < buf_size; i += 4)] over [computed_checksum]. *)
Fixpoint checksum_loop (n : nat) (i : Z) (buf : list Z) (c : Z * Z) : exec (Z * Z) :=
  match n with
  | O => Done c
  | S n' =>
      w ← Util.getbe32 buf i;
      checksum_loop n' (i + 4) buf (Z.lxor c.1 (wrap32 (Z.lnot w)), wrap32 (c.2 - w))
  end.

Definition descrambler2 (buf : list Z) (buf_size : Z) (seeds : seed_data)
  : exec d2_result :=
  if negb (buf_size mod 4 =? 0) || (buf_size <? 16)
  then Done (mk_d2 (Some InvalidSize) buf seeds)
  else
    let buf_size := buf_size - 4 in
    final_seed ← Util.getbe32 buf buf_size;
    let seed0 := wrap32 (final_seed + SEED_CONSTANT) in
    let buf_size := buf_size - 4 in
    file_checksum0 ← Util.getbe32 buf buf_size;
    let buf_size := buf_size - 4 in
    file_checksum1 ← Util.getbe32 buf buf_size;
    let buf_size := buf_size - 1 in
    buf_size ← find_marker buf (Z.to_nat buf_size);
    b ← (if buf_size <? 4 then Done 0 else rd buf buf_size);
    if (buf_size <? 4) || negb (b =? 0xff)
    then Done (mk_d2 (Some MarkerNotFound) buf seeds)
    else
      '(buf, st) ← xor_loop (Z.to_nat buf_size) 0 buf seed0 (seeds_length seeds)
                     (xor_init seeds);
      let seeds := mk_seeds (seeds_main seeds) (table st) (seeds_length seeds)
                     (seeds_fence seeds) in
      buf ← wr buf buf_size 0;
      let buf_size := Z.land buf_size (wrap32 (Z.lnot 3)) in
      '(c0, c1) ← checksum_loop (Z.to_nat (buf_size / 4)) 0 buf (0, 0);
      if negb (c0 =? file_checksum0) || negb (c1 =? file_checksum1)
      then Done (mk_d2 (Some ChecksumMismatch) buf seeds)
      else
        '(_, buf, _) ← descramble_chunk [] buf (Util.min buf_size 0x800)
                         (seed0, get3 (seeds_main seeds) 2) 0x80;
        Done (mk_d2 None buf seeds).

(** *** The checksum in the words of the specification *)

(** The big-endian word at [buf[i..i+4)]. *)
Definition be32_at (buf : list Z) (i : Z) : Z :=
  Z.lor (Z.lor (Z.lor (Z.shiftl (cell buf (Z.to_nat i)) 24)
                      (Z.shiftl (cell buf (Z.to_nat (i + 1))) 16))
               (Z.shiftl (cell buf (Z.to_nat (i + 2))) 8))
        (cell buf (Z.to_nat (i + 3))).

(** "each big-endian u32 w at buf[0..n]" *)
Definition be_words (buf : list Z) (n : Z) : list Z :=
  (fun j => be32_at buf (4 * j)) <$> seqZ 0 (n / 4).

(** "c0 ^= ~w; c1 -= w (wrapping)", from [(0, 0)]. *)
Definition checksum_step (c : Z * Z) (w : Z) : Z * Z :=
  (Z.lxor c.1 (wrap32 (Z.lnot w)), wrap32 (c.2 - w)).
Definition checksum_spec (ws : list Z) : Z * Z := foldl checksum_step (0, 0) ws.

(** *** Concrete descrambler inputs *)

Definition demo_seeds : seed_data :=
  mk_seeds (0x11, 0x22, 0x33) (1, 2, 3) (2, 2, 2) 7.

(** 32 bytes whose last 13 bytes hold no 0xFF, with a 0xFF at index 10. *)
Definition s4_buf : list Z := replicate 10 0 ++ [0xFF] ++ replicate 21 0.

(** 16 bytes without any 0xFF. *)
Definition s4_short : list Z := replicate 16 0.

(** Scenario S6 on a sample buffer: 0x200 bytes. *)
Definition s6_buf : list Z := (fun i => (i * 37 + 11) mod 256) <$> seqZ 0 0x200.

(** One slice of 0x101 bytes, with a single bit set. *)
Definition wide_slice_buf : list Z := 1 :: replicate 0x100 0.

(** A chunk of 0x50 bytes, shorter than one slice of 0x80 bytes. *)
Definition short_chunk_buf : list Z := replicate 0x50 0xAA.

(** *** getbits *)

Record getbits_ctx : Set := mk_ctx
  { buffer : list Z; size : Z; pos : Z; getbits_buffer : Z; getbits_mask : Z }.

(** [(uint32_t)EOF] *)
Definition EOF32 : Z := wrap32 (-1).

(** The loop of [getbits], [n] bits remaining, [x] the accumulator; the
    result is the returned [uint32_t] and the context. *)
Fixpoint getbits_loop (n : nat) (ctx : getbits_ctx) (x : Z) : exec (Z * getbits_ctx) :=
  match n with
  | O => Done (wrap32 x, ctx)
  | S n' =>
      if (getbits_mask ctx =? 0) && (pos ctx >=? size ctx) then Done (EOF32, ctx)
      else
        ctx ← (if getbits_mask ctx =? 0
               then b ← rd (buffer ctx) (pos ctx);
                    Done (mk_ctx (buffer ctx) (size ctx) (pos ctx + 1) b 0x80)
               else Done ctx);
        let x := Z.shiftl x 1 in
        let x := if Z.land (getbits_buffer ctx) (getbits_mask ctx) =? 0 then x else x + 1 in
        getbits_loop n' (mk_ctx (buffer ctx) (size ctx) (pos ctx) (getbits_buffer ctx)
                           (Z.shiftr (getbits_mask ctx) 1)) x
  end.

Definition getbits (ctx : getbits_ctx) (n : Z) : exec (Z * getbits_ctx) :=
  getbits_loop (Z.to_nat n) ctx 0.

(** *** build_code_table *)

(** [while ((++code_len < 8) && ((c = getbits(&ctx, 1)) == 0));] *)
Fixpoint code_length (fuel : nat) (code_len c : Z) (ctx : getbits_ctx)
  : exec (Z * Z * getbits_ctx) :=
  let code_len := code_len + 1 in
  if code_len <? 8 then
    '(c, ctx) ← getbits ctx 1;
    if c =? 0 then
      match fuel with
      | O => Crash OutOfFuel
      | S fuel' => code_length fuel' code_len c ctx
      end
    else Done (code_len, c, ctx)
  else Done (code_len, c, ctx).

(** The [for] loop of [build_code_table]: [n = *code_table_length - i]
    entries remain, [c] is the bit read by the init or step clause, [acc]
    the entries [code_table[0..i)] written so far. *)
Fixpoint code_table_loop (n : nat) (c : Z) (ctx : getbits_ctx) (acc : list Z)
  : exec (list Z) :=
  match n with
  | O => Done acc
  | S n' =>
      if c =? EOF32 then Done acc
      else if c =? 1 then
        '(c', ctx') ← getbits ctx 1;
        code_table_loop n' c' ctx' (acc ++ [1])
      else
        '(code_len, c, ctx) ← code_length 8 0 c ctx;
        if c =? EOF32 then Done acc
        else if code_len <? 8 then
          '(v, ctx) ← getbits ctx code_len;
          let entry := wrap8 (Z.lor (wrap32 (Z.shiftl c code_len)) v) in
          '(c', ctx') ← getbits ctx 1;
          code_table_loop n' c' ctx' (acc ++ [entry])
        else
          '(c', ctx') ← getbits ctx 1;
          code_table_loop n' c' ctx' (acc ++ [0])
  end.

(** [build_code_table]: returns [*code_table_length] and the entries the
    loop has written, in order from index 0; the cells of the [malloc]ed
    table beyond them keep no defined value.  [malloc] is taken to succeed;
    the run in which it fails is [unglaze_no_table] below. *)
Definition build_code_table (bitstream : list Z) (bitstream_length : Z)
  : exec (Z * list Z) :=
  code_table_length ← Util.getbe32 bitstream 0;
  let ctx := mk_ctx (drop 4 bitstream) (wrap32 (bitstream_length - 4)) 0 0 0 in
  '(c, ctx) ← getbits ctx 1;
  code_table ← code_table_loop (Z.to_nat code_table_length) c ctx [];
  Done (code_table_length, code_table).

(** *** unglaze *)

(** The messages that precede a [return]. *)
Inductive glaze_error : Set :=
| SizeMismatch | BitstreamTooSmall | BitstreamTooLarge
| DictionaryTooLarge | LengthTableTooLarge | Overflow.

(** The returned [uint32_t], the message printed if any, and the bytes
    written through [dst], in order from [dst[0]]. *)
Record glaze_result : Set := mk_glaze
  { ret : Z; message : option glaze_error; written : list Z }.

(** What a read finds in a cell of [dst] that the run has not written: the
    byte that [malloc] has left there.  It stands for no byte value. *)
Definition indeterminate : Z := -1.

(** The cursors as offsets: [code] into [code_table], [dict] and [len] into
    the [src] the function was called with; [dst] is the output so far. *)
Record glaze_state : Set := mk_state
  { code : Z; dict : Z; len : Z; dst : list Z }.

Section Glaze.
(** [src], the code table and its length, and [dst_cap], the number of
    bytes allocated behind [dst]. *)
Variables (src code_table : list Z) (code_len dst_cap : Z).

(** [*code++] as an rvalue. *)
Definition rd_code (i : Z) : exec Z :=
  if (i <? 0) || (code_len <=? i) then Crash OutOfBounds
  else match code_table !! Z.to_nat i with
       | Some b => Done b
       | None => Crash Uninitialised
       end.

(** [*dst++ = b] *)
Definition emit (out : list Z) (b : Z) : exec (list Z) :=
  if Z.of_nat (length out) <? dst_cap then Done (out ++ [wrap8 b])
  else Crash OutOfBounds.

(** [*dst++ = dst[-d]]: the cell [d] positions before [dst] is read, a
    cell of the output so far, or for [d <= 0] a cell that the run has not
    written yet, and copied as it is. *)
Definition emit_back (out : list Z) (d : Z) : exec (list Z) :=
  let j := Z.of_nat (length out) - d in
  if (j <? 0) || (dst_cap <=? j) then Crash OutOfBounds
  else if Z.of_nat (length out) <? dst_cap
       then Done (out ++ [default indeterminate (out !! Z.to_nat j)])
       else Crash OutOfBounds.

(** [for (i = n; i > 0; i--) *dst++ = dst[-d];] *)
Fixpoint copy_back (n : nat) (out : list Z) (d : Z) : exec (list Z) :=
  match n with
  | O => Done out
  | S n' => out ← emit_back out d; copy_back n' out d
  end.

(** [for (i = n; i > 0; i--) *dst++ = *dict++;] *)
Fixpoint copy_dict (n : nat) (out : list Z) (dict : Z) : exec (list Z * Z) :=
  match n with
  | O => Done (out, dict)
  | S n' => b ← rd src dict; out ← emit out b; copy_dict n' out (dict + 1)
  end.

(** The [switch] on [*code++] of one loop iteration. *)
Definition glaze_step (st : glaze_state) : exec glaze_state :=
  op ← rd_code (code st);
  let code := code st + 1 in
  if op =? 0x01 then
    '(out, dict) ← copy_dict 1 (dst st) (dict st);
    Done (mk_state code dict (len st) out)
  else if op =? 0x02 then
    d ← rd_code code;
    out ← emit_back (dst st) d;
    Done (mk_state (code + 1) (dict st) (len st) out)
  else if op =? 0x03 then
    d ← rd_code code;
    l ← rd_code (code + 1);
    let d := d + l in
    out ← copy_back (Z.to_nat (l + 1)) (dst st) d;
    Done (mk_state (code + 2) (dict st) (len st) out)
  else if op =? 0x04 then
    l ← rd_code code;
    d0 ← rd src (dict st);
    let d := d0 + l in
    out ← copy_back (Z.to_nat (l + 1)) (dst st) d;
    Done (mk_state (code + 1) (dict st + 1) (len st) out)
  else if op =? 0x05 then
    dhi ← rd_code code;
    dlo ← rd src (dict st);
    let d := Z.lor (Z.shiftl dhi 8) dlo in
    l ← rd_code (code + 1);
    let d := d + l in
    out ← copy_back (Z.to_nat (l + 1)) (dst st) d;
    Done (mk_state (code + 2) (dict st + 1) (len st) out)
  else if op =? 0x06 then
    l ← rd_code code;
    let l := l + 8 in
    '(out, dict) ← copy_dict (Z.to_nat l) (dst st) (dict st);
    Done (mk_state (code + 1) dict (len st) out)
  else if op =? 0x07 then
    l ← rd src (len st);
    '(out, dict) ← copy_dict (Z.to_nat (l + 14)) (dst st) (dict st);
    Done (mk_state code dict (len st + 1) out)
  else
    (* no [default:] label *)
    Done (mk_state code (dict st) (len st) (dst st)).

(** [while (dst < dst_max)] with the sanity checks. *)
Fixpoint glaze_loop (fuel : nat) (dec_length max_dict max_len : Z)
    (st : glaze_state) : exec glaze_result :=
  if Z.of_nat (length (dst st)) <? dec_length then
    match fuel with
    | O => Crash OutOfFuel
    | S fuel' =>
        if (dict st >? max_dict) || (len st >? max_len) || (code st >? code_len)
        then Done (mk_glaze 0 (Some Overflow) (dst st))
        else st' ← glaze_step st; glaze_loop fuel' dec_length max_dict max_len st'
    end
  else Done (mk_glaze dec_length None (dst st)).
End Glaze.

Definition unglaze (src : list Z) (src_length : Z) (dst_length dst_cap : Z)
  : exec glaze_result :=
  dec_length ← Util.getbe32 src 0;
  if negb (dec_length =? dst_length) then Done (mk_glaze dec_length (Some SizeMismatch) [])
  else
    bitstream_length ← Util.getbe32 src 4;
    if bitstream_length <=? 4 then Done (mk_glaze 0 (Some BitstreamTooSmall) [])
    else
      let chk_length := wrap32 (bitstream_length + 4) in
      if chk_length >=? src_length then Done (mk_glaze 0 (Some BitstreamTooLarge) [])
      else
        '(code_len, code_table) ← build_code_table (drop 8 src) bitstream_length;
        let dict := 8 + bitstream_length in
        dict_len ← Util.getbe32 src dict;
        let dict := dict + 4 in
        let chk_length := wrap32 (chk_length + dict_len + 4) in
        if chk_length >=? src_length then Done (mk_glaze 0 (Some DictionaryTooLarge) [])
        else
          let len := dict + dict_len in
          let max_dict := len in
          len_len ← Util.getbe32 src len;
          let len := len + 4 in
          let max_len := len + len_len in
          let chk_length := wrap32 (chk_length + len_len + 4) in
          if chk_length >=? src_length
          then Done (mk_glaze 0 (Some LengthTableTooLarge) [])
          else
            glaze_loop src code_table code_len dst_cap
              (S (Z.to_nat code_len)) dec_length max_dict max_len
              (mk_state 0 dict len []).

(** The run of [unglaze] in which [malloc] has no memory for the code
    table: [build_code_table] sets [*code_table_length] and returns [NULL],
    and [unglaze] returns 0 without a message, before it has read the
    dictionary or written to [dst]. *)
Definition unglaze_no_table (src : list Z) (src_length : Z) (dst_length : Z)
  : exec glaze_result :=
  dec_length ← Util.getbe32 src 0;
  if negb (dec_length =? dst_length) then Done (mk_glaze dec_length (Some SizeMismatch) [])
  else
    bitstream_length ← Util.getbe32 src 4;
    if bitstream_length <=? 4 then Done (mk_glaze 0 (Some BitstreamTooSmall) [])
    else
      let chk_length := wrap32 (bitstream_length + 4) in
      if chk_length >=? src_length then Done (mk_glaze 0 (Some BitstreamTooLarge) [])
      else
        code_table_length ← Util.getbe32 (drop 8 src) 0;
        Done (mk_glaze 0 None []).

(** *** Concrete inputs *)

(** Scenario S5 as the byte stream [unglaze] receives: [out_len] = 10, a
    6-byte bitstream whose prefix code yields the opcodes 01 01 06 02, the
    11-byte dictionary "ABCCDEFGHIJ", an empty length table. *)
Definition s5_src : list Z :=
  [0; 0; 0; 10] ++
  [0; 0; 0; 6] ++ [0; 0; 0; 4; 0xCC; 0x80] ++
  [0; 0; 0; 11] ++ [65; 66; 67; 67; 68; 69; 70; 71; 72; 73; 74] ++
  [0; 0; 0; 0].

(** A stream whose opcode table is 00 01: eight 0 bits, then a 1 bit. *)
Definition skip_src : list Z :=
  [0; 0; 0; 1] ++
  [0; 0; 0; 6] ++ [0; 0; 0; 2; 0x00; 0x80] ++
  [0; 0; 0; 1] ++ [65] ++
  [0; 0; 0; 0].

(** A bitstream that declares one opcode and ends inside its value bits:
    0000000 1, then nothing where seven value bits are due. *)
Definition eof_bitstream : list Z := [0; 0; 0; 1; 0x01].

(** A bitstream that declares two opcodes and ends inside the length prefix
    of the second: 1, then 0000000 and nothing more. *)
Definition eof_prefix_bitstream : list Z := [0; 0; 0; 2; 0x80].

(** A state of the opcode machine positioned on the opcode 00 of the table
    00 01. *)
Definition skip_state : glaze_state := mk_state 0 18 23 [].

End Gust.

(** ** Pak_Decrypt.c: the per-entry part of main *)

Module PakEntry.

(** [for (j = 0; (j < 20) && (entry(i, key)[j] == 0); j++);] with at most
    [n = 20 - j] iterations left. *)
Fixpoint key_scan (n : nat) (j : Z) (key : list Z) : exec Z :=
  match n with
  | O => Done j
  | S n' =>
      if j <? 20 then
        b ← rd key j;
        if b =? 0 then key_scan n' (j + 1) key else Done j
      else Done j
  end.

(** [skip_decode = (j >= 20);] *)
Definition skip_decode (key : list Z) : exec bool :=
  j ← key_scan 20 0 key; Done (j >=? 20).

(** The key that unmasks what two keys have masked in turn. *)
Definition key_xor (k1 k2 : list Z) : list Z := zip_with Z.lxor k1 k2.

(** [strlen (s)]: the index of the first NUL byte. *)
Fixpoint strlen (s : list Z) : exec Z :=
  match s with
  | [] => Crash OutOfBounds
  | c :: s' => if c =? 0 then Done 0 else n ← strlen s'; Done (n + 1)
  end.

(** ['\\'] *)
Definition BACKSLASH : Z := 92.

(** [for (n = 0; n < strlen(filename); n++)
       if (filename[n] == '\\') filename[n] = PATH_SEP;]
    [PATH_SEP] is ['/'] or ['\\'], by platform. *)
Fixpoint normalize_from (fuel : nat) (n : Z) (PATH_SEP : Z) (filename : list Z)
  : exec (list Z) :=
  len ← strlen filename;
  if n <? len then
    match fuel with
    | O => Crash OutOfFuel
    | S fuel' =>
        c ← rd filename n;
        filename ← (if c =? BACKSLASH then wr filename n PATH_SEP else Done filename);
        normalize_from fuel' (n + 1) PATH_SEP filename
    end
  else Done filename.

Definition normalize_separators (PATH_SEP : Z) (filename : list Z) : exec (list Z) :=
  normalize_from (length filename) 0 PATH_SEP filename.

(** [for (size_t n = strlen(path); n > 0; n--)
       if (path[n] == PATH_SEP) { path[n] = 0; break; }] *)
Fixpoint cut_loop (n : nat) (PATH_SEP : Z) (path : list Z) : exec (list Z) :=
  match n with
  | O => Done path
  | S n' =>
      c ← rd path (Z.of_nat n);
      if c =? PATH_SEP then wr path (Z.of_nat n) 0
      else cut_loop n' PATH_SEP path
  end.

(** The string handed to [create_path]; [path] holds the copy of the name
    from its second character on that [strcpy] has made. *)
Definition parent_dir (PATH_SEP : Z) (path : list Z) : exec (list Z) :=
  len ← strlen path; cut_loop (Z.to_nat len) PATH_SEP path.

End PakEntry.

(** ** gust_enc.c: main, from the file read into [buf] to the [fwrite] *)

Module GustMain.
Import Gust.

(** The ways to [goto out] before the output file is written: the type
    check, a [false] from one of the descramblers, and a result of [unglaze]
    other than [dec_size]; each carries what the callee has reported. *)
Inductive e_error : Set :=
| InvalidType (type : Z)
| Descrambler1Failed
| Descrambler2Failed (e : d2_error)
| CantDecompress (e : option glaze_error).

(** [file] is the content of [buf] and [src_size] its size as [ftell] gave
    it, cast to [uint32_t].  The result is the error, or the [dec_size]
    bytes that [fwrite] takes from [dec].  The [malloc]s and the file
    operations are taken to succeed. *)
Definition decode_file (seeds : seed_data) (file : list Z) : exec (e_error + list Z) :=
  let src_size := wrap32 (Z.of_nat (length file)) in
  let stream := file in
  type ← Util.getbe32 stream 0;
  if negb (type =? 2) then Done (inl (InvalidType type))
  else
    dec_size ← Util.getbe32 stream 4;
    let stream := drop 16 stream in
    let src_size := wrap32 (src_size - 16) in
    '(ok, stream) ← descrambler1 stream src_size seeds;
    if negb ok then Done (inl Descrambler1Failed)
    else
      r2 ← descrambler2 stream src_size seeds;
      match d2_error_of r2 with
      | Some e => Done (inl (Descrambler2Failed e))
      | None =>
          r ← unglaze (d2_buf r2) src_size dec_size dec_size;
          if negb (ret r =? dec_size) then Done (inl (CantDecompress (message r)))
          else if Z.of_nat (length (written r)) <? dec_size then Crash Uninitialised
          else Done (inr (take (Z.to_nat dec_size) (written r)))
      end.

End GustMain.

(** ** gust_enc.c: invariants and streams used to state properties *)

Module Bitstream.
Import Gust.

(** The reader of a [getbits_ctx] never leaves the bytes behind [buffer]:
    [pos] is an index and [size] is at most the number of bytes there. *)
Definition within (ctx : getbits_ctx) : Prop :=
  0 <= pos ctx /\ size ctx <= Z.of_nat (length (buffer ctx)).

(** [ctx'] reads the same bytes as [ctx], and no earlier. *)
Definition follows (ctx ctx' : getbits_ctx) : Prop :=
  buffer ctx' = buffer ctx /\ size ctx' = size ctx /\ pos ctx <= pos ctx'.

(** The reader stands in a run of 1 bits with [a] of them left: the first
    [k] bytes of the buffer are 0xFF and are all of it, and the mask is on
    one of the [j] bits that remain of the current byte. *)
Definition ones_left (k : Z) (ctx : getbits_ctx) (a : Z) : Prop :=
  exists j, 0 <= j <= 8 /\ getbits_mask ctx = Z.shiftr 0x80 (8 - j) /\
    (0 < j -> getbits_buffer ctx = 0xFF) /\
    size ctx = k /\ 0 <= pos ctx <= k /\
    take (Z.to_nat k) (buffer ctx) = replicate (Z.to_nat k) 0xFF /\
    a = 8 * (k - pos ctx) + j.

(** The four bytes of a big-endian 32-bit word. *)
Definition be32_bytes (v : Z) : list Z :=
  [wrap8 (Z.shiftr v 24); wrap8 (Z.shiftr v 16); wrap8 (Z.shiftr v 8); wrap8 v].

(** The bitstream of [n] opcodes 01: the count, then 1 bits, a byte more
    than the opcodes fill. *)
Definition store_bitstream (n : nat) : list Z :=
  be32_bytes (Z.of_nat n) ++ replicate (S (n / 8)) 0xFF.

(** A Glaze stream that stores [data] as it is: its size, the bitstream of
    one opcode 01 per byte, [data] as the dictionary, and an empty length
    table.  The program has no compressor; this is the plainest stream that
    its decompressor accepts. *)
Definition store_stream (data : list Z) : list Z :=
  be32_bytes (Z.of_nat (length data)) ++
  (be32_bytes (Z.of_nat (length (store_bitstream (length data))))
   ++ store_bitstream (length data)) ++
  (be32_bytes (Z.of_nat (length data)) ++ data) ++
  be32_bytes 0.

End Bitstream.

(** * Proofs *)

(** [lia] after the quotients and remainders have been replaced by their
    defining equations. *)
Ltac zlia := Z.div_mod_to_equations; lia.

(** ** Sequencing *)

Lemma bind_Done {A B : Type} (a : A) (f : A -> exec B) : (Done a ≫= f) = f a.
Proof. reflexivity. Qed.

Lemma bind_Crash {A B : Type} (e : fault) (f : A -> exec B) : (Crash e ≫= f) = Crash e.
Proof. reflexivity. Qed.

Lemma bind_Done_inv {A B : Type} (m : exec A) (f : A -> exec B) (b : B) :
  m ≫= f = Done b -> exists a, m = Done a /\ f a = Done b.
Proof. destruct m as [a|e]; [eauto|discriminate]. Qed.

(** ** Memory accesses *)

Lemma cell_lookup (buf : list Z) (i : nat) (x : Z) :
  buf !! i = Some x -> cell buf i = x.
Proof. unfold cell. by intros ->. Qed.

Lemma lookup_cell (buf : list Z) (i : nat) :
  (i < length buf)%nat -> buf !! i = Some (cell buf i).
Proof.
  intros Hi. destruct (lookup_lt_is_Some_2 buf i Hi) as [b Hb].
  by rewrite (cell_lookup _ _ _ Hb).
Qed.

Lemma cell_ge (buf : list Z) (i : nat) : (length buf <= i)%nat -> cell buf i = 0.
Proof. intros Hi. unfold cell. by rewrite lookup_ge_None_2. Qed.

Lemma cell_insert_eq (buf : list Z) (i : nat) (v : Z) :
  (i < length buf)%nat -> cell (<[i := v]> buf) i = v.
Proof. intros Hi. apply cell_lookup. by apply list_lookup_insert_eq. Qed.

Lemma cell_insert_ne (buf : list Z) (i j : nat) (v : Z) :
  i <> j -> cell (<[i := v]> buf) j = cell buf j.
Proof. intros Hne. unfold cell. by rewrite list_lookup_insert_ne. Qed.

Lemma rd_Done (buf : list Z) (i : Z) :
  0 <= i < Z.of_nat (length buf) -> rd buf i = Done (cell buf (Z.to_nat i)).
Proof.
  intros Hi. unfold rd.
  destruct (Z.ltb_spec i 0); [lia|].
  rewrite lookup_cell by lia. done.
Qed.

Lemma rd_inv (buf : list Z) (i b : Z) :
  rd buf i = Done b -> 0 <= i < Z.of_nat (length buf) /\ buf !! Z.to_nat i = Some b.
Proof.
  unfold rd. destruct (Z.ltb_spec i 0); [discriminate|].
  destruct (buf !! Z.to_nat i) eqn:E; [|discriminate].
  intros [= ->]. split; [|done]. apply lookup_lt_Some in E. lia.
Qed.

Lemma rd_Crash (buf : list Z) (i : Z) :
  i < 0 \/ Z.of_nat (length buf) <= i -> rd buf i = Crash OutOfBounds.
Proof.
  intros Hi. unfold rd. destruct (Z.ltb_spec i 0); [done|].
  rewrite lookup_ge_None_2; [done|lia].
Qed.

Lemma wr_Done (buf : list Z) (i v : Z) :
  0 <= i < Z.of_nat (length buf) -> wr buf i v = Done (<[Z.to_nat i := wrap8 v]> buf).
Proof.
  intros Hi. unfold wr.
  destruct (Z.leb_spec 0 i); [|lia]. destruct (Z.ltb_spec i (Z.of_nat (length buf))); [done|lia].
Qed.

Lemma wrap8_byte (v : Z) : is_byte (wrap8 v).
Proof. unfold is_byte, wrap8. pose proof (Z.mod_pos_bound v (2 ^ 8)). lia. Qed.

Lemma wrap8_id (v : Z) : is_byte v -> wrap8 v = v.
Proof. unfold is_byte, wrap8. intros. apply Z.mod_small. lia. Qed.

Lemma byte_buf_insert (buf : list Z) (i : nat) (v : Z) :
  byte_buf buf -> is_byte v -> byte_buf (<[i := v]> buf).
Proof.
  unfold byte_buf. intros Hb Hv. apply Forall_insert; done.
Qed.

Lemma cell_byte (buf : list Z) (i : nat) : byte_buf buf -> is_byte (cell buf i).
Proof.
  intros Hb. destruct (decide (i < length buf)%nat) as [Hi|Hi].
  - eapply Forall_lookup_1; [exact Hb|by apply lookup_cell].
  - rewrite cell_ge by lia. unfold is_byte. lia.
Qed.

Lemma log2_byte (x : Z) : is_byte x -> Z.log2 x < 8.
Proof.
  unfold is_byte. intros Hx.
  destruct (Z.eq_dec x 0) as [->|]; [cbn; lia|].
  apply Z.log2_lt_pow2; lia.
Qed.

Lemma lxor_byte (x y : Z) : is_byte x -> is_byte y -> is_byte (Z.lxor x y).
Proof.
  intros Hx Hy. pose proof (log2_byte x Hx). pose proof (log2_byte y Hy).
  unfold is_byte in *.
  assert (0 <= Z.lxor x y) by (apply Z.lxor_nonneg; lia).
  split; [done|].
  destruct (Z.eq_dec (Z.lxor x y) 0) as [->|Hne]; [lia|].
  change 256 with (2 ^ 8). apply Z.log2_lt_pow2; [lia|].
  pose proof (Z.log2_lxor x y ltac:(lia) ltac:(lia)). lia.
Qed.

(** ** Faults that an execution cannot end in *)

Lemma avoids_bind {A B : Type} (e : fault) (m : exec A) (f : A -> exec B) :
  avoids e m -> (forall a, avoids e (f a)) -> avoids e (m ≫= f).
Proof.
  intros Hm Hf. destruct m as [a|e']; [apply Hf|]. rewrite bind_Crash.
  unfold avoids in *. congruence.
Qed.

Lemma avoids_Done {A : Type} (e : fault) (a : A) : avoids e (Done a).
Proof. done. Qed.

Lemma avoids_Crash {A : Type} (e e' : fault) : e <> e' -> avoids e (@Crash A e').
Proof. unfold avoids. congruence. Qed.

Lemma avoids_rd (e : fault) (buf : list Z) (i : Z) : e <> OutOfBounds -> avoids e (rd buf i).
Proof. intros He. unfold rd. repeat case_match; by (apply avoids_Done || apply avoids_Crash). Qed.

Lemma avoids_wr (e : fault) (buf : list Z) (i v : Z) :
  e <> OutOfBounds -> avoids e (wr buf i v).
Proof. intros He. unfold wr. repeat case_match; by (apply avoids_Done || apply avoids_Crash). Qed.

(** Sequences of memory accesses. *)
Ltac avoids_accesses :=
  repeat first
    [ apply avoids_Done | apply avoids_rd; done | apply avoids_wr; done
    | apply avoids_bind; [|intros ?] ].

(** ** PAK key XOR *)

Module PakFacts.
Import Pak.

Section Decode.
Variable k : list Z.
Hypothesis k_len : length k = 20%nat.
Hypothesis k_bytes : byte_buf k.

Lemma decode_from_spec (n : nat) : forall (i : nat) (a : list Z),
  byte_buf a -> (i + n <= length a)%nat ->
  exists a', decode_from n (Z.of_nat i) a k = Done a' /\
    length a' = length a /\ byte_buf a' /\
    forall j : nat, a' !! j =
      if decide (i <= j < i + n)%nat then unmask k j <$> a !! j else a !! j.
Proof.
  induction n as [|n IH]; intros i a Ha Hn.
  - exists a. repeat split; try done. intros j. case_decide; [lia|done].
  - cbn [decode_from].
    assert (Hm : 0 <= Z.of_nat i mod 20 < 20) by (apply Z.mod_pos_bound; lia).
    rewrite (rd_Done a), (rd_Done k) by lia. cbn.
    rewrite wr_Done by lia. cbn.
    rewrite Nat2Z.id.
    assert (Hk : Z.to_nat (Z.of_nat i mod 20) = (i mod 20)%nat).
    { rewrite <- (Nat2Z.id (i mod 20)). f_equal. rewrite Nat2Z.inj_mod. done. }
    rewrite Hk.
    assert (Hx : is_byte (Z.lxor (cell a i) (cell k (i mod 20)))).
    { apply lxor_byte; by apply cell_byte. }
    rewrite (wrap8_id _ Hx).
    replace (Z.of_nat i + 1) with (Z.of_nat (S i)) by lia.
    destruct (IH (S i) (<[i := Z.lxor (cell a i) (cell k (i mod 20))]> a))
      as (a' & Hrun & Hlen & Hbytes & Hlook).
    { by apply byte_buf_insert. }
    { rewrite length_insert. lia. }
    exists a'. rewrite length_insert in Hlen. repeat split; try done.
    intros j. rewrite Hlook.
    destruct (decide (j = i)) as [->|Hne].
    + rewrite decide_False by lia. rewrite decide_True by lia.
      rewrite list_lookup_insert_eq by lia.
      rewrite (lookup_cell a i) by lia. done.
    + rewrite list_lookup_insert_ne by done.
      repeat case_decide; try lia; done.
Qed.

Lemma unmask_unmask (j : nat) (x : Z) : unmask k j (unmask k j x) = x.
Proof. unfold unmask. rewrite Z.lxor_assoc, Z.lxor_nilpotent, Z.lxor_0_r. done. Qed.
End Decode.

(** C9. The key-XOR unmask is an involution: for every byte string [x] and
    every 20-byte key [k], [decode] runs to completion on [x] and XORs byte
    [i] of the buffer with [k[i mod 20]], and running it again with the same
    key on the result gives [x] back. *)
Theorem decode_involutive (x k : list Z) :
  byte_buf x -> byte_buf k -> length k = 20%nat ->
  exists y, decode x k (Z.of_nat (length x)) = Done y /\
            length y = length x /\
            (forall i : nat, (i < length x)%nat ->
               y !! i = Some (Z.lxor (cell x i) (cell k (i mod 20)))) /\
            decode y k (Z.of_nat (length x)) = Done x.
Proof.
  intros Hx Hk Hlen. unfold decode. rewrite Nat2Z.id.
  destruct (decode_from_spec k Hlen Hk (length x) 0%nat x Hx ltac:(lia))
    as (y & Hrun & Hly & Hy & Hlook).
  exists y. split; [done|]. split; [done|]. split.
  { intros i Hi. rewrite Hlook, decide_True by lia.
    rewrite (lookup_cell x i) by done. done. }
  destruct (decode_from_spec k Hlen Hk (length x) 0%nat y Hy ltac:(lia))
    as (z & Hrun' & Hlz & _ & Hlook').
  change (Z.of_nat 0) with 0 in *. rewrite Hrun'. f_equal.
  apply list_eq. intros j. rewrite Hlook', Hlook.
  case_decide as Hj; [|done].
  rewrite <- option_fmap_compose.
  destruct (x !! j); [|done]. cbn. by rewrite unmask_unmask.
Qed.

Lemma decode_involutive_witness :
  let k := [0x11; 0x22; 0x33; 0x44; 0x55; 0x66; 0x77; 0x88; 0x99; 0xAA;
            0xBB; 0xCC; 0xDD; 0xEE; 0xFF; 0x01; 0x02; 0x03; 0x04; 0x05] in
  let x := [0x5C; 0x61; 0x2E; 0x74] ++ replicate 18 0x20 in
  decode x k 22 = Done ([0x4D; 0x43; 0x1D; 0x30] ++
                        [0x75; 0x46; 0x57; 0xA8; 0xB9; 0x8A; 0x9B; 0xEC; 0xFD; 0xCE;
                         0xDF; 0x21; 0x22; 0x23; 0x24; 0x25] ++ [0x31; 0x02]) /\
  decode ([0x4D; 0x43; 0x1D; 0x30] ++
          [0x75; 0x46; 0x57; 0xA8; 0xB9; 0x8A; 0x9B; 0xEC; 0xFD; 0xCE;
           0xDF; 0x21; 0x22; 0x23; 0x24; 0x25] ++ [0x31; 0x02]) k 22 = Done x.
Proof.
  intros k x.
  destruct (decode_involutive x k) as (y & Hrun & _ & _ & Hback).
  - apply (bool_decide_unpack _). vm_compute. exact I.
  - apply (bool_decide_unpack _). vm_compute. exact I.
  - reflexivity.
  - change (Z.of_nat (length x)) with 22 in Hrun, Hback.
    assert (Hy : Done y = Done ([0x4D; 0x43; 0x1D; 0x30] ++
                        [0x75; 0x46; 0x57; 0xA8; 0xB9; 0x8A; 0x9B; 0xEC; 0xFD; 0xCE;
                         0xDF; 0x21; 0x22; 0x23; 0x24; 0x25] ++ [0x31; 0x02])).
    { rewrite <- Hrun. vm_compute. reflexivity. }
    injection Hy as ->. split; [exact Hrun|exact Hback].
Defined.

End PakFacts.

(** ** Loads *)

Lemma lor_shiftl_add (a b k : Z) :
  0 <= k -> 0 <= a < 2 ^ k -> Z.lor a (Z.shiftl b k) = a + b * 2 ^ k.
Proof.
  intros Hk Ha. rewrite Z.shiftl_mul_pow2 by done.
  assert (Hland : Z.land a (b * 2 ^ k) = 0).
  { apply Z.bits_inj'. intros n Hn. rewrite Z.land_spec, Z.bits_0.
    destruct (Z.lt_ge_cases n k).
    - rewrite Z.mul_pow2_bits_low by lia. apply andb_false_r.
    - rewrite <- (Z.mod_small a (2 ^ k)) by lia.
      rewrite Z.mod_pow2_bits_high by lia. done. }
  rewrite <- Z.lxor_lor by done. symmetry. by apply Z.add_nocarry_lxor.
Qed.

Lemma le32_at_range (buf : list Z) (i : Z) :
  byte_buf buf -> 0 <= Pak.le32_at buf i < 2 ^ 32.
Proof.
  intros Hb. unfold Pak.le32_at.
  pose proof (cell_byte buf (Z.to_nat i) Hb).
  pose proof (cell_byte buf (Z.to_nat (i + 1)) Hb).
  pose proof (cell_byte buf (Z.to_nat (i + 2)) Hb).
  pose proof (cell_byte buf (Z.to_nat (i + 3)) Hb).
  unfold is_byte in *. lia.
Qed.

Lemma getle32_Done (buf : list Z) (i : Z) :
  byte_buf buf -> 0 <= i -> i + 4 <= Z.of_nat (length buf) ->
  Util.getle32 buf i = Done (Pak.le32_at buf i).
Proof.
  intros Hb Hi Hlen. unfold Util.getle32.
  rewrite !rd_Done by lia. cbn. f_equal. unfold Pak.le32_at.
  pose proof (cell_byte buf (Z.to_nat i) Hb) as H0.
  pose proof (cell_byte buf (Z.to_nat (i + 1)) Hb) as H1.
  pose proof (cell_byte buf (Z.to_nat (i + 2)) Hb) as H2.
  pose proof (cell_byte buf (Z.to_nat (i + 3)) Hb) as H3.
  unfold is_byte in *.
  rewrite (lor_shiftl_add _ _ 8) by lia.
  rewrite (lor_shiftl_add _ _ 16) by lia.
  rewrite (lor_shiftl_add _ _ 24) by lia.
  lia.
Qed.

Lemma getle64_Done (buf : list Z) (i : Z) :
  byte_buf buf -> 0 <= i -> i + 8 <= Z.of_nat (length buf) ->
  Util.getle64 buf i = Done (Pak.le64_at buf i).
Proof.
  intros Hb Hi Hlen. unfold Util.getle64.
  rewrite !getle32_Done by (done || lia). cbn. f_equal. unfold Pak.le64_at.
  pose proof (le32_at_range buf i Hb).
  rewrite (lor_shiftl_add _ _ 32) by lia. lia.
Qed.

Lemma le64_high_word (buf : list Z) (i : Z) :
  byte_buf buf -> wrap32 (Z.shiftr (Pak.le64_at buf i) 32) = Pak.le32_at buf (i + 4).
Proof.
  intros Hb. unfold Pak.le64_at, wrap32.
  pose proof (le32_at_range buf i Hb). pose proof (le32_at_range buf (i + 4) Hb).
  rewrite Z.shiftr_div_pow2 by lia.
  rewrite (Z.mul_comm (2 ^ 32)), Z.div_add by lia.
  rewrite (Z.div_small (Pak.le32_at buf i)) by lia.
  rewrite Z.mod_small; lia.
Qed.

(** ** PAK layout autodetect *)

Module DetectFacts.
Import Pak.

Lemma abs_delta_abs (v l : Z) :
  0 <= v < 2 ^ 32 -> 0 <= l < 2 ^ 32 -> abs_delta v l = Z.abs (v - l).
Proof.
  intros Hv Hl. unfold abs_delta, wrap32.
  destruct (Z.gtb_spec v l); rewrite Z.mod_small; lia.
Qed.

Lemma sum_abs_deltas_cons (a b : Z) (l : list Z) :
  sum_abs_deltas (a :: b :: l) = Z.abs (b - a) + sum_abs_deltas (b :: l).
Proof. done. Qed.

Lemma sum_abs_deltas_bound (l : list Z) : forall a,
  0 <= a < 2 ^ 32 -> Forall (fun v => 0 <= v < 2 ^ 32) l ->
  0 <= sum_abs_deltas (a :: l) <= Z.of_nat (length l) * 2 ^ 32.
Proof.
  induction l as [|b l IH]; intros a Ha Hl.
  - cbn. lia.
  - inversion Hl as [|? ? Hb Hl']; subst. rewrite sum_abs_deltas_cons.
    specialize (IH b Hb Hl'). cbn [length]. lia.
Qed.

Section Loop.
Variable entries : list Z.
Hypothesis entries_bytes : byte_buf entries.

Lemma words_range (f : Z -> Z) (i n : Z) :
  (forall j, 0 <= f j < 2 ^ 32) -> Forall (fun v => 0 <= v < 2 ^ 32) (f <$> seqZ i n).
Proof. intros Hf. apply Forall_fmap, Forall_forall. intros j _. apply Hf. Qed.

Lemma detect_loop_spec (n : nat) : forall (i : Z) (st : detect_state),
  0 <= i -> i + Z.of_nat n <= 64 ->
  168 * (i + Z.of_nat n) <= Z.of_nat (length entries) ->
  0 <= last0 st < 2 ^ 32 -> 0 <= last1 st < 2 ^ 32 ->
  0 <= sum0 st <= i * 2 ^ 32 -> 0 <= sum1 st <= i * 2 ^ 32 ->
  exists st', detect_loop n i entries st = Done st' /\
    sum0 st' = sum0 st + sum_abs_deltas (last0 st :: (low_word entries <$> seqZ i (Z.of_nat n))) /\
    sum1 st' = sum1 st + sum_abs_deltas (last1 st :: (high_word entries <$> seqZ i (Z.of_nat n))).
Proof.
  induction n as [|n IH]; intros i st Hi Hn Hlen Hl0 Hl1 Hs0 Hs1.
  - exists st. split; [done|]. change (seqZ i (Z.of_nat 0)) with (@nil Z). cbn. lia.
  - cbn [detect_loop]. unfold sizeof_pak_entry32, sizeof_pak_entry64, offsetof_data_offset.
    rewrite getle32_Done by (done || lia). rewrite bind_Done.
    rewrite getle64_Done by (done || lia). rewrite bind_Done.
    rewrite le64_high_word by done.
    replace (168 * i + 152 + 4) with (168 * i + 156) by lia.
    fold (low_word entries i). fold (high_word entries i).
    assert (Hlo : 0 <= low_word entries i < 2 ^ 32) by (apply le32_at_range; done).
    assert (Hhi : 0 <= high_word entries i < 2 ^ 32) by (apply le32_at_range; done).
    rewrite !abs_delta_abs by done.
    assert (Hw0 : wrap64 (sum0 st + Z.abs (low_word entries i - last0 st))
                  = sum0 st + Z.abs (low_word entries i - last0 st)).
    { unfold wrap64. apply Z.mod_small. lia. }
    assert (Hw1 : wrap64 (sum1 st + Z.abs (high_word entries i - last1 st))
                  = sum1 st + Z.abs (high_word entries i - last1 st)).
    { unfold wrap64. apply Z.mod_small. lia. }
    rewrite Hw0, Hw1.
    edestruct (IH (i + 1)) as (st' & Hrun & H0 & H1); [..|exists st'; split; [exact Hrun|]];
      cbn [sum0 sum1 last0 last1]; try lia.
    rewrite H0, H1. cbn [sum0 sum1 last0 last1].
    rewrite (seqZ_cons i (Z.of_nat (S n))) by lia.
    replace (Z.pred (Z.of_nat (S n))) with (Z.of_nat n) by lia.
    replace (Z.succ i) with (i + 1) by lia.
    rewrite !fmap_cons, !sum_abs_deltas_cons. lia.
Qed.
End Loop.

(** C3 (as amended).  On a [calloc]ed entry buffer of [nb_entries] cells of
    168 bytes the detection loop runs to completion and selects the 32-bit
    layout exactly when [s32 < s64], where, over the first
    [min (nb_entries, 64)] entries and starting from 0, [s32] sums the
    absolute deltas of the 32-bit words at offset 152 of the 160-byte cells
    and [s64] those of the upper halves of the 64-bit [data_offset] (the
    32-bit words at offset 156 of the 168-byte cells).  On scenario S1 the
    32-bit layout is selected exactly when [s64] exceeds 0x200. *)
Theorem is_pak32_spec (nb_entries : Z) (entries : list Z) :
  0 <= nb_entries -> byte_buf entries ->
  168 * nb_entries <= Z.of_nat (length entries) ->
  let n := Z.min nb_entries 64 in
  is_pak32 nb_entries entries =
    Done (sum_abs_deltas (0 :: data_offsets32 n entries)
          <? sum_abs_deltas (0 :: high_words64 n entries)) /\
  (nb_entries = 2 -> data_offsets32 2 entries = [0; 0x200] ->
   is_pak32 nb_entries entries =
     Done (0x200 <? sum_abs_deltas (0 :: high_words64 2 entries))).
Proof.
  intros Hnb Hb Hlen n.
  assert (Hmain : is_pak32 nb_entries entries =
    Done (sum_abs_deltas (0 :: data_offsets32 n entries)
          <? sum_abs_deltas (0 :: high_words64 n entries))).
  { unfold is_pak32.
    assert (Hmin : Util.min nb_entries 64 = n).
    { unfold Util.min, n. destruct (Z.ltb_spec nb_entries 64); lia. }
    rewrite Hmin.
    destruct (detect_loop_spec entries Hb (Z.to_nat n) 0 (mk_detect 0 0 0 0))
      as (st & Hrun & H0 & H1); cbn [sum0 sum1 last0 last1]; try lia.
    rewrite Hrun. cbn. rewrite H0, H1. rewrite Z2Nat.id by lia. done. }
  split; [done|].
  intros -> Hoff. rewrite Hmain. subst n. change (Z.min 2 64) with 2.
  rewrite Hoff. done.
Qed.

Lemma is_pak32_spec_witness :
  is_pak32 2 s1_entries =
    Done (sum_abs_deltas (0 :: data_offsets32 2 s1_entries)
          <? sum_abs_deltas (0 :: high_words64 2 s1_entries)).
Proof.
  refine (proj1 (is_pak32_spec 2 s1_entries _ _ _)).
  - lia.
  - apply (bool_decide_unpack _). vm_compute. exact I.
  - vm_compute. discriminate.
Defined.

(** C3 (as stated) fails.  For two 168-byte entries with the 64-bit offsets
    0 and 0x200 the 32-bit sum of the stated rule is the smaller one, yet the
    loop selects the 64-bit layout; and on scenario S1 with the open bytes
    zero the loop selects the 64-bit layout as well. *)
Lemma is_pak32_not_stated_rule :
  spec_is_pak32 2 wide_entries = true /\
  is_pak32 2 wide_entries = Done false /\
  is_pak32 2 s1_entries = Done false.
Proof. vm_compute. done. Qed.

End DetectFacts.

(** ** descrambler2 *)

Module D2Facts.
Import Gust.

Lemma getbe32_Done (buf : list Z) (i : Z) :
  0 <= i -> i + 4 <= Z.of_nat (length buf) ->
  Util.getbe32 buf i = Done (be32_at buf i).
Proof.
  intros Hi Hlen. unfold Util.getbe32. rewrite !rd_Done by lia. done.
Qed.

(** The scan stops at the highest index that holds 0xFF, or at 0. *)
Lemma find_marker_spec (buf : list Z) (n : nat) :
  (n < length buf)%nat ->
  exists e, find_marker buf n = Done e /\ 0 <= e <= Z.of_nat n /\
    (forall j, e < j <= Z.of_nat n -> buf !! Z.to_nat j <> Some 0xFF) /\
    (0 < e -> buf !! Z.to_nat e = Some 0xFF).
Proof.
  induction n as [|n IH]; intros Hn.
  - exists 0. cbn. repeat split; try lia.
  - cbn [find_marker]. rewrite rd_Done by lia. rewrite bind_Done.
    destruct (Z.eqb_spec (cell buf (Z.to_nat (Z.of_nat (S n)))) 0xff) as [Heq|Hne].
    + exists (Z.of_nat (S n)). repeat split; try lia.
      intros _. rewrite <- Heq. apply lookup_cell. lia.
    + destruct IH as (e & Hrun & He & Habove & Hat); [lia|].
      exists e. repeat split; try lia; try done.
      intros j Hj. destruct (decide (j = Z.of_nat (S n))) as [->|Hj'].
      * intros Hl. apply cell_lookup in Hl. done.
      * apply Habove. lia.
Qed.

Lemma xor_loop_total (seed0 : Z) (lengths : arr3) (n : nat) :
  forall (i : Z) (buf : list Z) (st : xor_state),
  0 <= i -> i + Z.of_nat n <= Z.of_nat (length buf) ->
  exists buf' st', xor_loop n i buf seed0 lengths st = Done (buf', st') /\
    length buf' = length buf /\
    (forall j : nat, i + Z.of_nat n <= Z.of_nat j -> buf' !! j = buf !! j).
Proof.
  induction n as [|n IH]; intros i buf st Hi Hn.
  - exists buf, st. done.
  - cbn [xor_loop]. rewrite (rd_Done buf) by lia. rewrite bind_Done.
    rewrite wr_Done by lia. rewrite bind_Done.
    set (buf1 := <[Z.to_nat i := _]> buf).
    assert (Hlen1 : length buf1 = length buf) by apply length_insert.
    assert (Hframe : forall j : nat, i + Z.of_nat (S n) <= Z.of_nat j -> buf1 !! j = buf !! j).
    { intros j Hj. apply list_lookup_insert_ne. lia. }
    destruct (_ >=? _).
    + destruct (_ >=? 3);
        (edestruct (IH (i + 1) buf1) as (buf' & st' & Hrun & Hlen & Hfr);
         [lia | lia | rewrite Hrun; exists buf', st'; split; [done|split; [lia|]];
          intros j Hj; rewrite Hfr by lia; apply Hframe; lia]).
    + edestruct (IH (i + 1) buf1) as (buf' & st' & Hrun & Hlen & Hfr);
        [lia | lia | rewrite Hrun; exists buf', st'; split; [done|split; [lia|]];
          intros j Hj; rewrite Hfr by lia; apply Hframe; lia].
Qed.

Lemma checksum_loop_spec (buf : list Z) (n : nat) : forall (i : Z) (c : Z * Z),
  0 <= i -> 4 * (i + Z.of_nat n) <= Z.of_nat (length buf) ->
  checksum_loop n (4 * i) buf c =
    Done (foldl checksum_step c ((fun j => be32_at buf (4 * j)) <$> seqZ i (Z.of_nat n))).
Proof.
  induction n as [|n IH]; intros i c Hi Hn.
  - done.
  - cbn [checksum_loop]. rewrite getbe32_Done by lia. rewrite bind_Done.
    replace (4 * i + 4) with (4 * (i + 1)) by lia.
    rewrite IH by lia.
    rewrite (seqZ_cons i (Z.of_nat (S n))) by lia.
    replace (Z.pred (Z.of_nat (S n))) with (Z.of_nat n) by lia.
    replace (Z.succ i) with (i + 1) by lia. done.
Qed.

Lemma land_not3 (e : Z) :
  0 <= e < 2 ^ 32 -> Z.land e (wrap32 (Z.lnot 3)) = Z.land e (Z.lnot 3).
Proof.
  intros He. apply Z.bits_inj'. intros k Hk. rewrite !Z.land_spec.
  unfold wrap32. destruct (Z.lt_ge_cases k 32).
  - rewrite Z.mod_pow2_bits_low by lia. done.
  - rewrite <- (Z.mod_small e (2 ^ 32)) by lia.
    rewrite Z.mod_pow2_bits_high by lia. done.
Qed.

Lemma land_not3_range (e : Z) :
  0 <= e -> 0 <= Z.land e (Z.lnot 3) <= e /\ Z.land e (Z.lnot 3) = 4 * (e / 4).
Proof.
  intros He.
  assert (H : Z.land e (Z.lnot 3) = 4 * (e / 4)).
  { change (Z.lnot 3) with (Z.lnot (Z.ones 2)). rewrite <- Z.ldiff_land.
    rewrite Z.ldiff_ones_r by lia. rewrite Z.shiftl_mul_pow2, Z.shiftr_div_pow2 by lia.
    change (2 ^ 2) with 4. lia. }
  rewrite H. split; [|done]. pose proof (Z.mul_div_le e 4 ltac:(lia)).
  pose proof (Z.div_pos e 4 He ltac:(lia)). lia.
Qed.

(** [descrambler2] on a well-sized buffer, phase by phase. *)
Lemma descrambler2_run (buf : list Z) (seeds : seed_data) :
  let size := Z.of_nat (length buf) in
  size mod 4 = 0 -> 16 <= size < 2 ^ 32 ->
  exists e, find_marker buf (Z.to_nat (size - 13)) = Done e /\ 0 <= e <= size - 13 /\
    (forall j, e < j <= size - 13 -> buf !! Z.to_nat j <> Some 0xFF) /\
    (0 < e -> buf !! Z.to_nat e = Some 0xFF) /\
    ((e < 4 \/ buf !! Z.to_nat e <> Some 0xFF) /\
     descrambler2 buf size seeds = Done (mk_d2 (Some MarkerNotFound) buf seeds)
     \/
     4 <= e /\ buf !! Z.to_nat e = Some 0xFF /\
     let seed0 := wrap32 (be32_at buf (size - 4) + SEED_CONSTANT) in
     exists buf1 st,
       xor_loop (Z.to_nat e) 0 buf seed0 (seeds_length seeds) (xor_init seeds)
         = Done (buf1, st) /\
       let buf2 := <[Z.to_nat e := 0]> buf1 in
       let seeds' := mk_seeds (seeds_main seeds) (table st) (seeds_length seeds)
                       (seeds_fence seeds) in
       let n := Z.land e (Z.lnot 3) in
       descrambler2 buf size seeds =
         if bool_decide (checksum_spec (be_words buf2 n)
                         = (be32_at buf (size - 8), be32_at buf (size - 12)))
         then '(_, buf3, _) ← descramble_chunk [] buf2 (Util.min n 0x800)
                                (seed0, get3 (seeds_main seeds) 2) 0x80;
              Done (mk_d2 None buf3 seeds')
         else Done (mk_d2 (Some ChecksumMismatch) buf2 seeds')).
Proof.
  intros size Hmod Hsize.
  destruct (find_marker_spec buf (Z.to_nat (size - 13)) ltac:(lia))
    as (e & Hfind & He & Habove & Hat).
  rewrite Z2Nat.id in He, Habove by lia.
  exists e. split; [done|]. split; [done|]. split; [done|]. split; [done|].
  unfold descrambler2. cbv zeta.
  rewrite Hmod. change (0 =? 0) with true. cbn [negb orb].
  destruct (Z.ltb_spec size 16); [lia|].
  rewrite !getbe32_Done by lia. rewrite !bind_Done.
  replace (size - 4 - 4 - 4 - 1) with (size - 13) by lia.
  rewrite Hfind, bind_Done.
  destruct (Z.ltb_spec e 4) as [Hlt|Hge].
  { left. rewrite bind_Done. cbn [orb]. split; [lia|done]. }
  rewrite (rd_Done buf) by lia. rewrite bind_Done. cbn [orb].
  assert (Hlook : buf !! Z.to_nat e = Some (cell buf (Z.to_nat e)))
    by (apply lookup_cell; lia).
  destruct (Z.eqb_spec (cell buf (Z.to_nat e)) 0xff) as [Heq|Hne]; cbn [negb].
  2:{ left. split; [|done]. right. rewrite Hlook. congruence. }
  right. split; [lia|]. split; [congruence|].
  set (seed0 := wrap32 (be32_at buf (size - 4) + SEED_CONSTANT)).
  destruct (xor_loop_total seed0 (seeds_length seeds) (Z.to_nat e) 0 buf (xor_init seeds))
    as (buf1 & st & Hxor & Hlen1 & _); [lia|lia|].
  exists buf1, st. split; [done|].
  set (buf2 := <[Z.to_nat e := 0]> buf1).
  set (seeds' := mk_seeds _ _ _ _).
  set (n := Z.land e (Z.lnot 3)).
  fold (xor_init seeds). replace (size - 4 - 4) with (size - 8) by lia.
  replace (size - 8 - 4) with (size - 12) by lia.
  rewrite Hxor, bind_Done.
  rewrite wr_Done by lia. rewrite bind_Done.
  change (wrap8 0) with 0. fold buf2.
  rewrite land_not3 by lia. fold n.
  destruct (land_not3_range e ltac:(lia)) as [Hn Hn4]. fold n in Hn, Hn4.
  assert (Hlen2 : length buf2 = length buf) by (unfold buf2; rewrite length_insert; done).
  change 0 with (4 * 0) at 1.
  assert (Hdiv : 0 <= n / 4) by (apply Z.div_pos; lia).
  rewrite checksum_loop_spec; [|lia|].
  2:{ pose proof (Z.mul_div_le n 4 ltac:(lia)). clearbody n buf2. lia. }
  rewrite Z2Nat.id by lia.
  change (foldl checksum_step (0, 0) _) with (checksum_spec (be_words buf2 n)).
  rewrite bind_Done.
  destruct (checksum_spec (be_words buf2 n)) as [c0 c1].
  destruct (Z.eqb_spec c0 (be32_at buf (size - 8))) as [H0|H0];
    destruct (Z.eqb_spec c1 (be32_at buf (size - 12))) as [H1|H1]; cbn [negb orb].
  - rewrite bool_decide_eq_true_2 by congruence. done.
  - rewrite bool_decide_eq_false_2 by congruence. done.
  - rewrite bool_decide_eq_false_2 by congruence. done.
  - rewrite bool_decide_eq_false_2 by congruence. done.
Qed.

(** The last step cannot turn the outcome into an error. *)
Lemma final_swap_error (buf : list Z) (n : Z) (seed : Z * Z) (seeds : seed_data)
    (r : d2_result) :
  ('(_, buf3, _) ← descramble_chunk [] buf n seed 0x80; Done (mk_d2 None buf3 seeds)) = Done r ->
  d2_error_of r = None /\ d2_seeds r = seeds.
Proof.
  destruct (descramble_chunk [] buf n seed 128) as [[[ok buf3] seed']|]; [|discriminate].
  rewrite bind_Done. intros [= <-]. done.
Qed.

(** C8 (as amended).  On a buffer of valid size the backward scan from index
    [size - 13] stops at the highest index that holds 0xFF (or at 0), and
    [descrambler2] fails with MarkerNotFound exactly when no index from 4 to
    [size - 13] holds 0xFF; the buffer and the seeds are then returned as
    they were. *)
Theorem marker_not_found_iff (buf : list Z) (seeds : seed_data) :
  let size := Z.of_nat (length buf) in
  size mod 4 = 0 -> 16 <= size < 2 ^ 32 ->
  (exists e, find_marker buf (Z.to_nat (size - 13)) = Done e /\ 0 <= e <= size - 13 /\
     (forall j, e < j <= size - 13 -> buf !! Z.to_nat j <> Some 0xFF) /\
     (0 < e -> buf !! Z.to_nat e = Some 0xFF)) /\
  ((exists r, descrambler2 buf size seeds = Done r /\ d2_error_of r = Some MarkerNotFound)
   <-> (forall j, 4 <= j <= size - 13 -> buf !! Z.to_nat j <> Some 0xFF)) /\
  ((forall j, 4 <= j <= size - 13 -> buf !! Z.to_nat j <> Some 0xFF) ->
   descrambler2 buf size seeds = Done (mk_d2 (Some MarkerNotFound) buf seeds)).
Proof.
  intros size. subst size. intros Hmod Hsize.
  destruct (descrambler2_run buf seeds Hmod Hsize)
    as (e & Hfind & He & Habove & Hat & Hcases).
  split; [by exists e|].
  assert (Hback : (forall j, 4 <= j <= Z.of_nat (length buf) - 13 ->
                             buf !! Z.to_nat j <> Some 0xFF) ->
            descrambler2 buf (Z.of_nat (length buf)) seeds
            = Done (mk_d2 (Some MarkerNotFound) buf seeds)).
  { intros Hnone. destruct Hcases as [[_ Hrun]|(Hge & Hff & _)]; [done|].
    exfalso. apply (Hnone e); [lia|done]. }
  split; [|done]. split; [|intros Hnone; rewrite (Hback Hnone); eauto].
  intros (r & Hrun & Herr) j Hj.
  destruct Hcases as [[Hno _]|(Hge & Hff & buf1 & st & _ & Hrun')].
  - destruct (Z.lt_ge_cases e j) as [Hlt|Hle]; [apply Habove; lia|].
    destruct Hno as [Hno|Hno]; [lia|]. exfalso. apply Hno, Hat. lia.
  - exfalso. rewrite Hrun' in Hrun. case_bool_decide.
    + apply final_swap_error in Hrun as [Hnone _]. congruence.
    + injection Hrun as <-. discriminate.
Qed.

Lemma marker_not_found_iff_witness :
  descrambler2 s4_short 16 demo_seeds = Done (mk_d2 (Some MarkerNotFound) s4_short demo_seeds).
Proof.
  refine (proj2 (proj2 (marker_not_found_iff s4_short demo_seeds _ _)) _).
  - reflexivity.
  - vm_compute. split; [discriminate|reflexivity].
  - intros j Hj. change (Z.of_nat (length s4_short) - 13) with 3 in Hj. lia.
Defined.

(** C8 (as stated) fails for scenario S4: the last 13 bytes of [s4_buf] hold
    no 0xFF, yet the scan finds the 0xFF at index 10 and [descrambler2] goes
    on to the checksum, where it fails with ChecksumMismatch. *)
Lemma s4_marker_found :
  Forall (fun b => b <> 0xFF) (drop (32 - 13) s4_buf) /\
  exists r, descrambler2 s4_buf 32 demo_seeds = Done r /\
            d2_error_of r = Some ChecksumMismatch.
Proof.
  split.
  - apply (bool_decide_unpack _). vm_compute. exact I.
  - eexists. split; [vm_compute; reflexivity|reflexivity].
Qed.

(** C7.  Once the marker is found at [e >= 4], the XOR pass runs over
    [buf[0..e)], [buf[e]] is set to 0, and with [n = e & ~3] the pair
    [(c0, c1)] is the running XOR of [~w] and the running wrapping difference
    of [w] over the big-endian words of [buf[0..n)]; [descrambler2] fails
    with ChecksumMismatch if and only if that pair differs from the pair
    stored at [size - 8] and [size - 12]. *)
Theorem checksum_mismatch_iff (buf : list Z) (seeds : seed_data) (e : Z) :
  let size := Z.of_nat (length buf) in
  size mod 4 = 0 -> 16 <= size < 2 ^ 32 ->
  find_marker buf (Z.to_nat (size - 13)) = Done e ->
  4 <= e -> buf !! Z.to_nat e = Some 0xFF ->
  exists buf1 st,
    xor_loop (Z.to_nat e) 0 buf (wrap32 (be32_at buf (size - 4) + SEED_CONSTANT))
      (seeds_length seeds) (xor_init seeds) = Done (buf1, st) /\
    let buf2 := <[Z.to_nat e := 0]> buf1 in
    let n := Z.land e (Z.lnot 3) in
    let computed := checksum_spec (be_words buf2 n) in
    let stored := (be32_at buf (size - 8), be32_at buf (size - 12)) in
    ((exists r, descrambler2 buf size seeds = Done r /\
                d2_error_of r = Some ChecksumMismatch)
     <-> computed <> stored) /\
    (computed <> stored ->
     descrambler2 buf size seeds =
       Done (mk_d2 (Some ChecksumMismatch) buf2
               (mk_seeds (seeds_main seeds) (table st) (seeds_length seeds)
                  (seeds_fence seeds)))).
Proof.
  intros size. subst size. intros Hmod Hsize Hfind Hge Hff.
  destruct (descrambler2_run buf seeds Hmod Hsize)
    as (e' & Hfind' & He & Habove & Hat & Hcases).
  rewrite Hfind in Hfind'. injection Hfind' as <-.
  destruct Hcases as [[[Hlt|Hno] _]|(_ & _ & buf1 & st & Hxor & Hrun)]; [lia|done|].
  exists buf1, st. split; [exact Hxor|]. intros buf2 n computed stored.
  cbv zeta in Hrun. fold buf2 n computed stored in Hrun.
  assert (Hfwd : computed <> stored ->
     descrambler2 buf (Z.of_nat (length buf)) seeds =
     Done (mk_d2 (Some ChecksumMismatch) buf2
             (mk_seeds (seeds_main seeds) (table st) (seeds_length seeds)
                (seeds_fence seeds)))).
  { intros Hne. rewrite Hrun. by rewrite bool_decide_eq_false_2. }
  split; [|done]. split.
  - intros (r & Hr & Herr) Heq. rewrite Hrun in Hr.
    rewrite bool_decide_eq_true_2 in Hr by done.
    apply final_swap_error in Hr as [Hnone _]. congruence.
  - intros Hne. rewrite (Hfwd Hne). eauto.
Qed.

Lemma checksum_mismatch_iff_witness :
  exists buf1 st,
    xor_loop 10 0 s4_buf (wrap32 (be32_at s4_buf 28 + SEED_CONSTANT))
      (seeds_length demo_seeds) (xor_init demo_seeds) = Done (buf1, st) /\
    ((exists r, descrambler2 s4_buf 32 demo_seeds = Done r /\
                d2_error_of r = Some ChecksumMismatch)
     <-> checksum_spec (be_words (<[10%nat := 0]> buf1) (Z.land 10 (Z.lnot 3)))
         <> (be32_at s4_buf 24, be32_at s4_buf 20)).
Proof.
  destruct (checksum_mismatch_iff s4_buf demo_seeds 10) as (buf1 & st & Hxor & Hiff & _).
  - reflexivity.
  - vm_compute. split; [discriminate|reflexivity].
  - reflexivity.
  - lia.
  - reflexivity.
  - exists buf1, st. split; [exact Hxor|exact Hiff].
Defined.




End D2Facts.

(** ** Glaze *)

Module GlazeFacts.
Import Gust.

(** *** The loop bounds of the embedding are never reached *)

Lemma getbits_loop_fuel (n : nat) : forall ctx x, avoids OutOfFuel (getbits_loop n ctx x).
Proof.
  induction n as [|n IH]; intros ctx x; cbn [getbits_loop]; [done|].
  case_match; [done|]. apply avoids_bind; [|intros ctx'; apply IH].
  case_match; avoids_accesses.
Qed.

Lemma code_length_fuel (fuel : nat) : forall code_len c ctx,
  7 - code_len <= Z.of_nat fuel -> avoids OutOfFuel (code_length fuel code_len c ctx).
Proof.
  induction fuel as [|fuel IH]; intros code_len c ctx Hfuel; cbn [code_length];
    (destruct (Z.ltb_spec (code_len + 1) 8); [|done]);
    (apply avoids_bind; [apply getbits_loop_fuel|]); intros [c' ctx'];
    (case_match; [|done]).
  - lia.
  - apply IH. lia.
Qed.

Lemma code_table_loop_fuel (n : nat) : forall c ctx acc,
  avoids OutOfFuel (code_table_loop n c ctx acc).
Proof.
  induction n as [|n IH]; intros c ctx acc; cbn [code_table_loop]; [done|].
  case_match; [done|]. case_match.
  - apply avoids_bind; [apply getbits_loop_fuel|]. intros [c' ctx']. apply IH.
  - apply avoids_bind; [apply code_length_fuel; lia|]. intros [[code_len c1] ctx1].
    case_match; [done|]. case_match.
    + apply avoids_bind; [apply getbits_loop_fuel|]. intros [v ctx2].
      apply avoids_bind; [apply getbits_loop_fuel|]. intros [c' ctx']. apply IH.
    + apply avoids_bind; [apply getbits_loop_fuel|]. intros [c' ctx']. apply IH.
Qed.

Lemma getbe32_fuel (buf : list Z) (i : Z) : avoids OutOfFuel (Util.getbe32 buf i).
Proof. unfold Util.getbe32. avoids_accesses. Qed.

Lemma build_code_table_fuel (bitstream : list Z) (bitstream_length : Z) :
  avoids OutOfFuel (build_code_table bitstream bitstream_length).
Proof.
  unfold build_code_table. apply avoids_bind; [apply getbe32_fuel|]. intros n.
  apply avoids_bind; [apply getbits_loop_fuel|]. intros [c ctx].
  apply avoids_bind; [apply code_table_loop_fuel|]. done.
Qed.

Section Machine.
Variables (src code_table : list Z) (code_len dst_cap : Z).

Lemma rd_code_inv (i b : Z) :
  rd_code code_table code_len i = Done b -> 0 <= i < code_len.
Proof. unfold rd_code. destruct (Z.ltb_spec i 0), (Z.leb_spec code_len i); cbn; try done; lia. Qed.

Lemma rd_code_fuel (i : Z) : avoids OutOfFuel (rd_code code_table code_len i).
Proof. unfold rd_code. repeat case_match; done. Qed.

Lemma emit_fuel (out : list Z) (b : Z) : avoids OutOfFuel (emit dst_cap out b).
Proof. unfold emit. case_match; done. Qed.

Lemma emit_back_fuel (out : list Z) (d : Z) : avoids OutOfFuel (emit_back dst_cap out d).
Proof. unfold emit_back. repeat case_match; done. Qed.

Lemma copy_back_fuel (n : nat) : forall out d, avoids OutOfFuel (copy_back dst_cap n out d).
Proof.
  induction n as [|n IH]; intros out d; cbn [copy_back]; [done|].
  apply avoids_bind; [apply emit_back_fuel|]. intros out'. apply IH.
Qed.

Lemma copy_dict_fuel (n : nat) : forall out dict,
  avoids OutOfFuel (copy_dict src dst_cap n out dict).
Proof.
  induction n as [|n IH]; intros out dict; cbn [copy_dict]; [done|].
  apply avoids_bind; [by apply avoids_rd|]. intros b.
  apply avoids_bind; [apply emit_fuel|]. intros out'. apply IH.
Qed.

Ltac step_fuel :=
  repeat first
    [ apply avoids_Done | apply rd_code_fuel | by apply avoids_rd
    | apply emit_back_fuel | apply copy_back_fuel | apply copy_dict_fuel
    | apply avoids_bind; [|intros ?]
    | match goal with |- avoids _ (let '(_, _) := ?p in _) => destruct p end ].

Lemma glaze_step_fuel (st : glaze_state) :
  avoids OutOfFuel (glaze_step src code_table code_len dst_cap st).
Proof. unfold glaze_step. step_fuel. repeat case_match; step_fuel. Qed.

(** A step that completes has read its opcode inside the table and
    leaves [code] further on, still inside or at the end of it. *)
Lemma glaze_step_advances (st st' : glaze_state) :
  glaze_step src code_table code_len dst_cap st = Done st' ->
  code st < code st' <= code_len.
Proof.
  unfold glaze_step. intros H.
  apply bind_Done_inv in H as (op & Hop%rd_code_inv & H).
  repeat case_match;
    repeat match goal with
      | H : (rd_code _ _ _ ≫= _) = Done _ |- _ =>
          apply bind_Done_inv in H as (? & ?%rd_code_inv & H)
      | H : (_ ≫= _) = Done _ |- _ => apply bind_Done_inv in H as (? & _ & H)
      | H : (let '(_, _) := ?p in _) = Done _ |- _ => destruct p
      | H : Done _ = Done _ |- _ => injection H as <-
      end; cbn [code]; lia.
Qed.

Lemma glaze_loop_fuel (dec_length max_dict max_len : Z) (fuel : nat) :
  forall st, code st <= code_len -> code_len - code st < Z.of_nat fuel ->
  avoids OutOfFuel
    (glaze_loop src code_table code_len dst_cap fuel dec_length max_dict max_len st).
Proof.
  induction fuel as [|fuel IH]; intros st Hcode Hfuel; cbn [glaze_loop];
    (case_match; [|done]); [lia|].
  case_match; [done|].
  destruct (glaze_step src code_table code_len dst_cap st) as [st'|e] eqn:Hstep.
  - rewrite bind_Done. apply glaze_step_advances in Hstep. apply IH; lia.
  - rewrite bind_Crash. pose proof (glaze_step_fuel st) as Hf. rewrite Hstep in Hf.
    unfold avoids in *. congruence.
Qed.
End Machine.

(** The bound [S code_len] on the iterations of the opcode loop is never
    reached: every iteration that completes consumes an opcode. *)
Lemma unglaze_fuel (src : list Z) (src_length dst_length dst_cap : Z) :
  byte_buf src -> avoids OutOfFuel (unglaze src src_length dst_length dst_cap).
Proof.
  intros Hb. unfold unglaze. cbv zeta.
  apply avoids_bind; [apply getbe32_fuel|]. intros dec_length. case_match; [done|].
  apply avoids_bind; [apply getbe32_fuel|]. intros bitstream_length. case_match; [done|].
  case_match; [done|].
  destruct (build_code_table (drop 8 src) bitstream_length) as [[code_len tbl]|e] eqn:Hb'.
  2:{ rewrite bind_Crash. pose proof (build_code_table_fuel (drop 8 src) bitstream_length) as Hf.
      rewrite Hb' in Hf. unfold avoids in *. congruence. }
  rewrite bind_Done.
  assert (Hlen : 0 <= code_len).
  { unfold build_code_table in Hb'.
    apply bind_Done_inv in Hb' as (n & Hn & Hb').
    apply bind_Done_inv in Hb' as ([c ctx] & _ & Hb').
    apply bind_Done_inv in Hb' as (t & _ & Hb'). injection Hb' as <- _.
    unfold Util.getbe32 in Hn.
    repeat (apply bind_Done_inv in Hn as (? & ?%rd_inv & Hn)). injection Hn as <-.
    assert (Hbyte : forall (j : nat) (v : Z), drop 8 src !! j = Some v -> 0 <= v).
    { intros j v Hv. rewrite lookup_drop in Hv.
      pose proof (Forall_lookup_1 _ _ _ _ Hb Hv) as Hv'. unfold is_byte in Hv'. lia. }
    repeat match goal with H : _ /\ _ |- _ => destruct H as [_ H]; apply Hbyte in H end.
    repeat (apply Z.lor_nonneg; split); try apply Z.shiftl_nonneg; done. }
  apply avoids_bind; [apply getbe32_fuel|]. intros dict_len. case_match; [done|].
  apply avoids_bind; [apply getbe32_fuel|]. intros len_len. case_match; [done|].
  apply glaze_loop_fuel; cbn [code]; lia.
Qed.

(** *** More room behind [dst] does not change a completed run *)

Section Capacity.
Variables (src code_table : list Z) (code_len cap cap' : Z).
Hypothesis cap_le : cap <= cap'.

Lemma emit_mono (out out' : list Z) (b : Z) :
  emit cap out b = Done out' -> emit cap' out b = Done out'.
Proof.
  unfold emit. destruct (Z.ltb_spec (Z.of_nat (length out)) cap); [|done].
  destruct (Z.ltb_spec (Z.of_nat (length out)) cap'); [done|lia].
Qed.

Lemma emit_back_mono (out out' : list Z) (d : Z) :
  emit_back cap out d = Done out' -> emit_back cap' out d = Done out'.
Proof.
  unfold emit_back.
  destruct (Z.ltb_spec (Z.of_nat (length out) - d) 0); [done|].
  destruct (Z.leb_spec cap (Z.of_nat (length out) - d)); [done|]. cbn [orb].
  destruct (Z.ltb_spec (Z.of_nat (length out)) cap); [|done].
  destruct (Z.leb_spec cap' (Z.of_nat (length out) - d)); [lia|]. cbn [orb].
  destruct (Z.ltb_spec (Z.of_nat (length out)) cap'); [done|lia].
Qed.

Lemma copy_back_mono (n : nat) : forall (out out' : list Z) (d : Z),
  copy_back cap n out d = Done out' -> copy_back cap' n out d = Done out'.
Proof.
  induction n as [|n IH]; intros out out' d; cbn [copy_back]; [done|].
  intros (o & Ho%emit_back_mono & H)%bind_Done_inv. rewrite Ho, bind_Done. by apply IH.
Qed.

Lemma copy_dict_mono (n : nat) : forall (out : list Z) (dict : Z) (r : list Z * Z),
  copy_dict src cap n out dict = Done r -> copy_dict src cap' n out dict = Done r.
Proof.
  induction n as [|n IH]; intros out dict r; cbn [copy_dict]; [done|].
  intros (b & Hb & H)%bind_Done_inv. rewrite Hb, bind_Done.
  apply bind_Done_inv in H as (o & Ho%emit_mono & H). rewrite Ho, bind_Done. by apply IH.
Qed.

Lemma glaze_step_mono (st st' : glaze_state) :
  glaze_step src code_table code_len cap st = Done st' ->
  glaze_step src code_table code_len cap' st = Done st'.
Proof.
  unfold glaze_step. intros (op & Hop & H)%bind_Done_inv. rewrite Hop, bind_Done.
  repeat case_match;
    repeat match goal with
      | H : (emit_back cap _ _ ≫= _) = Done _ |- _ =>
          let E := fresh "E" in
          apply bind_Done_inv in H as (? & E & H); apply emit_back_mono in E;
          rewrite E, bind_Done
      | H : (copy_back cap _ _ _ ≫= _) = Done _ |- _ =>
          let E := fresh "E" in
          apply bind_Done_inv in H as (? & E & H); apply copy_back_mono in E;
          rewrite E, bind_Done
      | H : (copy_dict src cap _ _ _ ≫= _) = Done _ |- _ =>
          let E := fresh "E" in
          apply bind_Done_inv in H as (? & E & H); apply copy_dict_mono in E;
          rewrite E, bind_Done
      | H : (_ ≫= _) = Done _ |- _ =>
          let E := fresh "E" in
          apply bind_Done_inv in H as (? & E & H); rewrite E, bind_Done
      | H : (let '(_, _) := ?p in _) = Done _ |- _ => destruct p
      end; done.
Qed.

Lemma glaze_loop_mono (dec_length max_dict max_len : Z) (fuel : nat) :
  forall (st : glaze_state) (r : glaze_result),
  glaze_loop src code_table code_len cap fuel dec_length max_dict max_len st = Done r ->
  glaze_loop src code_table code_len cap' fuel dec_length max_dict max_len st = Done r.
Proof.
  induction fuel as [|fuel IH]; intros st r; cbn [glaze_loop];
    (case_match; [|done]); [done|].
  case_match; [done|].
  intros (st' & Hst%glaze_step_mono & Hrun)%bind_Done_inv. rewrite Hst, bind_Done.
  by apply IH.
Qed.
End Capacity.

Lemma unglaze_mono (src : list Z) (src_length dst_length cap cap' : Z) (r : glaze_result) :
  cap <= cap' ->
  unglaze src src_length dst_length cap = Done r ->
  unglaze src src_length dst_length cap' = Done r.
Proof.
  intros Hcap. unfold unglaze. cbv zeta.
  intros (dec_length & E & Hrun)%bind_Done_inv. rewrite E, bind_Done.
  case_match; [done|].
  apply bind_Done_inv in Hrun as (bl & E1 & Hrun). rewrite E1, bind_Done.
  case_match; [done|]. case_match; [done|].
  apply bind_Done_inv in Hrun as ([code_len tbl] & E2 & Hrun). rewrite E2, bind_Done.
  apply bind_Done_inv in Hrun as (dl & E3 & Hrun). rewrite E3, bind_Done.
  case_match; [done|].
  apply bind_Done_inv in Hrun as (ll & E4 & Hrun). rewrite E4, bind_Done.
  case_match; [done|]. by apply (glaze_loop_mono _ _ _ cap cap').
Qed.

(** C6.  The code table built from [eof_bitstream]: the stream ends while
    the seven value bits of the only opcode are read, and the loop stores
    the byte 0xFF for it instead of stopping; when the stream ends inside
    the length prefix ([eof_prefix_bitstream]) the loop does stop without
    storing. *)
Theorem build_code_table_eof_in_value_bits :
  build_code_table eof_bitstream 5 = Done (1, [0xFF]) /\
  build_code_table eof_prefix_bitstream 5 = Done (2, [0x01]).
Proof. split; vm_compute; reflexivity. Qed.

(** C1.  Scenario S5: the opcode 06 writes ten bytes where eight are left.
    With the ten bytes that [main] allocates behind [dst] the writes leave
    the buffer; with room for twelve or more, [unglaze] returns [dec_length],
    its success value, after twelve bytes.  An error is reported in neither
    case. *)
Theorem unglaze_s5_overrun :
  build_code_table (drop 8 s5_src) 6 = Done (4, [0x01; 0x01; 0x06; 0x02]) /\
  unglaze s5_src 33 10 10 = Crash OutOfBounds /\
  forall dst_cap, 12 <= dst_cap ->
    unglaze s5_src 33 10 dst_cap =
      Done (mk_glaze 10 None [65; 66; 67; 67; 68; 69; 70; 71; 72; 73; 74; 0]).
Proof.
  split; [vm_compute; reflexivity|]. split; [vm_compute; reflexivity|].
  intros dst_cap Hcap. apply (unglaze_mono _ _ _ 12 dst_cap); [done|].
  vm_compute. reflexivity.
Qed.

Lemma unglaze_s5_overrun_witness :
  unglaze s5_src 33 10 12 =
    Done (mk_glaze 10 None [65; 66; 67; 67; 68; 69; 70; 71; 72; 73; 74; 0]).
Proof.
  refine (proj2 (proj2 unglaze_s5_overrun) 12 _). lia.
Defined.

(** C2 (as amended).  An opcode byte outside 0x01..0x07 is skipped: the
    step advances [code] by one and changes nothing else, and the loop goes
    on with the next opcode without reporting an error. *)
Theorem unknown_opcode_skipped (src code_table : list Z) (code_len dst_cap : Z)
    (fuel : nat) (dec_length max_dict max_len : Z) (st : glaze_state) (op : Z) :
  rd_code code_table code_len (code st) = Done op ->
  ~ (0x01 <= op <= 0x07) ->
  let st' := mk_state (code st + 1) (dict st) (len st) (dst st) in
  glaze_step src code_table code_len dst_cap st = Done st' /\
  (Z.of_nat (length (dst st)) < dec_length ->
   dict st <= max_dict -> len st <= max_len -> code st <= code_len ->
   glaze_loop src code_table code_len dst_cap (S fuel) dec_length max_dict max_len st
   = glaze_loop src code_table code_len dst_cap fuel dec_length max_dict max_len st').
Proof.
  intros Hop Hunknown st'.
  assert (Hstep : glaze_step src code_table code_len dst_cap st = Done st').
  { unfold glaze_step. rewrite Hop, bind_Done.
    destruct (Z.eqb_spec op 1) as [->|_]; [lia|].
    destruct (Z.eqb_spec op 2) as [->|_]; [lia|].
    destruct (Z.eqb_spec op 3) as [->|_]; [lia|].
    destruct (Z.eqb_spec op 4) as [->|_]; [lia|].
    destruct (Z.eqb_spec op 5) as [->|_]; [lia|].
    destruct (Z.eqb_spec op 6) as [->|_]; [lia|].
    destruct (Z.eqb_spec op 7) as [->|_]; [lia|].
    done. }
  split; [done|]. intros Hdst Hdict Hlen Hcode.
  cbn [glaze_loop].
  destruct (Z.ltb_spec (Z.of_nat (length (dst st))) dec_length); [|lia].
  destruct (Z.gtb_spec (dict st) max_dict); [lia|].
  destruct (Z.gtb_spec (len st) max_len); [lia|].
  destruct (Z.gtb_spec (code st) code_len); [lia|].
  cbn [orb]. rewrite Hstep, bind_Done. done.
Qed.

Lemma unknown_opcode_skipped_witness :
  glaze_step skip_src [0x00; 0x01] 2 1 skip_state = Done (mk_state 1 18 23 []).
Proof.
  refine (proj1 (unknown_opcode_skipped skip_src [0x00; 0x01] 2 1 0 1 19 23
                   skip_state 0 _ _)).
  - reflexivity.
  - lia.
Defined.

(** C2 (as stated) fails: the opcode table of [skip_src] is 00 01, and
    [unglaze] returns the declared length 1 with the output "A". *)
Lemma unknown_opcode_no_error :
  build_code_table (drop 8 skip_src) 6 = Done (2, [0x00; 0x01]) /\
  unglaze skip_src 23 1 1 = Done (mk_glaze 1 None [65]).
Proof. split; vm_compute; reflexivity. Qed.

End GlazeFacts.

(** ** Bits of a byte buffer *)

Lemma testbit_byte_high (x j : Z) : is_byte x -> 8 <= j -> Z.testbit x j = false.
Proof.
  unfold is_byte. intros Hx Hj. rewrite <- (Z.mod_small x (2 ^ 8)) by lia.
  apply Z.mod_pow2_bits_high. lia.
Qed.

Lemma testbit_wrap8 (z j : Z) :
  0 <= j -> Z.testbit (wrap8 z) j = (j <? 8) && Z.testbit z j.
Proof.
  intros Hj. unfold wrap8. destruct (Z.ltb_spec j 8).
  - by rewrite Z.mod_pow2_bits_low.
  - by rewrite Z.mod_pow2_bits_high by lia.
Qed.

Lemma byte_ext (x y : Z) :
  is_byte x -> is_byte y ->
  (forall j, 0 <= j < 8 -> Z.testbit x j = Z.testbit y j) -> x = y.
Proof.
  intros Hx Hy Hbits. apply Z.bits_inj'. intros j Hj.
  destruct (Z.lt_ge_cases j 8); [apply Hbits; lia|].
  by rewrite !testbit_byte_high.
Qed.

Lemma testbit_one_shiftl (b j : Z) :
  0 <= b -> 0 <= j -> Z.testbit (Z.shiftl 1 b) j = (b =? j).
Proof. intros Hb Hj. rewrite Z.shiftl_1_l. by apply Z.pow2_bits_eqb. Qed.

(** [(x & (1 << b)) >> b] is the bit [b] of [x]. *)
Lemma extract_bit (x b : Z) :
  0 <= b < 8 ->
  wrap8 (Z.shiftr (Z.land x (Z.shiftl 1 b)) b) = Z.b2z (Z.testbit x b).
Proof.
  intros Hb. apply Z.bits_inj'. intros j Hj.
  rewrite testbit_wrap8, Z.shiftr_spec, Z.land_spec, testbit_one_shiftl by lia.
  destruct (Z.eq_dec j 0) as [->|Hne].
  - rewrite Z.b2z_bit0, Z.add_0_l, Z.eqb_refl. cbn. by rewrite andb_true_r.
  - destruct (Z.eqb_spec b (j + b)); [lia|].
    rewrite andb_false_r, andb_false_r.
    destruct (Z.testbit x b); cbn; [|by rewrite Z.bits_0].
    symmetry. change 1 with (2 ^ 0). rewrite Z.pow2_bits_eqb by lia.
    destruct (Z.eqb_spec 0 j); [lia|done].
Qed.

(** [x &= ~(1 << b); x |= v << b] stores the bit [v] at position [b]. *)
Lemma store_bit (x b : Z) (v : bool) :
  is_byte x -> 0 <= b < 8 ->
  let x1 := wrap8 (Z.land x (Z.lnot (Z.shiftl 1 b))) in
  let x2 := wrap8 (Z.lor x1 (Z.shiftl (Z.b2z v) b)) in
  forall j, 0 <= j -> Z.testbit x2 j = if decide (j = b) then v else Z.testbit x j.
Proof.
  intros Hx Hb x1 x2 j Hj. unfold x2, x1.
  rewrite testbit_wrap8, Z.lor_spec, testbit_wrap8, Z.land_spec, Z.lnot_spec,
    testbit_one_shiftl by lia.
  assert (Hv : Z.testbit (Z.shiftl (Z.b2z v) b) j = v && (b =? j)).
  { destruct v; cbn [Z.b2z andb].
    - by rewrite testbit_one_shiftl by lia.
    - by rewrite Z.shiftl_0_l, Z.bits_0. }
  rewrite Hv. destruct (Z.ltb_spec j 8) as [Hlt|Hge].
  - case_decide as Hjb.
    + subst j. rewrite Z.eqb_refl. cbn. by rewrite andb_false_r, andb_true_r.
    + destruct (Z.eqb_spec b j); [lia|]. cbn.
      by rewrite !andb_true_r, !andb_false_r, orb_false_r.
  - case_decide; [lia|]. cbn. by rewrite testbit_byte_high.
Qed.

Module SwapFacts.
Import Gust.

Lemma bit_insert (buf : list Z) (p : nat) (v pos : Z) :
  (p < length buf)%nat -> 0 <= pos ->
  bit (<[p := v]> buf) pos =
    if decide (pos / 8 = Z.of_nat p) then Z.testbit v (pos mod 8) else bit buf pos.
Proof.
  intros Hp Hpos. unfold bit. case_decide as Hq.
  - rewrite Hq, Nat2Z.id. by rewrite cell_insert_eq.
  - rewrite cell_insert_ne; [done|]. intros ->. apply Hq.
    rewrite Z2Nat.id; [done|]. apply Z.div_pos; lia.
Qed.

Lemma bit_out_of_range (buf : list Z) (pos : Z) :
  8 * Z.of_nat (length buf) <= pos -> bit buf pos = false.
Proof.
  intros Hpos. unfold bit.
  assert (Z.of_nat (length buf) <= pos / 8) by (apply Z.div_le_lower_bound; lia).
  rewrite cell_ge by lia. apply Z.bits_0.
Qed.

(** Two byte buffers of one length with the same bits are equal. *)
Lemma buf_ext (a b : list Z) :
  length a = length b -> byte_buf a -> byte_buf b ->
  (forall pos, 0 <= pos < 8 * Z.of_nat (length a) -> bit a pos = bit b pos) -> a = b.
Proof.
  intros Hlen Ha Hb Hbits. apply list_eq_same_length with (length a); [done|done|].
  intros i x y Hi Hx Hy.
  apply byte_ext.
  - eapply Forall_lookup_1; [exact Ha|exact Hx].
  - eapply Forall_lookup_1; [exact Hb|exact Hy].
  - intros j Hj. specialize (Hbits (8 * Z.of_nat i + j) ltac:(lia)). unfold bit in Hbits.
    replace ((8 * Z.of_nat i + j) / 8) with (Z.of_nat i) in Hbits by zlia.
    replace ((8 * Z.of_nat i + j) mod 8) with j in Hbits by zlia.
    rewrite Nat2Z.id in Hbits.
    by rewrite (cell_lookup _ _ _ Hx), (cell_lookup _ _ _ Hy) in Hbits.
Qed.

(** The two stores of the swap loop to one byte. *)
Lemma store_bit_buf (buf : list Z) (s : Z) (v : bool) :
  byte_buf buf -> 0 <= s < 8 * Z.of_nat (length buf) ->
  let p := Z.to_nat (s / 8) in
  let b := s mod 8 in
  let buf1 := <[p := wrap8 (Z.land (cell buf p) (Z.lnot (Z.shiftl 1 b)))]> buf in
  let buf2 := <[p := wrap8 (Z.lor (cell buf1 p) (Z.shiftl (Z.b2z v) b))]> buf1 in
  byte_buf buf2 /\ length buf2 = length buf /\
  forall pos, 0 <= pos -> bit buf2 pos = if decide (pos = s) then v else bit buf pos.
Proof.
  intros Hb Hs p b buf1 buf2.
  assert (Hq : 0 <= s / 8 < Z.of_nat (length buf)).
  { split; [apply Z.div_pos; lia|apply Z.div_lt_upper_bound; lia]. }
  assert (Hr : 0 <= b < 8) by (apply Z.mod_pos_bound; lia).
  assert (Hp : (p < length buf)%nat) by (unfold p; lia).
  assert (H1 : cell buf1 p = wrap8 (Z.land (cell buf p) (Z.lnot (Z.shiftl 1 b)))).
  { unfold buf1. by rewrite cell_insert_eq. }
  assert (Hbuf2 : buf2 = <[p := wrap8 (Z.lor (cell buf1 p) (Z.shiftl (Z.b2z v) b))]> buf).
  { unfold buf2 at 1. unfold buf1 at 2. by rewrite list_insert_insert_eq. }
  split; [|split].
  - rewrite Hbuf2. apply byte_buf_insert; [done|apply wrap8_byte].
  - rewrite Hbuf2. apply length_insert.
  - intros pos Hpos. rewrite Hbuf2, bit_insert by done.
    rewrite H1.
    pose proof (store_bit (cell buf p) b v (cell_byte buf p Hb) Hr) as Hst.
    cbv zeta in Hst.
    assert (Hpm : 0 <= pos mod 8 < 8) by (apply Z.mod_pos_bound; lia).
    case_decide as Hdiv.
    + rewrite Hst by lia. unfold p in *. rewrite Z2Nat.id in Hdiv by lia.
      case_decide as Hmod.
      * rewrite decide_True; [done|].
        rewrite (Z.div_mod pos 8), (Z.div_mod s 8) by lia. unfold b in Hmod. lia.
      * rewrite decide_False; [|intros ->; by apply Hmod].
        unfold bit. by rewrite Hdiv.
    + rewrite decide_False; [done|]. intros ->. apply Hdiv. unfold p. lia.
Qed.

End SwapFacts.

Module SwapLoopFacts.
Import Gust SwapFacts.

Lemma position_split (s : Z) :
  0 <= s < 2048 ->
  wrap8 (Z.shiftr s 3) = s / 8 /\ wrap8 (Z.land s 7) = s mod 8.
Proof.
  intros Hs. unfold wrap8. rewrite Z.shiftr_div_pow2 by lia.
  change 7 with (Z.ones 3). rewrite Z.land_ones by lia.
  change (2 ^ 3) with 8. split; apply Z.mod_small; zlia.
Qed.

(** One iteration of the swap loop exchanges the bits at [s0] and [s1]. *)
Lemma swap_bits_spec (chunk : list Z) (s0 s1 : Z) :
  byte_buf chunk ->
  0 <= s0 < 8 * Z.of_nat (length chunk) -> s0 < 2048 ->
  0 <= s1 < 8 * Z.of_nat (length chunk) -> s1 < 2048 ->
  exists c', swap_bits chunk s0 s1 = Done c' /\ byte_buf c' /\
    length c' = length chunk /\
    forall pos, 0 <= pos -> bit c' pos = bit chunk (exchange s0 s1 pos).
Proof.
  intros Hb Hs0 Hs0' Hs1 Hs1'. unfold swap_bits.
  destruct (position_split s0 ltac:(lia)) as [-> ->].
  destruct (position_split s1 ltac:(lia)) as [-> ->].
  assert (Hp0 : 0 <= s0 / 8 < Z.of_nat (length chunk)) by zlia.
  assert (Hp1 : 0 <= s1 / 8 < Z.of_nat (length chunk)) by zlia.
  assert (Hb0 : 0 <= s0 mod 8 < 8) by zlia.
  assert (Hb1 : 0 <= s1 mod 8 < 8) by zlia.
  rewrite !(rd_Done chunk) by lia. rewrite !bind_Done.
  rewrite !extract_bit by lia.
  fold (bit chunk s0). fold (bit chunk s1).
  destruct (store_bit_buf chunk s0 (bit chunk s1) Hb Hs0) as (Hb2 & Hl2 & Hbits2).
  cbv zeta in Hb2, Hl2, Hbits2.
  set (chunk1 := <[Z.to_nat (s0 / 8) := _]> chunk) in *.
  assert (Hl1 : length chunk1 = length chunk) by apply length_insert.
  rewrite wr_Done by lia. rewrite bind_Done. fold chunk1.
  rewrite (rd_Done chunk1) by lia. rewrite bind_Done.
  rewrite wr_Done by lia. rewrite bind_Done.
  set (chunk2 := <[Z.to_nat (s0 / 8) := _]> chunk1) in *.
  destruct (store_bit_buf chunk2 s1 (bit chunk s0) Hb2 ltac:(lia)) as (Hb4 & Hl4 & Hbits4).
  cbv zeta in Hb4, Hl4, Hbits4.
  rewrite (rd_Done chunk2) by lia. rewrite bind_Done.
  rewrite wr_Done by lia. rewrite bind_Done.
  set (chunk3 := <[Z.to_nat (s1 / 8) := _]> chunk2) in *.
  assert (Hl3 : length chunk3 = length chunk2) by apply length_insert.
  rewrite (rd_Done chunk3) by lia. rewrite bind_Done.
  rewrite wr_Done by lia.
  eexists. split; [reflexivity|]. split; [exact Hb4|]. split; [lia|].
  intros pos Hpos. rewrite Hbits4 by done. unfold exchange.
  case_decide as H1.
  - subst pos. by rewrite Z.eqb_refl.
  - destruct (Z.eqb_spec pos s1); [done|]. rewrite Hbits2 by done.
    case_decide as H0.
    + subst pos. by rewrite Z.eqb_refl.
    + destruct (Z.eqb_spec pos s0); done.
Qed.

(** *** The loop as a map on positions *)

Lemma exchange_range (s0 s1 q bound : Z) :
  0 <= s0 < bound -> 0 <= s1 < bound -> 0 <= q < bound -> 0 <= exchange s0 s1 q < bound.
Proof. intros. unfold exchange. repeat case_match; lia. Qed.

Lemma partner_fixed (tbl : list Z) : forall i limit pos,
  pos ∉ tbl -> partner tbl i limit pos = pos.
Proof.
  induction tbl as [tbl IH] using (induction_ltof1 _ (@length Z)). unfold ltof in IH.
  intros i limit pos Hpos. destruct tbl as [|s0 [|s1 tbl']]; [done|done|].
  cbn [partner]. destruct (i <? limit); [|done].
  rewrite IH; [|cbn; lia|set_solver].
  unfold exchange. destruct (Z.eqb_spec pos s1); [set_solver|].
  destruct (Z.eqb_spec pos s0); [set_solver|done].
Qed.

Lemma partner_elem (tbl : list Z) : forall i limit pos,
  partner tbl i limit pos = pos \/ partner tbl i limit pos ∈ tbl.
Proof.
  induction tbl as [tbl IH] using (induction_ltof1 _ (@length Z)). unfold ltof in IH.
  intros i limit pos. destruct tbl as [|s0 [|s1 tbl']]; [by left|by left|].
  cbn [partner]. destruct (i <? limit); [|by left].
  destruct (IH tbl' ltac:(cbn; lia) (i + 2) limit pos) as [->|Hin].
  - unfold exchange. repeat case_match; set_solver.
  - unfold exchange. repeat case_match; set_solver.
Qed.

Lemma partner_involutive (tbl : list Z) : forall i limit pos,
  NoDup tbl -> partner tbl i limit (partner tbl i limit pos) = pos.
Proof.
  induction tbl as [tbl IH] using (induction_ltof1 _ (@length Z)). unfold ltof in IH.
  intros i limit pos Hnd. destruct tbl as [|s0 [|s1 tbl']]; [done|done|].
  apply NoDup_cons in Hnd as [Hs0 Hnd]. apply NoDup_cons in Hnd as [Hs1 Hnd].
  cbn [partner]. destruct (i <? limit) eqn:Hi; [|done].
  set (f := partner tbl' (i + 2) limit).
  assert (Hf0 : f s0 = s0) by (apply partner_fixed; set_solver).
  assert (Hf1 : f s1 = s1) by (apply partner_fixed; set_solver).
  assert (Hff : forall q, f (f q) = q) by (intros q; apply IH; [cbn; lia|done]).
  assert (Hne : s0 <> s1) by set_solver.
  unfold exchange at 2.
  destruct (Z.eqb_spec (f pos) s1) as [E1|E1].
  { rewrite Hf0. unfold exchange. destruct (Z.eqb_spec s0 s1); [done|].
    rewrite Z.eqb_refl. rewrite <- (Hff pos), E1. done. }
  destruct (Z.eqb_spec (f pos) s0) as [E0|E0].
  { rewrite Hf1. unfold exchange. rewrite Z.eqb_refl. rewrite <- (Hff pos), E0. done. }
  rewrite Hff. unfold exchange.
  destruct (Z.eqb_spec pos s1) as [->|]; [by rewrite Hf1 in E1|].
  destruct (Z.eqb_spec pos s0) as [->|]; [by rewrite Hf0 in E0|done].
Qed.

Lemma partner_range (tbl : list Z) (bound : Z) : forall i limit pos,
  Forall (fun v => 0 <= v < bound) tbl -> 0 <= pos < bound ->
  0 <= partner tbl i limit pos < bound.
Proof.
  intros i limit pos Htbl Hpos.
  destruct (partner_elem tbl i limit pos) as [->|Hin]; [done|].
  by apply (proj1 (Forall_forall _ _) Htbl).
Qed.

Lemma partner_beyond (tbl : list Z) (bound : Z) : forall i limit pos,
  Forall (fun v => 0 <= v < bound) tbl -> bound <= pos ->
  partner tbl i limit pos = pos.
Proof.
  intros i limit pos Htbl Hpos. apply partner_fixed. intros Hin.
  apply (proj1 (Forall_forall _ _) Htbl) in Hin. lia.
Qed.

(** The swap loop moves to each position the bit of its partner. *)
Lemma swap_loop_spec (tbl : list Z) : forall (i limit : Z) (chunk : list Z),
  byte_buf chunk ->
  Forall (fun v => 0 <= v < 8 * Z.of_nat (length chunk) /\ v < 2048) tbl ->
  Nat.Even (length tbl) -> limit <= i + Z.of_nat (length tbl) ->
  exists c', swap_loop tbl i limit chunk = Done c' /\ byte_buf c' /\
    length c' = length chunk /\
    forall pos, 0 <= pos -> bit c' pos = bit chunk (partner tbl i limit pos).
Proof.
  induction tbl as [tbl IH] using (induction_ltof1 _ (@length Z)). unfold ltof in IH.
  intros i limit chunk Hb Htbl Heven Hlimit.
  destruct tbl as [|s0 [|s1 tbl']].
  - cbn in *. destruct (Z.ltb_spec i limit); [lia|]. by exists chunk.
  - destruct Heven as [k Hk]. cbn in Hk. lia.
  - cbn [swap_loop partner]. destruct (Z.ltb_spec i limit); [|by exists chunk].
    apply Forall_cons in Htbl as [[Hs0 Hs0'] Htbl].
    apply Forall_cons in Htbl as [[Hs1 Hs1'] Htbl].
    destruct (swap_bits_spec chunk s0 s1 Hb Hs0 Hs0' Hs1 Hs1')
      as (c1 & Hrun1 & Hb1 & Hl1 & Hbits1).
    rewrite Hrun1, bind_Done.
    destruct (IH tbl' ltac:(cbn; lia) (i + 2) limit c1) as (c' & Hrun & Hb' & Hl' & Hbits');
      [done|by rewrite Hl1| |cbn [length] in Hlimit; lia|].
    { destruct Heven as [k Hk]. exists (k - 1)%nat. cbn [length] in Hk. lia. }
    exists c'. split; [done|]. split; [done|]. split; [lia|].
    intros pos Hpos. rewrite Hbits' by done. apply Hbits1.
    destruct (partner_elem tbl' (i + 2) limit pos) as [->|Hin]; [done|].
    apply (proj1 (Forall_forall _ _) Htbl) in Hin. lia.
Qed.

End SwapLoopFacts.

Module ChunkFacts.
Import Gust SwapFacts SwapLoopFacts.

(** *** The scrambling table in closed form is a permutation of the base table *)

Lemma shuffle_perm (n : nat) : forall (base : list Z) (seed : Z * Z),
  length base = n -> (shuffle n base seed).1 ≡ₚ base.
Proof.
  induction n as [|n IH]; intros base seed Hlen.
  - destruct base; [done|discriminate].
  - cbn [shuffle].
    set (x := Z.to_nat (_ mod Z.of_nat (S n))).
    assert (Hx : (x < length base)%nat).
    { unfold x. pose proof (Z.mod_pos_bound
        (Z.land (Z.shiftr (prng seed).2 16) 32767) (Z.of_nat (S n)) ltac:(lia)). lia. }
    specialize (IH (delete x base) (prng seed)).
    destruct (shuffle n (delete x base) (prng seed)) as [rest seed''].
    cbn [fst] in *. rewrite IH.
    + symmetry. apply delete_Permutation. by apply lookup_cell.
    + rewrite length_delete by (by apply lookup_lt_is_Some_2). lia.
Qed.

Lemma base_table_small (table_size : Z) :
  table_size <= 65536 -> base_table table_size = seqZ 0 table_size.
Proof.
  intros Ht. unfold base_table. rewrite <- (list_fmap_id (seqZ 0 table_size)) at 2.
  apply Forall_fmap_ext, Forall_forall. intros v Hv.
  apply elem_of_seqZ in Hv. unfold wrap16. cbn. apply Z.mod_small. lia.
Qed.

Lemma scrambling_table_props (table_size : Z) (seed : Z * Z) :
  0 <= table_size <= 65536 ->
  let tbl := (shuffle (Z.to_nat table_size) (base_table table_size) seed).1 in
  NoDup tbl /\ Forall (fun v => 0 <= v < table_size) tbl /\
  Z.of_nat (length tbl) = table_size.
Proof.
  intros Ht tbl.
  assert (Hperm : tbl ≡ₚ seqZ 0 table_size).
  { unfold tbl. rewrite shuffle_perm; [by rewrite base_table_small by lia|].
    rewrite base_table_small by lia. apply length_seqZ. }
  split; [|split].
  - rewrite Hperm. apply NoDup_seqZ.
  - rewrite Hperm. apply Forall_forall. intros v Hv. apply elem_of_seqZ in Hv. lia.
  - rewrite Hperm, length_seqZ. lia.
Qed.

(** *** The table loop against its closed form *)

Lemma load_cells_spec (n : nat) : forall (mem : list Z) (i : nat),
  (i + n <= length mem)%nat ->
  load_cells n mem (Z.of_nat i) = Done (take n (drop i mem)).
Proof.
  induction n as [|n IH]; intros mem i Hn; cbn [load_cells]; [done|].
  rewrite rd_Done, bind_Done, Nat2Z.id by lia.
  replace (Z.of_nat i + 1) with (Z.of_nat (S i)) by lia.
  rewrite IH, bind_Done by lia.
  rewrite (drop_S mem (cell mem i) i) by (apply lookup_cell; lia). done.
Qed.

Lemma load_cells_overrun (n : nat) : forall (mem : list Z) (i : nat),
  (0 < n)%nat -> (length mem < i + n)%nat ->
  load_cells n mem (Z.of_nat i) = Crash OutOfBounds.
Proof.
  induction n as [|n IH]; intros mem i Hpos Hn; [lia|]. cbn [load_cells].
  destruct (decide (i < length mem)%nat) as [Hi|Hi].
  - rewrite rd_Done, bind_Done by lia.
    replace (Z.of_nat i + 1) with (Z.of_nat (S i)) by lia.
    rewrite IH by lia. done.
  - by rewrite rd_Crash by lia.
Qed.

Lemma store_cells_spec (vs : list Z) : forall (mem : list Z) (i : nat),
  (i + length vs <= length mem)%nat ->
  store_cells vs mem (Z.of_nat i) = Done (take i mem ++ vs ++ drop (i + length vs) mem).
Proof.
  induction vs as [|v vs IH]; intros mem i Hn; cbn [store_cells length] in *.
  - rewrite Nat.add_0_r. cbn [app]. by rewrite take_drop.
  - destruct (Z.leb_spec 0 (Z.of_nat i)); [|lia].
    destruct (Z.ltb_spec (Z.of_nat i) (Z.of_nat (length mem))); [|lia]. cbn [andb].
    rewrite Nat2Z.id. replace (Z.of_nat i + 1) with (Z.of_nat (S i)) by lia.
    rewrite IH by (rewrite length_insert; lia).
    rewrite (take_S_r _ i v) by (apply list_lookup_insert_eq; lia).
    rewrite take_insert_ge by lia. rewrite drop_insert_lt by lia.
    replace (S i + length vs)%nat with (i + S (length vs))%nat by lia.
    by rewrite <- app_assoc.
Qed.

(** The [memmove] of the table loop closes the gap at [x]: the live entries
    behind [x] move down by one, and so does the first cell behind them. *)
Lemma memmove_shift (live tail : list Z) (t0 : Z) (x : nat) :
  (x < length live)%nat ->
  memmove (live ++ t0 :: tail) (Z.of_nat x) (Z.of_nat x + 1) (length live - x)
  = Done (delete x live ++ t0 :: t0 :: tail).
Proof.
  intros Hx. unfold memmove.
  replace (Z.of_nat x + 1) with (Z.of_nat (S x)) by lia.
  rewrite load_cells_spec by (rewrite length_app; cbn; lia). rewrite bind_Done.
  assert (Hload : take (length live - x) (drop (S x) (live ++ t0 :: tail))
                  = drop (S x) live ++ [t0]).
  { rewrite drop_app_le by lia.
    rewrite take_app_ge by (rewrite length_drop; lia).
    rewrite length_drop. replace (length live - x - (length live - S x))%nat with 1%nat by lia.
    done. }
  rewrite Hload. rewrite store_cells_spec.
  2:{ rewrite !length_app, length_drop. cbn. lia. }
  rewrite length_app, length_drop. cbn [length].
  replace (x + (length live - S x + 1))%nat with (length live) by lia.
  rewrite take_app_le by lia. rewrite drop_app_length.
  rewrite delete_take_drop, <- !app_assoc. done.
Qed.

Lemma scramble_shuffle (table_size : Z) (n : nat) :
  forall (i : Z) (live tail : list Z) (seed : Z * Z),
  length live = n -> tail <> [] -> table_size - i = Z.of_nat n ->
  scramble n i table_size (live ++ tail) seed = Done (shuffle n live seed).
Proof.
  induction n as [|n IH]; intros i live tail seed Hlen Htail Hts; [done|].
  cbn [scramble shuffle]. rewrite Hts.
  set (xz := Z.land (Z.shiftr (prng seed).2 16) 32767 mod Z.of_nat (S n)).
  assert (Hxz : 0 <= xz < Z.of_nat (S n)) by (apply Z.mod_pos_bound; lia).
  set (x := Z.to_nat xz).
  assert (Hx : (x < length live)%nat) by lia.
  rewrite <- (Z2Nat.id xz) by lia. fold x.
  rewrite rd_Done by (rewrite length_app; lia). rewrite bind_Done, Nat2Z.id.
  assert (Hcell : cell (live ++ tail) x = cell live x).
  { unfold cell. by rewrite lookup_app_l. }
  rewrite Hcell.
  destruct tail as [|t0 tail]; [done|].
  replace (Z.to_nat (Z.of_nat (S n) - Z.of_nat x)) with (length live - x)%nat by lia.
  rewrite memmove_shift, bind_Done by done.
  rewrite (IH (i + 1) (delete x live) (t0 :: t0 :: tail) (prng seed)); [|..|lia].
  - rewrite bind_Done. by destruct (shuffle n (delete x live) (prng seed)).
  - rewrite length_delete by (by apply lookup_lt_is_Some_2). lia.
  - done.
Qed.

(** With nothing readable behind [base_table], the first [memmove] of the
    table loop leaves the array. *)
Lemma scramble_overrun (table_size : Z) (mem : list Z) (seed : Z * Z) :
  0 < table_size -> Z.of_nat (length mem) = table_size ->
  scramble (Z.to_nat table_size) 0 table_size mem seed = Crash OutOfBounds.
Proof.
  intros Hts Hlen. destruct (Z.to_nat table_size) as [|n] eqn:En; [lia|].
  cbn [scramble]. rewrite Z.sub_0_r.
  set (xz := Z.land (Z.shiftr (prng seed).2 16) 32767 mod table_size).
  assert (Hxz : 0 <= xz < table_size) by (apply Z.mod_pos_bound; lia).
  rewrite rd_Done, bind_Done by lia. unfold memmove.
  replace (xz + 1) with (Z.of_nat (S (Z.to_nat xz))) by lia.
  rewrite load_cells_overrun by lia. done.
Qed.

Lemma length_base_table (table_size : Z) :
  length (base_table table_size) = Z.to_nat table_size.
Proof. unfold base_table. by rewrite length_fmap, length_seqZ. Qed.

(** The table of a slice, where a cell behind [base_table] can be read. *)
Lemma scrambling_table_shuffle (behind : list Z) (table_size : Z) (seed : Z * Z) :
  behind <> [] ->
  scramble (Z.to_nat table_size) 0 table_size (base_table table_size ++ behind) seed
  = Done (shuffle (Z.to_nat table_size) (base_table table_size) seed).
Proof.
  intros Hb. destruct (Z.le_gt_cases table_size 0) as [Hle|Hgt].
  - replace (Z.to_nat table_size) with 0%nat by lia. done.
  - apply scramble_shuffle; [apply length_base_table|done|lia].
Qed.

(** *** Bits of prefixes and suffixes *)

Lemma cell_ext (a b : list Z) (i : nat) :
  byte_buf a -> byte_buf b ->
  (forall j, 0 <= j < 8 -> bit a (8 * Z.of_nat i + j) = bit b (8 * Z.of_nat i + j)) ->
  cell a i = cell b i.
Proof.
  intros Ha Hb Hbits. apply byte_ext; [by apply cell_byte..|].
  intros j Hj. specialize (Hbits j Hj). unfold bit in Hbits.
  replace ((8 * Z.of_nat i + j) / 8) with (Z.of_nat i) in Hbits by zlia.
  replace ((8 * Z.of_nat i + j) mod 8) with j in Hbits by zlia.
  by rewrite Nat2Z.id in Hbits.
Qed.

Lemma lookup_ext_bits (a b : list Z) (i : nat) :
  length a = length b -> byte_buf a -> byte_buf b ->
  (forall j, 0 <= j < 8 -> bit a (8 * Z.of_nat i + j) = bit b (8 * Z.of_nat i + j)) ->
  a !! i = b !! i.
Proof.
  intros Hlen Ha Hb Hbits. destruct (decide (i < length a)%nat).
  - rewrite !lookup_cell by lia. f_equal. by apply cell_ext.
  - by rewrite !lookup_ge_None_2 by lia.
Qed.

Lemma take_ext_bits (k : nat) (a b : list Z) :
  length a = length b -> byte_buf a -> byte_buf b ->
  (forall pos, 0 <= pos < 8 * Z.of_nat k -> bit a pos = bit b pos) ->
  take k a = take k b.
Proof.
  intros Hlen Ha Hb Hbits. apply list_eq. intros i. rewrite !lookup_take.
  case_decide; [|done]. apply lookup_ext_bits; try done.
  intros j Hj. apply Hbits. lia.
Qed.

Lemma drop_ext_bits (k : nat) (a b : list Z) :
  length a = length b -> byte_buf a -> byte_buf b ->
  (forall pos, 8 * Z.of_nat k <= pos -> bit a pos = bit b pos) ->
  drop k a = drop k b.
Proof.
  intros Hlen Ha Hb Hbits. apply list_eq. intros i. rewrite !lookup_drop.
  apply lookup_ext_bits; try done. intros j Hj. apply Hbits. lia.
Qed.

Lemma bit_app_l (a b : list Z) (pos : Z) :
  0 <= pos < 8 * Z.of_nat (length a) -> bit (a ++ b) pos = bit a pos.
Proof.
  intros Hpos. unfold bit, cell. rewrite lookup_app_l; [done|]. zlia.
Qed.

Lemma bit_take (k : nat) (a : list Z) (pos : Z) :
  0 <= pos < 8 * Z.of_nat k -> bit (take k a) pos = bit a pos.
Proof.
  intros Hpos. unfold bit, cell. rewrite lookup_take_lt; [done|]. zlia.
Qed.

(** *** The slice loop *)

Lemma span_step (remaining slice_size : Z) :
  0 < slice_size ->
  span remaining slice_size = slice_size + span (remaining - slice_size) slice_size.
Proof.
  intros Hs. unfold span.
  replace (remaining + slice_size - 1) with ((remaining - slice_size + slice_size - 1) + 1 * slice_size) by lia.
  rewrite Z.div_add by lia. lia.
Qed.

Lemma span_pos (remaining slice_size : Z) :
  0 < slice_size -> 0 < remaining -> slice_size <= span remaining slice_size.
Proof.
  intros Hs Hr. unfold span.
  assert (1 <= (remaining + slice_size - 1) / slice_size) by (apply Z.div_le_lower_bound; lia).
  nia.
Qed.

Lemma slices_involutive (behind : list Z) (slice_size : Z) (fuel : nat) :
  behind <> [] ->
  1 <= slice_size <= 0x100 ->
  forall (chunk : list Z) (remaining chunk_size : Z) (seed : Z * Z),
  byte_buf chunk ->
  span remaining slice_size <= Z.of_nat (length chunk) ->
  remaining <= Z.of_nat fuel ->
  exists chunk' seed',
    slices behind fuel chunk remaining chunk_size seed slice_size (8 * slice_size)
      = Done (chunk', seed') /\
    byte_buf chunk' /\ length chunk' = length chunk /\
    slices behind fuel chunk' remaining chunk_size seed slice_size (8 * slice_size)
      = Done (chunk, seed').
Proof.
  intros Hbehind Hs. induction fuel as [|fuel IH]; intros chunk remaining chunk_size seed Hb Hspan Hfuel.
  - cbn [slices]. destruct (Z.ltb_spec 0 remaining); [lia|]. by exists chunk, seed.
  - cbn [slices]. destruct (Z.ltb_spec 0 remaining) as [Hrem|]; [|by exists chunk, seed].
    pose proof (span_pos remaining slice_size ltac:(lia) Hrem) as Hspan1.
    pose proof (span_step remaining slice_size ltac:(lia)) as Hspan2.
    destruct (scrambling_table_props (8 * slice_size) seed ltac:(lia)) as (Hnd & Hrange & Hlen).
    rewrite !scrambling_table_shuffle by done.
    destruct (shuffle (Z.to_nat (8 * slice_size)) (base_table (8 * slice_size)) seed)
      as [tbl seed1]. cbn [fst] in Hnd, Hrange, Hlen. rewrite !bind_Done.
    set (limit := Util.min (8 * slice_size) (wrap32 (Z.shiftl chunk_size 3))).
    assert (Hlimit : limit <= 0 + Z.of_nat (length tbl)).
    { unfold limit, Util.min. destruct (Z.ltb_spec (8 * slice_size)
        (wrap32 (Z.shiftl chunk_size 3))); lia. }
    assert (Heven : Nat.Even (length tbl)).
    { exists (Z.to_nat (4 * slice_size)). lia. }
    set (k := Z.to_nat slice_size).
    assert (Hrange' : forall c : list Z, length c = length chunk ->
      Forall (fun v => 0 <= v < 8 * Z.of_nat (length c) /\ v < 2048) tbl).
    { intros c Hc. eapply Forall_impl; [exact Hrange|]. cbn. intros v Hv. lia. }
    assert (Hrange8 : Forall (fun v => 0 <= v < 8 * Z.of_nat k) tbl).
    { eapply Forall_impl; [exact Hrange|]. cbn. intros v Hv. lia. }
    (* first pass *)
    destruct (swap_loop_spec tbl 0 limit chunk Hb (Hrange' chunk eq_refl) Heven Hlimit)
      as (c1 & Hrun1 & Hb1 & Hl1 & Hbits1).
    rewrite Hrun1, bind_Done.
    destruct (IH (drop k c1) (remaining - slice_size) (wrap32 (chunk_size - slice_size)) seed1)
      as (rest & seed2 & Hrest & Hbrest & Hlrest & Hback).
    { by apply Forall_drop. }
    { rewrite length_drop. lia. }
    { lia. }
    rewrite Hrest, bind_Done.
    set (chunk' := take k c1 ++ rest).
    assert (Hltake : length (take k c1) = k) by (rewrite length_take; lia).
    assert (Hl' : length chunk' = length chunk).
    { unfold chunk'. rewrite length_app, Hltake, Hlrest, length_drop. lia. }
    assert (Hb' : byte_buf chunk').
    { unfold chunk'. apply Forall_app. split; [by apply Forall_take|done]. }
    exists chunk', seed2. split; [done|]. split; [done|]. split; [done|].
    (* second pass *)
    rewrite bind_Done.
    destruct (swap_loop_spec tbl 0 limit chunk' Hb' (Hrange' chunk' Hl') Heven Hlimit)
      as (c2 & Hrun2 & Hb2 & Hl2 & Hbits2).
    rewrite Hrun2, bind_Done.
    assert (Hdrop1 : drop k c1 = drop k chunk).
    { apply drop_ext_bits; try done. intros pos Hpos.
      rewrite Hbits1 by lia. by rewrite (partner_beyond tbl (8 * Z.of_nat k)). }
    assert (Hdrop2 : drop k c2 = rest).
    { transitivity (drop k chunk').
      - apply drop_ext_bits; try done. intros pos Hpos.
        rewrite Hbits2 by lia. by rewrite (partner_beyond tbl (8 * Z.of_nat k)).
      - unfold chunk'. rewrite <- Hltake at 1. apply drop_app_length. }
    assert (Htake2 : take k c2 = take k chunk).
    { apply take_ext_bits; try done; try lia. intros pos Hpos.
      rewrite Hbits2 by lia.
      pose proof (partner_range tbl (8 * Z.of_nat k) 0 limit pos Hrange8 Hpos) as Hq.
      unfold chunk'. rewrite bit_app_l by lia. rewrite bit_take by lia.
      rewrite Hbits1 by lia. by rewrite partner_involutive. }
    rewrite Hdrop2, Hback, bind_Done. rewrite Htake2, Hdrop1, take_drop. done.
Qed.

End ChunkFacts.

Module DescrambleFacts.
Import Gust SwapFacts SwapLoopFacts ChunkFacts.

(** [descramble_chunk] with a slice of at most 0x100 bytes, on a buffer that
    holds every slice of the chunk, where the cell that the table loop reads
    behind [base_table] is there: the pass completes, and a second pass from
    the same seed undoes it. *)
Lemma descramble_chunk_runs (behind chunk : list Z) (chunk_size : Z) (seed : Z * Z)
    (slice_size : Z) :
  behind <> [] ->
  byte_buf chunk -> 1 <= slice_size <= 0x100 -> 0 <= chunk_size ->
  span chunk_size slice_size <= Z.of_nat (length chunk) ->
  exists chunk' seed',
    descramble_chunk behind chunk chunk_size seed slice_size = Done (true, chunk', seed') /\
    byte_buf chunk' /\ length chunk' = length chunk /\
    descramble_chunk behind chunk' chunk_size seed slice_size = Done (true, chunk, seed').
Proof.
  intros Hbehind Hb Hs Hcs Hspan. unfold descramble_chunk.
  assert (Ht : wrap32 (Z.shiftl slice_size 3) = 8 * slice_size).
  { unfold wrap32. rewrite Z.shiftl_mul_pow2 by lia. rewrite Z.mod_small; lia. }
  rewrite Ht. destruct (Z.ltb_spec (8 * slice_size) 4); [lia|].
  destruct (slices_involutive behind slice_size (Z.to_nat chunk_size) Hbehind Hs chunk
              chunk_size chunk_size seed Hb Hspan ltac:(lia))
    as (chunk' & seed' & Hrun & Hb' & Hl' & Hback).
  exists chunk', seed'. rewrite Hrun, Hback. done.
Qed.

(** The first slice of a pass, with its table in closed form. *)
Lemma descramble_chunk_first (behind chunk : list Z) (chunk_size : Z) (seed : Z * Z)
    (slice_size : Z) (fuel : nat) :
  behind <> [] -> Z.to_nat chunk_size = S fuel -> 4 <= wrap32 (Z.shiftl slice_size 3) ->
  descramble_chunk behind chunk chunk_size seed slice_size
  = let table_size := wrap32 (Z.shiftl slice_size 3) in
    let '(tbl, seed1) := shuffle (Z.to_nat table_size) (base_table table_size) seed in
    '(chunk', seed') ←
      (chunk1 ← swap_loop tbl 0 (Util.min table_size (wrap32 (Z.shiftl chunk_size 3))) chunk;
       '(rest, seed2) ← slices behind fuel (drop (Z.to_nat slice_size) chunk1)
                          (chunk_size - slice_size) (wrap32 (chunk_size - slice_size))
                          seed1 slice_size table_size;
       Done (take (Z.to_nat slice_size) chunk1 ++ rest, seed2));
    Done (true, chunk', seed').
Proof.
  intros Hbehind Hfuel Ht. unfold descramble_chunk. cbv zeta.
  destruct (Z.ltb_spec (wrap32 (Z.shiftl slice_size 3)) 4); [lia|].
  rewrite Hfuel. cbn [slices]. destruct (Z.ltb_spec 0 chunk_size); [|lia].
  rewrite scrambling_table_shuffle by done. rewrite bind_Done.
  by destruct (shuffle _ _ _).
Qed.

(** With exactly the [table_size] elements of [base_table] allocated, the
    pass on a chunk that is not empty leaves the array in the first
    iteration of its first table loop: the [memmove] of
    [table_size - i - x] elements from index [x + 1] reads the element at
    index [table_size]. *)
Lemma descramble_chunk_overrun (chunk : list Z) (chunk_size : Z) (seed : Z * Z)
    (slice_size : Z) :
  0 < chunk_size -> 4 <= wrap32 (Z.shiftl slice_size 3) ->
  descramble_chunk [] chunk chunk_size seed slice_size = Crash OutOfBounds.
Proof.
  intros Hcs Ht. unfold descramble_chunk. cbv zeta.
  destruct (Z.ltb_spec (wrap32 (Z.shiftl slice_size 3)) 4); [lia|].
  destruct (Z.to_nat chunk_size) as [|fuel] eqn:Hfuel; [lia|].
  cbn [slices]. destruct (Z.ltb_spec 0 chunk_size); [|lia].
  rewrite app_nil_r. rewrite scramble_overrun; [done|lia|].
  rewrite length_base_table. lia.
Qed.

(** C4 (as amended).  For a slice size from 1 to 0x100 (the callers use
    0x100 and 0x80), on a buffer of bytes that holds every slice of the
    chunk, and where the element that the table loop reads behind
    [base_table] is readable, the bit-swap pass completes and applying it a
    second time with the same initial state restores the buffer; in
    particular for the state (0x3B9A73C9, 0x12345678), slice size 0x80 and
    0x200 bytes of data. *)
Theorem bit_swap_self_inverse (behind chunk : list Z) (chunk_size : Z) (seed : Z * Z)
    (slice_size : Z) :
  behind <> [] ->
  byte_buf chunk -> 1 <= slice_size <= 0x100 -> 0 <= chunk_size ->
  span chunk_size slice_size <= Z.of_nat (length chunk) ->
  (exists chunk' seed',
     descramble_chunk behind chunk chunk_size seed slice_size = Done (true, chunk', seed') /\
     descramble_chunk behind chunk' chunk_size seed slice_size = Done (true, chunk, seed')) /\
  (length chunk = 0x200%nat ->
   exists chunk' seed',
     descramble_chunk behind chunk 0x200 (0x3B9A73C9, 0x12345678) 0x80
       = Done (true, chunk', seed') /\
     descramble_chunk behind chunk' 0x200 (0x3B9A73C9, 0x12345678) 0x80
       = Done (true, chunk, seed')).
Proof.
  intros Hbehind Hb Hs Hcs Hspan. split.
  - destruct (descramble_chunk_runs behind chunk chunk_size seed slice_size
                Hbehind Hb Hs Hcs Hspan)
      as (chunk' & seed' & Hrun & _ & _ & Hback). by exists chunk', seed'.
  - intros Hlen.
    assert (Hspan' : span 0x200 0x80 <= Z.of_nat (length chunk)).
    { rewrite Hlen. vm_compute. discriminate. }
    destruct (descramble_chunk_runs behind chunk 0x200 (0x3B9A73C9, 0x12345678) 0x80
                Hbehind Hb ltac:(lia) ltac:(lia) Hspan')
      as (chunk' & seed' & Hrun & _ & _ & Hback).
    exists chunk', seed'. split; assumption.
Qed.

Lemma bit_swap_self_inverse_witness :
  exists chunk' seed',
    descramble_chunk [0] s6_buf 0x200 (0x3B9A73C9, 0x12345678) 0x80
      = Done (true, chunk', seed') /\
    descramble_chunk [0] chunk' 0x200 (0x3B9A73C9, 0x12345678) 0x80
      = Done (true, s6_buf, seed').
Proof.
  refine (proj1 (bit_swap_self_inverse [0] s6_buf 0x200 (0x3B9A73C9, 0x12345678) 0x80
                   _ _ _ _ _)).
  - discriminate.
  - apply (bool_decide_unpack _). vm_compute. exact I.
  - lia.
  - lia.
  - vm_compute. discriminate.
Defined.

(** C4 (as stated) fails for a slice of 0x101 bytes, also where the element
    behind [base_table] is readable: the table has 2056 entries, but a byte
    position is cast to [uint8_t], so the entries 0 and 2048 name the same
    bit; from the state (4, 77) the table starts
    0 1 5 18 67 260 1028 2048, and two passes over [wide_slice_buf] leave
    byte 0 at 2 where it was 1.  It is not defined for every buffer and chunk
    size either: on a chunk of 0x50 bytes with slices of 0x80 bytes the
    fourth table entry, 742, addresses byte 92. *)
Lemma bit_swap_wide_slice :
  (exists tbl seed',
    scramble (Z.to_nat 2056) 0 2056 (base_table 2056 ++ [0]) (4, 77) = Done (tbl, seed') /\
    take 8 tbl = [0; 1; 5; 18; 67; 260; 1028; 2048]) /\
  (exists chunk1 seed1 chunk2 seed2,
    descramble_chunk [0] wide_slice_buf 0x101 (4, 77) 0x101 = Done (true, chunk1, seed1) /\
    descramble_chunk [0] chunk1 0x101 (4, 77) 0x101 = Done (true, chunk2, seed2) /\
    chunk2 !! 0%nat = Some 2 /\ wide_slice_buf !! 0%nat = Some 1 /\
    chunk2 <> wide_slice_buf) /\
  (exists tbl seed',
    scramble (Z.to_nat 1024) 0 1024 (base_table 1024 ++ [0]) (0x3B9A73C9, 0x12345678)
      = Done (tbl, seed') /\
    take 4 tbl = [543; 300; 429; 742]) /\
  descramble_chunk [0] short_chunk_buf 0x50 (0x3B9A73C9, 0x12345678) 0x80
    = Crash OutOfBounds.
Proof.
  assert (Hb : [0] <> []) by discriminate.
  split; [|split; [|split]].
  - rewrite (scrambling_table_shuffle [0] 2056 (4, 77) Hb).
    do 2 eexists. split; [vm_compute; reflexivity|reflexivity].
  - do 4 eexists.
    split.
    { rewrite (descramble_chunk_first [0] _ _ _ _ 256 Hb); [|reflexivity|vm_compute; discriminate].
      vm_compute. reflexivity. }
    split.
    { rewrite (descramble_chunk_first [0] _ _ _ _ 256 Hb); [|reflexivity|vm_compute; discriminate].
      vm_compute. reflexivity. }
    split; [reflexivity|]. split; [reflexivity|]. discriminate.
  - rewrite (scrambling_table_shuffle [0] 1024 (0x3B9A73C9, 0x12345678) Hb).
    do 2 eexists. split; [vm_compute; reflexivity|reflexivity].
  - rewrite (descramble_chunk_first [0] _ _ _ _ 79 Hb); [|reflexivity|vm_compute; discriminate].
    vm_compute. reflexivity.
Qed.

(** ** descrambler1 *)









Lemma d1_loop_total (fence : Z) (n : nat) : forall i buf seed,
  fence <> 0 -> 0 <= i -> i + 2 * Z.of_nat n <= Z.of_nat (length buf) ->
  exists buf', d1_loop n i buf seed fence = Done buf' /\ length buf' = length buf.
Proof.
  induction n as [|n IH]; intros i buf seed Hf Hi Hn; cbn [d1_loop]; [by exists buf|].
  unfold Util.getbe16. rewrite !rd_Done by lia. rewrite !bind_Done.
  destruct (Z.eqb_spec fence 0); [done|].
  unfold Util.setbe16. rewrite wr_Done by lia. rewrite bind_Done.
  rewrite wr_Done by (rewrite length_insert; lia).
  rewrite bind_Done.
  edestruct (IH (i + 2)) as (buf' & Hrun & Hlen); [done|lia| |rewrite Hrun].
  { rewrite !length_insert. lia. }
  exists buf'. split; [done|]. rewrite Hlen, !length_insert. done.
Qed.



End DescrambleFacts.

(** * Further properties of the code *)

(** ** The PAK entry loop *)

Module PakEntryFacts.
Import Pak PakEntry PakFacts.

Lemma key_scan_spec (key : list Z) (n : nat) : forall j : Z,
  length key = 20%nat -> 0 <= j -> j + Z.of_nat n = 20 ->
  exists j', key_scan n j key = Done j' /\ j <= j' <= 20 /\
    (j' = 20 <-> forall i : nat, j <= Z.of_nat i < 20 -> cell key i = 0).
Proof.
  induction n as [|n IH]; intros j Hlen Hj Hn.
  - exists j. split; [done|]. split; [lia|]. split; [intros _ i Hi; lia|lia].
  - cbn [key_scan]. destruct (Z.ltb_spec j 20); [|lia].
    rewrite rd_Done, bind_Done by lia.
    destruct (Z.eqb_spec (cell key (Z.to_nat j)) 0) as [Hz|Hnz].
    + destruct (IH (j + 1) Hlen ltac:(lia) ltac:(lia)) as (j' & Hrun & Hr & Hiff).
      exists j'. split; [done|]. split; [lia|]. rewrite Hiff. split.
      * intros Hall i Hi. destruct (decide (Z.of_nat i = j)) as [<-|].
        -- by rewrite Nat2Z.id in Hz.
        -- apply Hall. lia.
      * intros Hall i Hi. apply Hall. lia.
    + exists j. split; [done|]. split; [lia|]. split; [lia|].
      intros Hall. exfalso. apply Hnz. apply Hall. lia.
Qed.

(** X1.  The key scan of the entry loop sets [skip_decode] exactly when all
    20 key bytes are zero. *)
Theorem skip_decode_iff (key : list Z) :
  length key = 20%nat ->
  exists b, skip_decode key = Done b /\ (b = true <-> key = replicate 20 0).
Proof.
  intros Hlen. unfold skip_decode.
  destruct (key_scan_spec key 20 0 Hlen ltac:(lia) ltac:(lia)) as (j & -> & Hj & Hiff).
  rewrite bind_Done. eexists. split; [done|].
  rewrite Z.geb_leb, Z.leb_le.
  assert (Hj' : 20 <= j <-> j = 20) by lia. rewrite Hj', Hiff. split.
  - intros Hall. apply list_eq. intros i.
    destruct (decide (i < 20)%nat) as [Hi|Hi].
    + rewrite lookup_replicate_2 by done. rewrite lookup_cell by lia.
      f_equal. apply Hall. lia.
    + rewrite !lookup_ge_None_2; [done| |]; rewrite ?length_replicate; lia.
  - intros -> i Hi. apply cell_lookup. apply lookup_replicate_2. lia.
Qed.

Lemma skip_decode_iff_witness :
  exists b, skip_decode (replicate 19 0 ++ [7]) = Done b /\
            (b = true <-> replicate 19 0 ++ [7] = replicate 20 0).
Proof. apply (skip_decode_iff (replicate 19 0 ++ [7])). reflexivity. Defined.

(** [decode] over a prefix of the buffer, in closed form. *)
Lemma decode_prefix (a k : list Z) (n : nat) :
  byte_buf a -> byte_buf k -> length k = 20%nat -> (n <= length a)%nat ->
  exists y, decode a k (Z.of_nat n) = Done y /\ length y = length a /\ byte_buf y /\
    forall j : nat, y !! j = if decide (j < n)%nat then unmask k j <$> a !! j else a !! j.
Proof.
  intros Ha Hk Hlen Hn. unfold decode. rewrite Nat2Z.id.
  destruct (decode_from_spec k Hlen Hk n 0%nat a Ha ltac:(lia)) as (y & Hrun & Hl & Hb & Hlook).
  exists y. change (Z.of_nat 0) with 0 in Hrun. split; [done|]. split; [done|]. split; [done|].
  intros j. rewrite Hlook. repeat case_decide; try lia; done.
Qed.

(** X2.  [decode] changes the first [length] bytes of the buffer and nothing
    else: byte [j < length] becomes [a[j] ^ k[j % 20]], the bytes from
    [length] on and the size of the buffer stay. *)
Theorem decode_frame (a k : list Z) (n : nat) :
  byte_buf a -> byte_buf k -> length k = 20%nat -> (n <= length a)%nat ->
  exists y, decode a k (Z.of_nat n) = Done y /\ length y = length a /\
    drop n y = drop n a /\
    forall j : nat, (j < n)%nat ->
      y !! j = Some (Z.lxor (cell a j) (cell k (j mod 20))).
Proof.
  intros Ha Hk Hlen Hn.
  destruct (decode_prefix a k n Ha Hk Hlen Hn) as (y & Hrun & Hl & _ & Hlook).
  exists y. split; [done|]. split; [done|]. split.
  - apply list_eq. intros j. rewrite !lookup_drop, Hlook. case_decide; [lia|done].
  - intros j Hj. rewrite Hlook. rewrite decide_True by done.
    rewrite lookup_cell by lia. done.
Qed.

Lemma decode_frame_witness :
  exists y, decode [1; 2; 3; 4] (replicate 19 0 ++ [7]) 2 = Done y /\
    length y = 4%nat /\ drop 2 y = [3; 4].
Proof.
  destruct (decode_frame [1; 2; 3; 4] (replicate 19 0 ++ [7]) 2) as (y & H1 & H2 & H3 & _).
  - apply (bool_decide_unpack _). vm_compute. exact I.
  - apply (bool_decide_unpack _). vm_compute. exact I.
  - reflexivity.
  - cbn. lia.
  - exists y. split; [exact H1|]. split; [exact H2|exact H3].
Defined.

Lemma decode_from_overrun (k : list Z) (n : nat) : forall (i : nat) (a : list Z),
  byte_buf k -> length k = 20%nat -> (i <= length a)%nat -> (length a < i + n)%nat ->
  decode_from n (Z.of_nat i) a k = Crash OutOfBounds.
Proof.
  induction n as [|n IH]; intros i a Hk Hlen Hi Hn; [lia|].
  cbn [decode_from]. destruct (decide (i = length a)) as [->|Hne].
  - by rewrite (rd_Crash a) by lia.
  - assert (Hm : 0 <= Z.of_nat i mod 20 < 20) by (apply Z.mod_pos_bound; lia).
    rewrite (rd_Done a), (rd_Done k), !bind_Done by lia.
    rewrite wr_Done, bind_Done by lia.
    replace (Z.of_nat i + 1) with (Z.of_nat (S i)) by lia.
    apply IH; try done; rewrite length_insert; lia.
Qed.

(** X3.  [decode] has no bounds check of its own: a [length] beyond the
    buffer makes it run off the end. *)
Theorem decode_overrun (a k : list Z) (length_ : Z) :
  byte_buf k -> length k = 20%nat -> Z.of_nat (length a) < length_ ->
  decode a k length_ = Crash OutOfBounds.
Proof.
  intros Hk Hlen Hn. unfold decode.
  apply (decode_from_overrun k (Z.to_nat length_) 0 a); try done; lia.
Qed.

Lemma decode_overrun_witness :
  decode [1; 2; 3] (replicate 20 5) 4 = Crash OutOfBounds.
Proof.
  apply decode_overrun.
  - apply (bool_decide_unpack _). vm_compute. exact I.
  - reflexivity.
  - cbn. lia.
Defined.

Lemma unmask_zero (j : nat) (x : Z) : unmask (replicate 20 0) j x = x.
Proof.
  unfold unmask. rewrite (cell_lookup _ _ 0), Z.lxor_0_r; [done|].
  apply lookup_replicate_2. apply Nat.mod_upper_bound. lia.
Qed.

(** X4.  Skipping [decode] for an all-zero key loses nothing: whenever the
    key scan sets [skip_decode], [decode] with that key would return the
    buffer as it is. *)
Theorem skip_decode_sound (key a : list Z) :
  length key = 20%nat -> byte_buf a ->
  skip_decode key = Done true ->
  decode a key (Z.of_nat (length a)) = Done a.
Proof.
  intros Hlen Ha Hskip.
  destruct (skip_decode_iff key Hlen) as (b & Hrun & Hiff).
  rewrite Hskip in Hrun. injection Hrun as <-.
  rewrite (proj1 Hiff eq_refl).
  destruct (decode_prefix a (replicate 20 0) (length a) Ha) as (y & -> & Hl & _ & Hlook);
    [by apply Forall_replicate|by rewrite length_replicate|lia|].
  f_equal. apply list_eq. intros j. rewrite Hlook. case_decide; [|done].
  destruct (a !! j); [|done]. cbn. by rewrite unmask_zero.
Qed.

Lemma skip_decode_sound_witness :
  decode [9; 8; 7] (replicate 20 0) 3 = Done [9; 8; 7].
Proof.
  apply (skip_decode_sound (replicate 20 0) [9; 8; 7]).
  - reflexivity.
  - apply (bool_decide_unpack _). vm_compute. exact I.
  - reflexivity.
Defined.

Lemma key_xor_props (k1 k2 : list Z) :
  byte_buf k1 -> byte_buf k2 -> length k1 = 20%nat -> length k2 = 20%nat ->
  byte_buf (key_xor k1 k2) /\ length (key_xor k1 k2) = 20%nat /\
  forall j : nat, (j < 20)%nat ->
    cell (key_xor k1 k2) j = Z.lxor (cell k1 j) (cell k2 j).
Proof.
  intros H1 H2 L1 L2. unfold key_xor. split; [|split].
  - apply Forall_lookup. intros j z Hz. rewrite lookup_zip_with in Hz.
    destruct (k1 !! j) as [x|] eqn:E1; [|done]. destruct (k2 !! j) as [y|] eqn:E2; [|done].
    cbn in Hz. injection Hz as <-. apply lxor_byte.
    + eapply (proj1 (Forall_lookup _ _) H1); done.
    + eapply (proj1 (Forall_lookup _ _) H2); done.
  - rewrite length_zip_with. lia.
  - intros j Hj. apply cell_lookup. rewrite lookup_zip_with.
    rewrite !lookup_cell by lia. done.
Qed.

(** X5.  Two [decode] passes compose into one: unmasking with [k1] and then
    with [k2] is unmasking with the byte-wise XOR of the two keys; in
    particular the order of the passes does not matter. *)
Theorem decode_compose (x k1 k2 : list Z) :
  byte_buf x -> byte_buf k1 -> byte_buf k2 ->
  length k1 = 20%nat -> length k2 = 20%nat ->
  let n := Z.of_nat (length x) in
  exists y1 y2 z,
    decode x k1 n = Done y1 /\ decode y1 k2 n = Done z /\
    decode x k2 n = Done y2 /\ decode y2 k1 n = Done z /\
    decode x (key_xor k1 k2) n = Done z.
Proof.
  intros Hx H1 H2 L1 L2 n. subst n.
  destruct (key_xor_props k1 k2 H1 H2 L1 L2) as (H12 & L12 & Hcell).
  destruct (decode_prefix x k1 (length x) Hx H1 L1 ltac:(lia)) as (y1 & R1 & Ly1 & By1 & Look1).
  destruct (decode_prefix x k2 (length x) Hx H2 L2 ltac:(lia)) as (y2 & R2 & Ly2 & By2 & Look2).
  destruct (decode_prefix y1 k2 (length x) By1 H2 L2 ltac:(lia)) as (z & R3 & Lz & _ & Look3).
  destruct (decode_prefix y2 k1 (length x) By2 H1 L1 ltac:(lia)) as (z' & R4 & Lz' & _ & Look4).
  destruct (decode_prefix x (key_xor k1 k2) (length x) Hx H12 L12 ltac:(lia))
    as (w & R5 & Lw & _ & Look5).
  assert (Hm : forall j : nat, (j mod 20 < 20)%nat) by (intros; apply Nat.mod_upper_bound; lia).
  assert (Hz : z' = z).
  { apply list_eq. intros j. rewrite Look4, Look3, Look2, Look1.
    case_decide; [|done]. destruct (x !! j); [|done]. cbn. f_equal. unfold unmask.
    rewrite !Z.lxor_assoc. f_equal. apply Z.lxor_comm. }
  assert (Hw : w = z).
  { apply list_eq. intros j. rewrite Look5, Look3, Look1.
    case_decide; [|done]. destruct (x !! j); [|done]. cbn. f_equal. unfold unmask.
    rewrite Hcell by apply Hm. by rewrite Z.lxor_assoc. }
  subst z' w. exists y1, y2, z. done.
Qed.

Lemma decode_compose_witness :
  exists y1 y2 z,
    decode [1; 2; 3] (replicate 20 5) 3 = Done y1 /\ decode y1 (replicate 20 9) 3 = Done z /\
    decode [1; 2; 3] (replicate 20 9) 3 = Done y2 /\ decode y2 (replicate 20 5) 3 = Done z /\
    decode [1; 2; 3] (key_xor (replicate 20 5) (replicate 20 9)) 3 = Done z.
Proof.
  apply (decode_compose [1; 2; 3] (replicate 20 5) (replicate 20 9));
    try reflexivity; apply (bool_decide_unpack _); vm_compute; exact I.
Defined.

End PakEntryFacts.

Module FilenameFacts.
Import PakEntry.

Lemma strlen_nonneg (s : list Z) : forall n, strlen s = Done n -> 0 <= n.
Proof.
  induction s as [|c s IH]; intros n Hn; [done|]. cbn [strlen] in Hn.
  destruct (c =? 0); [injection Hn as <-; lia|].
  destruct (strlen s) as [m|] eqn:E; [|done]. cbn in Hn. injection Hn as <-.
  specialize (IH m eq_refl). lia.
Qed.

(** [strlen] finds the first NUL: it is at index [m], and no byte before it
    is NUL. *)
Lemma strlen_spec (s : list Z) : forall m : nat,
  strlen s = Done (Z.of_nat m) <->
  s !! m = Some 0 /\ forall j : nat, (j < m)%nat -> exists c, s !! j = Some c /\ c <> 0.
Proof.
  induction s as [|c s IH]; intros m.
  - cbn [strlen]. split; [done|]. intros [H _]. done.
  - cbn [strlen]. destruct (Z.eqb_spec c 0) as [->|Hc].
    + split.
      * intros Hm. assert (m = 0%nat) as -> by (injection Hm; lia).
        split; [done|]. intros j Hj. lia.
      * intros [H0 Hall]. destruct m as [|m]; [done|].
        destruct (Hall 0%nat ltac:(lia)) as (c & Hc & Hne). cbn in Hc. congruence.
    + split.
      * intros Hm. destruct (strlen s) as [n|] eqn:E; [|done]. cbn in Hm.
        pose proof (strlen_nonneg s n E) as Hn.
        destruct m as [|m]; [injection Hm; lia|].
        assert (n = Z.of_nat m) as -> by (injection Hm; lia).
        destruct (proj1 (IH m) eq_refl) as [H0 Hall]. split; [done|].
        intros [|j] Hj; [by exists c|]. apply Hall. lia.
      * intros [H0 Hall]. destruct m as [|m]; [cbn in H0; congruence|].
        assert (E : strlen s = Done (Z.of_nat m)).
        { apply IH. split; [done|]. intros j Hj. apply (Hall (S j)). lia. }
        rewrite E. cbn. f_equal. lia.
Qed.

Section Normalize.
Variable PATH_SEP : Z.
Hypothesis sep_byte : is_byte PATH_SEP.
Hypothesis sep_not_nul : PATH_SEP <> 0.

Lemma normalize_from_spec (len : nat) (fuel : nat) : forall (n : nat) (f : list Z),
  strlen f = Done (Z.of_nat len) -> (n <= len)%nat -> (len - n <= fuel)%nat ->
  exists f', normalize_from fuel (Z.of_nat n) PATH_SEP f = Done f' /\
    length f' = length f /\ strlen f' = Done (Z.of_nat len) /\
    forall j : nat, f' !! j =
      (fun c => if decide ((n <= j < len)%nat /\ c = BACKSLASH) then PATH_SEP else c)
        <$> f !! j.
Proof.
  induction fuel as [|fuel IH]; intros n f Hlen Hn Hfuel.
  - assert (n = len) as -> by lia. exists f.
    destruct len; cbn [normalize_from]; rewrite Hlen, bind_Done, Z.ltb_irrefl;
      (split; [done|]; split; [done|]; split; [done|]);
      intros j; destruct (f !! j); [|done| |done]; cbn; cbn beta;
      case_decide; try done; lia.
  - cbn [normalize_from]. rewrite Hlen, bind_Done.
    destruct (Z.ltb_spec (Z.of_nat n) (Z.of_nat len)) as [Hlt|Hge].
    + pose proof (proj1 (strlen_spec f len) Hlen) as [Hnul Hall].
      pose proof (lookup_lt_Some _ _ _ Hnul) as Hsize.
      rewrite rd_Done, bind_Done, Nat2Z.id by lia.
      set (f2 := if cell f n =? BACKSLASH then <[n := PATH_SEP]> f else f).
      assert (Hwr : (if cell f n =? BACKSLASH then wr f (Z.of_nat n) PATH_SEP else Done f)
                    = Done f2).
      { subst f2. destruct (cell f n =? BACKSLASH); [|done].
        rewrite wr_Done, Nat2Z.id, wrap8_id by (done || lia). done. }
      rewrite Hwr, bind_Done.
      assert (Hl2 : length f2 = length f).
      { subst f2. destruct (cell f n =? BACKSLASH); [|done]. by rewrite length_insert. }
      assert (Hlook2 : forall j : nat, f2 !! j =
                (fun c => if decide (j = n /\ c = BACKSLASH) then PATH_SEP else c) <$> f !! j).
      { intros j. subst f2. destruct (Z.eqb_spec (cell f n) BACKSLASH) as [Hc|Hc].
        - destruct (decide (j = n)) as [->|Hj].
          + rewrite list_lookup_insert_eq by lia. rewrite (lookup_cell f n) by lia.
            cbn. rewrite decide_True; done.
          + rewrite list_lookup_insert_ne by done. destruct (f !! j); [|done].
            cbn. rewrite decide_False; [done|]. intros [? _]. done.
        - destruct (f !! j) as [c|] eqn:E; [|done]. cbn. rewrite decide_False; [done|].
          intros [-> ->]. apply Hc. by apply cell_lookup. }
      assert (Hlen2 : strlen f2 = Done (Z.of_nat len)).
      { apply strlen_spec. split.
        - rewrite Hlook2, Hnul. cbn. rewrite decide_False; [done|]. intros [_ ?]. done.
        - intros j Hj. destruct (Hall j Hj) as (c & Hc & Hne). rewrite Hlook2, Hc. cbn.
          case_decide; eauto. }
      replace (Z.of_nat n + 1) with (Z.of_nat (S n)) by lia.
      destruct (IH (S n) f2 Hlen2 ltac:(lia) ltac:(lia)) as (f' & Hrun & Hl & Hs & Hlook).
      exists f'. split; [done|]. split; [lia|]. split; [done|].
      intros j. rewrite Hlook, Hlook2. destruct (f !! j) as [c|]; [|done]. cbn. f_equal.
      repeat case_decide; try done; try lia.
    + assert (n = len) as -> by lia. exists f.
      split; [done|]. split; [done|]. split; [done|].
      intros j. destruct (f !! j); [|done]. cbn. cbn beta.
      case_decide; [lia|done].
Qed.
End Normalize.

(** X6.  The separator loop of the entry loop rewrites a NUL-terminated file
    name in place: every backslash before the terminator becomes [PATH_SEP],
    every other byte stays, so the length of the string is unchanged; with
    [PATH_SEP = '/'] no backslash is left in the name. *)
Theorem normalize_separators_spec (PATH_SEP : Z) (filename : list Z) (len : nat) :
  is_byte PATH_SEP -> PATH_SEP <> 0 ->
  strlen filename = Done (Z.of_nat len) ->
  exists f', normalize_separators PATH_SEP filename = Done f' /\
    length f' = length filename /\ strlen f' = Done (Z.of_nat len) /\
    (forall j : nat, (len <= j)%nat -> f' !! j = filename !! j) /\
    (forall j : nat, (j < len)%nat ->
       cell f' j = if cell filename j =? BACKSLASH then PATH_SEP else cell filename j) /\
    (PATH_SEP <> BACKSLASH -> forall j : nat, (j < len)%nat -> cell f' j <> BACKSLASH).
Proof.
  intros Hb Hnz Hlen. unfold normalize_separators.
  pose proof (proj1 (strlen_spec filename len) Hlen) as [Hnul Hall].
  pose proof (lookup_lt_Some _ _ _ Hnul) as Hsize.
  destruct (normalize_from_spec PATH_SEP Hb Hnz len (length filename) 0 filename Hlen
              ltac:(lia) ltac:(lia)) as (f' & Hrun & Hl & Hs & Hlook).
  change (Z.of_nat 0) with 0 in Hrun.
  assert (Hcell : forall j : nat, (j < len)%nat ->
            cell f' j = if cell filename j =? BACKSLASH then PATH_SEP else cell filename j).
  { intros j Hj. apply cell_lookup. rewrite Hlook. rewrite (lookup_cell filename j) by lia.
    cbn. f_equal. cbn beta.
    destruct (Z.eqb_spec (cell filename j) BACKSLASH) as [Hc|Hc].
    - rewrite decide_True; [done|]. split; [lia|done].
    - rewrite decide_False; [done|]. intros [_ ?]. done. }
  exists f'. split; [done|]. split; [done|]. split; [done|]. split; [|split; [done|]].
  - intros j Hj. rewrite Hlook. destruct (filename !! j); [|done]. cbn. cbn beta.
    rewrite decide_False; [done|]. intros [? _]. lia.
  - intros Hsep j Hj. rewrite Hcell by done.
    destruct (Z.eqb_spec (cell filename j) BACKSLASH); done.
Qed.

Lemma normalize_separators_spec_witness :
  exists f', normalize_separators 47 [92; 97; 92; 98; 0; 92] = Done f' /\
    length f' = 6%nat /\ strlen f' = Done 4.
Proof.
  destruct (normalize_separators_spec 47 [92; 97; 92; 98; 0; 92] 4) as (f' & H1 & H2 & H3 & _).
  - unfold is_byte. lia.
  - lia.
  - reflexivity.
  - exists f'. split; [exact H1|]. split; [exact H2|exact H3].
Defined.

End FilenameFacts.

(** ** The bit reader and the code table *)

Module BitstreamFacts.
Import Gust Bitstream.

Lemma follows_refl (ctx : getbits_ctx) : follows ctx ctx.
Proof. unfold follows. repeat split; (done || lia). Qed.

Lemma follows_trans (c1 c2 c3 : getbits_ctx) :
  follows c1 c2 -> follows c2 c3 -> follows c1 c3.
Proof. unfold follows. intros (? & ? & ?) (? & ? & ?). repeat split; (congruence || lia). Qed.

Lemma follows_within (c1 c2 : getbits_ctx) : within c1 -> follows c1 c2 -> within c2.
Proof. unfold within, follows. intros [? ?] (E1 & E2 & ?). rewrite E1, E2. lia. Qed.

Lemma getbits_loop_safe (n : nat) : forall ctx x,
  within ctx ->
  exists v ctx', getbits_loop n ctx x = Done (v, ctx') /\ follows ctx ctx'.
Proof.
  induction n as [|n IH]; intros ctx x Hw; cbn [getbits_loop].
  - eexists _, _. split; [done|apply follows_refl].
  - destruct Hw as [Hpos Hsize].
    destruct (Z.eqb_spec (getbits_mask ctx) 0) as [Hm|Hm]; cbn [andb].
    + destruct (Z.geb_spec (pos ctx) (size ctx)) as [Hge|Hlt].
      * eexists _, _. split; [done|apply follows_refl].
      * rewrite rd_Done, !bind_Done by lia. cbn [buffer size pos getbits_buffer getbits_mask].
        match goal with |- context [getbits_loop n ?c ?y] =>
          destruct (IH c y) as (v & ctx' & -> & Hf) end.
        { unfold within. cbn. lia. }
        exists v, ctx'. split; [done|]. unfold follows in *. cbn in Hf.
        destruct Hf as (? & ? & ?). repeat split; (done || lia).
    + rewrite bind_Done.
      match goal with |- context [getbits_loop n ?c ?y] =>
        destruct (IH c y) as (v & ctx' & -> & Hf) end.
      { unfold within. cbn. lia. }
      exists v, ctx'. split; [done|]. unfold follows in *. cbn in Hf.
        destruct Hf as (? & ? & ?). repeat split; (done || lia).
Qed.

Lemma getbits_loop_range (n : nat) : forall ctx x v ctx' k,
  0 <= k -> 0 <= x < 2 ^ k -> k + Z.of_nat n <= 32 ->
  getbits_loop n ctx x = Done (v, ctx') ->
  v = EOF32 \/ 0 <= v < 2 ^ (k + Z.of_nat n).
Proof.
  induction n as [|n IH]; intros ctx x v ctx' k Hk Hx Hn; cbn [getbits_loop].
  - intros [= <- <-]. right. rewrite Z.add_0_r.
    assert (2 ^ k <= 2 ^ 32) by (apply Z.pow_le_mono_r; lia).
    unfold wrap32. rewrite Z.mod_small; lia.
  - case_match; [intros [= <- <-]; by left|].
    intros (ctx1 & _ & Hrun)%bind_Done_inv.
    apply (IH _ _ _ _ (k + 1)) in Hrun; [| lia | | lia].
    + replace (k + Z.of_nat (S n)) with (k + 1 + Z.of_nat n) by lia. done.
    + rewrite Z.shiftl_mul_pow2, Z.pow_1_r, Z.pow_add_r, Z.pow_1_r by lia.
      case_match; lia.
Qed.

(** X7.  [getbits] never reads outside the buffer of its context, whatever
    the bits are: with [pos] an index and [size] within the buffer it
    returns, the context still reads the same buffer and has not moved
    back, and for [n <= 31] the value is either the end-of-stream value
    [(uint32_t)EOF] or an [n]-bit number. *)
Theorem getbits_safe (ctx : getbits_ctx) (n : Z) :
  within ctx -> 0 <= n <= 31 ->
  exists v ctx', getbits ctx n = Done (v, ctx') /\
    within ctx' /\ follows ctx ctx' /\ (v = EOF32 \/ 0 <= v < 2 ^ n).
Proof.
  intros Hw Hn. unfold getbits.
  destruct (getbits_loop_safe (Z.to_nat n) ctx 0 Hw) as (v & ctx' & Hrun & Hf).
  exists v, ctx'. split; [done|]. split; [by eapply follows_within|]. split; [done|].
  apply (getbits_loop_range _ _ _ _ _ 0) in Hrun; [|lia|lia|lia].
  by rewrite Z.add_0_l, Z2Nat.id in Hrun by lia.
Qed.

Lemma getbits_safe_witness :
  exists v ctx', getbits (mk_ctx [0xA5] 1 0 0 0) 3 = Done (v, ctx') /\
    within ctx' /\ follows (mk_ctx [0xA5] 1 0 0 0) ctx' /\ (v = EOF32 \/ 0 <= v < 2 ^ 3).
Proof.
  apply (getbits_safe (mk_ctx [0xA5] 1 0 0 0) 3).
  - unfold within. cbn. lia.
  - lia.
Defined.

Lemma getbits_step (ctx : getbits_ctx) (n : Z) :
  within ctx ->
  exists v ctx', getbits ctx n = Done (v, ctx') /\ within ctx' /\ follows ctx ctx'.
Proof.
  intros Hw. unfold getbits.
  destruct (getbits_loop_safe (Z.to_nat n) ctx 0 Hw) as (v & ctx' & Hrun & Hf).
  exists v, ctx'. split; [done|]. split; [by eapply follows_within|done].
Qed.

Lemma code_length_safe (fuel : nat) : forall code_len c ctx,
  7 - code_len <= Z.of_nat fuel -> within ctx ->
  exists code_len' c' ctx', code_length fuel code_len c ctx = Done (code_len', c', ctx') /\
    within ctx'.
Proof.
  induction fuel as [|fuel IH]; intros code_len c ctx Hfuel Hw; cbn [code_length];
    (destruct (Z.ltb_spec (code_len + 1) 8); [|by eexists _, _, _]);
    destruct (getbits_step ctx 1 Hw) as (c1 & ctx1 & -> & Hw1 & _); rewrite bind_Done;
    (case_match; [|by eexists _, _, _]).
  - lia.
  - apply IH; [lia|done].
Qed.

Lemma code_table_loop_safe (n : nat) : forall c ctx acc,
  within ctx -> exists t, code_table_loop n c ctx acc = Done t.
Proof.
  induction n as [|n IH]; intros c ctx acc Hw; cbn [code_table_loop]; [by eexists|].
  case_match; [by eexists|]. case_match.
  - destruct (getbits_step ctx 1 Hw) as (c1 & ctx1 & -> & Hw1 & _). rewrite bind_Done.
    by apply IH.
  - destruct (code_length_safe 8 0 c ctx ltac:(lia) Hw) as (cl & c1 & ctx1 & -> & Hw1).
    rewrite bind_Done. case_match; [by eexists|]. case_match.
    + destruct (getbits_step ctx1 cl Hw1) as (v & ctx2 & -> & Hw2 & _). rewrite bind_Done.
      destruct (getbits_step ctx2 1 Hw2) as (c3 & ctx3 & -> & Hw3 & _). rewrite bind_Done.
      by apply IH.
    + destruct (getbits_step ctx1 1 Hw1) as (c3 & ctx3 & -> & Hw3 & _). rewrite bind_Done.
      by apply IH.
Qed.

Lemma byte_buf_snoc (acc : list Z) (b : Z) : byte_buf acc -> is_byte b -> byte_buf (acc ++ [b]).
Proof. intros Ha Hb. apply Forall_app. split; [done|]. by apply Forall_singleton. Qed.

(** Whatever the bitstream, the table holds bytes and no more entries than
    the loop has iterations. *)
Lemma code_table_loop_shape (n : nat) : forall c ctx acc t,
  code_table_loop n c ctx acc = Done t -> byte_buf acc ->
  byte_buf t /\ (length acc <= length t <= length acc + n)%nat.
Proof.
  induction n as [|n IH]; intros c ctx acc t; cbn [code_table_loop].
  { intros [= <-] Ha. split; [done|lia]. }
  assert (Hnext : forall c' ctx' b, is_byte b -> byte_buf acc ->
            code_table_loop n c' ctx' (acc ++ [b]) = Done t ->
            byte_buf t /\ (length acc <= length t <= length acc + S n)%nat).
  { intros c' ctx' b Hb Ha Hrun. apply IH in Hrun as [Ht Hl]; [|by apply byte_buf_snoc].
    rewrite length_app in Hl. cbn in Hl. split; [done|lia]. }
  case_match; [intros [= <-] Ha; split; [done|lia]|]. case_match.
  - intros ([c' ctx'] & _ & Hrun)%bind_Done_inv Ha.
    eapply Hnext; [|done|exact Hrun]. unfold is_byte. lia.
  - intros ([[cl c1] ctx1] & _ & Hrun)%bind_Done_inv Ha. revert Hrun.
    case_match; [intros [= <-]; split; [done|lia]|]. case_match.
    + intros ([v ctx2] & _ & ([c' ctx'] & _ & Hrun)%bind_Done_inv)%bind_Done_inv.
      eapply Hnext; [|done|exact Hrun]. apply wrap8_byte.
    + intros ([c' ctx'] & _ & Hrun)%bind_Done_inv.
      eapply Hnext; [|done|exact Hrun]. unfold is_byte. lia.
Qed.

Lemma build_code_table_shape (bitstream : list Z) (bitstream_length n : Z) (t : list Z) :
  build_code_table bitstream bitstream_length = Done (n, t) ->
  byte_buf t /\ (length t <= Z.to_nat n)%nat.
Proof.
  unfold build_code_table.
  intros (n' & _ & ([c ctx] & _ & (t' & Hrun & [= <- <-])%bind_Done_inv)%bind_Done_inv)%bind_Done_inv.
  apply code_table_loop_shape in Hrun as [Ht Hl]; [|by apply Forall_nil].
  split; [done|]. cbn in Hl. lia.
Qed.

(** X8.  [build_code_table] stays inside its two buffers: given a bitstream
    of at least [bitstream_length] bytes it reads no byte outside it, and it
    writes only bytes, to at most [*code_table_length] entries from the
    start of the table it allocated with that size. *)
Theorem build_code_table_safe (bitstream : list Z) (bitstream_length : Z) :
  4 <= bitstream_length <= Z.of_nat (length bitstream) -> bitstream_length < 2 ^ 32 ->
  exists t, build_code_table bitstream bitstream_length = Done (be32_at bitstream 0, t) /\
    byte_buf t /\ (length t <= Z.to_nat (be32_at bitstream 0))%nat.
Proof.
  intros Hlen Hsmall.
  assert (Hw : within (mk_ctx (drop 4 bitstream) (wrap32 (bitstream_length - 4)) 0 0 0)).
  { unfold within. cbn. rewrite length_drop. unfold wrap32. rewrite Z.mod_small; lia. }
  assert (exists t, build_code_table bitstream bitstream_length = Done (be32_at bitstream 0, t))
    as [t Hrun].
  { unfold build_code_table. rewrite D2Facts.getbe32_Done, bind_Done by lia.
    destruct (getbits_step _ 1 Hw) as (c & ctx & -> & Hw1 & _). rewrite bind_Done.
    destruct (code_table_loop_safe (Z.to_nat (be32_at bitstream 0)) c ctx [] Hw1) as [t ->].
    by exists t. }
  exists t. split; [done|]. by eapply build_code_table_shape.
Qed.

Lemma build_code_table_safe_witness :
  exists t, build_code_table [0; 0; 0; 4; 0xCC; 0x80] 6 = Done (be32_at [0; 0; 0; 4; 0xCC; 0x80] 0, t) /\
    byte_buf t /\ (length t <= 4)%nat.
Proof.
  apply (build_code_table_safe [0; 0; 0; 4; 0xCC; 0x80] 6).
  - cbn. lia.
  - lia.
Defined.

End BitstreamFacts.

(** ** The output of unglaze *)

Module OutputFacts.
Import Gust.

Lemma rd_byte (buf : list Z) (i b : Z) : byte_buf buf -> rd buf i = Done b -> is_byte b.
Proof. intros Hb [_ H]%rd_inv. exact (Forall_lookup_1 _ _ _ _ Hb H). Qed.

Lemma rd_code_byte (code_table : list Z) (code_len i b : Z) :
  byte_buf code_table -> rd_code code_table code_len i = Done b -> is_byte b.
Proof.
  intros Hb. unfold rd_code. case_match; [done|].
  destruct (code_table !! Z.to_nat i) eqn:E; [|done].
  intros [= <-]. exact (Forall_lookup_1 _ _ _ _ Hb E).
Qed.

Section Output.
Variables (src code_table : list Z) (code_len cap : Z).

Lemma emit_ext (out out' : list Z) (b : Z) :
  emit cap out b = Done out' ->
  out' = out ++ [wrap8 b] /\ Z.of_nat (length out') <= cap.
Proof.
  unfold emit. destruct (Z.ltb_spec (Z.of_nat (length out)) cap); [|done].
  intros [= <-]. split; [done|]. rewrite length_app. cbn. lia.
Qed.

Lemma emit_back_ext (out out' : list Z) (d : Z) :
  emit_back cap out d = Done out' ->
  d <= Z.of_nat (length out) /\
  out' = out ++ [default indeterminate (out !! Z.to_nat (Z.of_nat (length out) - d))] /\
  Z.of_nat (length out') <= cap.
Proof.
  unfold emit_back. destruct (Z.ltb_spec (Z.of_nat (length out) - d) 0); [done|].
  destruct (Z.leb_spec cap (Z.of_nat (length out) - d)); [done|]. cbn [orb].
  destruct (Z.ltb_spec (Z.of_nat (length out)) cap); [|done].
  intros [= <-]. split; [lia|]. split; [done|]. rewrite length_app. cbn. lia.
Qed.

Lemma copy_back_ext (n : nat) : forall (out out' : list Z) (d : Z),
  copy_back cap n out d = Done out' ->
  exists ext, out' = out ++ ext /\ length ext = n /\
    (n = 0%nat \/ Z.of_nat (length out') <= cap).
Proof.
  induction n as [|n IH]; intros out out' d; cbn [copy_back].
  - intros [= <-]. exists []. rewrite app_nil_r. split; [done|]. split; [done|]. by left.
  - intros (o & (_ & -> & Hc)%emit_back_ext & (ext & -> & Hl & Hc')%IH)%bind_Done_inv.
    eexists (_ :: ext). rewrite <- app_assoc. cbn [app].
    split; [done|]. split; [cbn; lia|].
    right. destruct Hc' as [->|Hc']; [|by rewrite <- app_assoc in Hc'].
    apply nil_length_inv in Hl as ->. done.
Qed.

Lemma copy_dict_ext (n : nat) : forall (out out' : list Z) (dict dict' : Z),
  copy_dict src cap n out dict = Done (out', dict') ->
  exists ext, out' = out ++ ext /\ length ext = n /\
    (n = 0%nat \/ Z.of_nat (length out') <= cap).
Proof.
  induction n as [|n IH]; intros out out' dict dict'; cbn [copy_dict].
  - intros [= <- <-]. exists []. rewrite app_nil_r. split; [done|]. split; [done|]. by left.
  - intros (b & _ & (o & [-> Hc]%emit_ext & (ext & -> & Hl & Hc')%IH)%bind_Done_inv)%bind_Done_inv.
    exists (wrap8 b :: ext).
    replace (out ++ wrap8 b :: ext) with ((out ++ [wrap8 b]) ++ ext) by (by rewrite <- app_assoc).
    split; [done|]. split; [cbn; lia|].
    right. destruct Hc' as [->|Hc']; [|done].
    apply nil_length_inv in Hl as ->. by rewrite app_nil_r.
Qed.

Ltac invert_step :=
  repeat match goal with
    | H : (_ ≫= _) = Done _ |- _ =>
        let E := fresh "E" in apply bind_Done_inv in H as (? & E & H)
    | H : (let '(_, _) := ?p in _) = Done _ |- _ => destruct p
    | H : Done _ = Done _ |- _ => injection H as <-
    end.

(** One opcode appends to the output: nothing before [dst] changes, at
    most 269 bytes are written, and all of them inside the capacity. *)
Lemma glaze_step_ext (st st' : glaze_state) :
  glaze_step src code_table code_len cap st = Done st' ->
  exists ext, dst st' = dst st ++ ext /\
    (ext = [] \/ Z.of_nat (length (dst st')) <= cap) /\
    (byte_buf src -> byte_buf code_table -> (length ext <= 269)%nat).
Proof.
  unfold glaze_step. intros H.
  apply bind_Done_inv in H as (op & Hop & H).
  assert (Hshape : forall (n : nat) (out' : list Z) (bound : Z),
            (exists ext, out' = dst st ++ ext /\ length ext = n /\
               (n = 0%nat \/ Z.of_nat (length out') <= cap)) ->
            (byte_buf src -> byte_buf code_table -> Z.of_nat n <= 269) ->
            exists ext, out' = dst st ++ ext /\
              (ext = [] \/ Z.of_nat (length out') <= cap) /\
              (byte_buf src -> byte_buf code_table -> (length ext <= 269)%nat)).
  { intros n out' bound (ext & -> & Hl & Hc) Hn. exists ext. split; [done|]. split.
    - destruct Hc as [->|Hc]; [|by right]. left. by apply nil_length_inv.
    - intros Hs Ht. specialize (Hn Hs Ht). lia. }
  assert (Hb : forall x i, byte_buf code_table ->
            rd_code code_table code_len i = Done x -> 0 <= x < 256).
  { intros x i Ht Hx. apply (rd_code_byte _ _ _ _ Ht Hx). }
  assert (Hs : forall x i, byte_buf src -> rd src i = Done x -> 0 <= x < 256).
  { intros x i Hsrc Hx. apply (rd_byte _ _ _ Hsrc Hx). }
  repeat case_match; invert_step; cbn [dst].
  - apply (Hshape 1%nat _ 0); [by eapply copy_dict_ext|lia].
  - match goal with E : emit_back _ _ _ = Done _ |- _ =>
      apply emit_back_ext in E as (_ & -> & Hc) end.
    eexists [_]. split; [done|]. split; [by right|]. cbn. lia.
  - eapply (Hshape _ _ 0); [by eapply copy_back_ext|].
    intros Hsrc Ht. repeat match goal with E : rd_code _ _ _ = Done _ |- _ =>
      apply (Hb _ _ Ht) in E end. lia.
  - eapply (Hshape _ _ 0); [by eapply copy_back_ext|].
    intros Hsrc Ht. repeat match goal with E : rd_code _ _ _ = Done _ |- _ =>
      apply (Hb _ _ Ht) in E end. lia.
  - eapply (Hshape _ _ 0); [by eapply copy_back_ext|].
    intros Hsrc Ht. repeat match goal with E : rd_code _ _ _ = Done _ |- _ =>
      apply (Hb _ _ Ht) in E end. lia.
  - eapply (Hshape _ _ 0); [by eapply copy_dict_ext|].
    intros Hsrc Ht. repeat match goal with E : rd_code _ _ _ = Done _ |- _ =>
      apply (Hb _ _ Ht) in E end. lia.
  - eapply (Hshape _ _ 0); [by eapply copy_dict_ext|].
    intros Hsrc Ht. repeat match goal with E : rd src _ = Done _ |- _ =>
      apply (Hs _ _ Hsrc) in E end. lia.
  - exists []. rewrite app_nil_r. split; [done|]. split; [by left|]. cbn. lia.
Qed.

(** What the loop returns, and how far the output has grown by then. *)
Lemma glaze_loop_result (dec_length max_dict max_len : Z) (fuel : nat) :
  forall (st : glaze_state) (r : glaze_result),
  glaze_loop src code_table code_len cap fuel dec_length max_dict max_len st = Done r ->
  ((message r = None /\ ret r = dec_length /\ dec_length <= Z.of_nat (length (written r)))
   \/ (message r = Some Overflow /\ ret r = 0)) /\
  exists ext, written r = dst st ++ ext /\
    (ext = [] \/ Z.of_nat (length (written r)) <= cap) /\
    (byte_buf src -> byte_buf code_table ->
     Z.of_nat (length (dst st)) <= dec_length + 268 ->
     Z.of_nat (length (written r)) <= dec_length + 268).
Proof.
  induction fuel as [|fuel IH]; intros st r; cbn [glaze_loop];
    (destruct (Z.ltb_spec (Z.of_nat (length (dst st))) dec_length) as [Hlt|Hge];
     [|intros [= <-]; cbn; split; [left; done|];
       exists []; rewrite app_nil_r; split; [done|]; split; [by left|done]]);
    [done|].
  case_match.
  { intros [= <-]. cbn. split; [right; done|].
    exists []. rewrite app_nil_r. split; [done|]. split; [by left|done]. }
  intros (st' & (e1 & He1 & Hc1 & Hb1)%glaze_step_ext & Hrun)%bind_Done_inv.
  apply IH in Hrun as [Hres (e2 & He2 & Hc2 & Hb2)]. split; [done|].
  exists (e1 ++ e2). rewrite He2, He1, <- app_assoc. split; [done|]. split.
  - destruct Hc2 as [->|Hc2].
    + rewrite app_nil_r. rewrite He2, He1, app_nil_r in *. done.
    + right. by rewrite He2, He1, <- app_assoc in Hc2.
  - intros Hs Ht _. rewrite He2, He1, <- app_assoc in Hb2. apply Hb2; try done.
    specialize (Hb1 Hs Ht). rewrite length_app. lia.
Qed.
End Output.

Section Lower.
Variables (src code_table : list Z) (code_len cap cap' : Z).
Hypothesis Hsrc : byte_buf src.
Hypothesis Htable : byte_buf code_table.

Lemma emit_lower (out out' : list Z) (b : Z) :
  emit cap out b = Done out' -> Z.of_nat (length out') <= cap' ->
  emit cap' out b = Done out'.
Proof.
  intros H Hc. pose proof (emit_ext _ _ _ _ H) as [-> _]. unfold emit.
  rewrite length_app in Hc. cbn in Hc.
  destruct (Z.ltb_spec (Z.of_nat (length out)) cap'); [done|lia].
Qed.

Lemma emit_back_lower (out out' : list Z) (d : Z) :
  0 <= d ->
  emit_back cap out d = Done out' -> Z.of_nat (length out') <= cap' ->
  emit_back cap' out d = Done out'.
Proof.
  intros Hd H Hc. pose proof (emit_back_ext _ _ _ _ H) as (Hle & -> & _).
  rewrite length_app in Hc. cbn in Hc. unfold emit_back.
  destruct (Z.ltb_spec (Z.of_nat (length out) - d) 0); [lia|].
  destruct (Z.leb_spec cap' (Z.of_nat (length out) - d)); [lia|]. cbn [orb].
  destruct (Z.ltb_spec (Z.of_nat (length out)) cap'); [done|lia].
Qed.

Lemma copy_back_lower (n : nat) : forall (out out' : list Z) (d : Z),
  0 <= d ->
  copy_back cap n out d = Done out' ->
  n = 0%nat \/ Z.of_nat (length out') <= cap' ->
  copy_back cap' n out d = Done out'.
Proof.
  induction n as [|n IH]; intros out out' d Hd; cbn [copy_back]; [done|].
  intros (o & Ho & H)%bind_Done_inv [|Hc]; [done|].
  pose proof (copy_back_ext _ _ _ _ _ H) as (ext & -> & _ & _).
  rewrite (emit_back_lower _ _ _ Hd Ho), bind_Done by (rewrite length_app in Hc; lia).
  apply IH; [done|done|by right].
Qed.

Lemma copy_dict_lower (n : nat) : forall (out out' : list Z) (dict dict' : Z),
  copy_dict src cap n out dict = Done (out', dict') ->
  n = 0%nat \/ Z.of_nat (length out') <= cap' ->
  copy_dict src cap' n out dict = Done (out', dict').
Proof.
  induction n as [|n IH]; intros out out' dict dict'; cbn [copy_dict]; [done|].
  intros (b & Hb & (o & Ho & H)%bind_Done_inv)%bind_Done_inv [|Hc]; [done|].
  pose proof (copy_dict_ext _ _ _ _ _ _ _ H) as (ext & -> & _ & _).
  rewrite Hb, bind_Done.
  rewrite (emit_lower _ _ _ Ho), bind_Done by (rewrite length_app in Hc; lia).
  apply IH; [done|by right].
Qed.

(** The distances of the back references are sums of bytes. *)
Ltac distance :=
  repeat match goal with
    | E : rd_code code_table code_len _ = Done _ |- _ =>
        apply (rd_code_byte _ _ _ _ Htable) in E
    | E : rd src _ = Done _ |- _ => apply (rd_byte _ _ _ Hsrc) in E
    end;
  unfold is_byte in *;
  try match goal with
    | |- context [Z.lor (Z.shiftl ?a 8) ?b] =>
        assert (0 <= Z.lor (Z.shiftl a 8) b)
          by (apply Z.lor_nonneg; split; [apply Z.shiftl_nonneg|]; lia)
    end;
  lia.

Lemma glaze_step_lower (st st' : glaze_state) :
  glaze_step src code_table code_len cap st = Done st' ->
  Z.of_nat (length (dst st')) <= cap' ->
  glaze_step src code_table code_len cap' st = Done st'.
Proof.
  unfold glaze_step. intros (op & Hop & H)%bind_Done_inv Hc. rewrite Hop, bind_Done.
  repeat case_match;
    repeat match goal with
      | H : (emit_back cap _ _ ≫= _) = Done _ |- _ =>
          let E := fresh "E" in
          let Hd := fresh "Hd" in
          apply bind_Done_inv in H as (? & E & H); injection H as <-; cbn [dst] in Hc;
          match type of E with emit_back _ _ ?d = _ => assert (Hd : 0 <= d) by distance end;
          rewrite (emit_back_lower _ _ _ Hd E Hc), bind_Done
      | H : (copy_back cap _ _ _ ≫= _) = Done _ |- _ =>
          let E := fresh "E" in
          let Hd := fresh "Hd" in
          apply bind_Done_inv in H as (? & E & H); injection H as <-; cbn [dst] in Hc;
          match type of E with copy_back _ _ _ ?d = _ => assert (Hd : 0 <= d) by distance end;
          rewrite (copy_back_lower _ _ _ _ Hd E (or_intror Hc)), bind_Done
      | H : (copy_dict src cap _ _ _ ≫= _) = Done _ |- _ =>
          let E := fresh "E" in
          let o := fresh "o" in let d := fresh "d" in
          apply bind_Done_inv in H as ([o d] & E & H); injection H as <-; cbn [dst] in Hc;
          rewrite (copy_dict_lower _ _ _ _ _ E (or_intror Hc)), bind_Done
      | H : (_ ≫= _) = Done _ |- _ =>
          let E := fresh "E" in
          apply bind_Done_inv in H as (? & E & H); rewrite E, bind_Done
      end; done.
Qed.

Lemma glaze_loop_lower (dec_length max_dict max_len : Z) (fuel : nat) :
  forall (st : glaze_state) (r : glaze_result),
  glaze_loop src code_table code_len cap fuel dec_length max_dict max_len st = Done r ->
  Z.of_nat (length (written r)) <= cap' ->
  glaze_loop src code_table code_len cap' fuel dec_length max_dict max_len st = Done r.
Proof.
  induction fuel as [|fuel IH]; intros st r; cbn [glaze_loop];
    (case_match; [|done]); [done|].
  case_match; [done|].
  intros (st' & Hst & Hrun)%bind_Done_inv Hc.
  pose proof (glaze_loop_result _ _ _ _ _ _ _ _ _ _ Hrun) as [_ (ext & He & _)].
  rewrite (glaze_step_lower _ _ Hst), bind_Done
    by (rewrite He, length_app in Hc; lia).
  by apply IH.
Qed.
End Lower.

(** The two ways [unglaze] returns: before the opcode loop, with a message
    and nothing written, whatever the room behind [dst]; or from the loop,
    over the code table that [build_code_table] has produced. *)
Lemma unglaze_inv (src : list Z) (src_length dst_length cap : Z) (r : glaze_result) :
  unglaze src src_length dst_length cap = Done r ->
  (written r = [] /\
   (message r = Some SizeMismatch /\ ret r <> dst_length \/
    (exists e, message r = Some e /\ e <> SizeMismatch) /\ ret r = 0) /\
   forall cap', unglaze src src_length dst_length cap' = Done r) \/
  (exists code_table code_len bitstream bitstream_length max_dict max_len st0,
     build_code_table bitstream bitstream_length = Done (code_len, code_table) /\
     dst st0 = [] /\
     glaze_loop src code_table code_len cap (S (Z.to_nat code_len))
       dst_length max_dict max_len st0 = Done r /\
     forall cap' r',
       glaze_loop src code_table code_len cap' (S (Z.to_nat code_len))
         dst_length max_dict max_len st0 = Done r' ->
       unglaze src src_length dst_length cap' = Done r').
Proof.
  unfold unglaze. cbv zeta.
  intros (dec_length & E & Hrun)%bind_Done_inv. rewrite E. setoid_rewrite bind_Done.
  destruct (Z.eqb_spec dec_length dst_length) as [->|Hne]; cbn [negb] in *.
  2:{ left. injection Hrun as <-. cbn. split; [done|]. split; [|done]. left. done. }
  apply bind_Done_inv in Hrun as (bl & E1 & Hrun). rewrite E1. setoid_rewrite bind_Done.
  destruct (bl <=? 4).
  { left. injection Hrun as <-. cbn. split; [done|]. split; [|done]. right. split; [by eexists|done]. }
  destruct (wrap32 (bl + 4) >=? src_length).
  { left. injection Hrun as <-. cbn. split; [done|]. split; [|done]. right. split; [by eexists|done]. }
  apply bind_Done_inv in Hrun as ([code_len tbl] & E2 & Hrun). rewrite E2.
  setoid_rewrite bind_Done.
  apply bind_Done_inv in Hrun as (dl & E3 & Hrun). rewrite E3. setoid_rewrite bind_Done.
  destruct (wrap32 (wrap32 (bl + 4) + dl + 4) >=? src_length).
  { left. injection Hrun as <-. cbn. split; [done|]. split; [|done]. right. split; [by eexists|done]. }
  apply bind_Done_inv in Hrun as (ll & E4 & Hrun). rewrite E4. setoid_rewrite bind_Done.
  destruct (wrap32 (wrap32 (wrap32 (bl + 4) + dl + 4) + ll + 4) >=? src_length).
  { left. injection Hrun as <-. cbn. split; [done|]. split; [|done]. right. split; [by eexists|done]. }
  right. eexists tbl, code_len, _, _, _, _, _. split; [exact E2|]. split; [|split; [exact Hrun|done]].
  done.
Qed.

(** The outcomes of [unglaze], by the message printed. *)
Lemma unglaze_cases (src : list Z) (src_length dst_length cap : Z) (r : glaze_result) :
  unglaze src src_length dst_length cap = Done r ->
  (message r = None /\ ret r = dst_length /\
   dst_length <= Z.of_nat (length (written r)) /\
   (written r = [] \/ Z.of_nat (length (written r)) <= cap)) \/
  (message r = Some SizeMismatch /\ ret r <> dst_length) \/
  (exists e, message r = Some e /\ e <> SizeMismatch /\ ret r = 0).
Proof.
  intros [(_ & Hm & _)|(t & cl & bs & bl & md & ml & st0 & _ & Hst & Hrun & _)]%unglaze_inv.
  - destruct Hm as [[Hm Hr]|[(e & Hm & He) Hr]].
    + right. left. done.
    + right. right. by exists e.
  - apply glaze_loop_result in Hrun as [[(Hm & Hr & Hge)|[Hm Hr]] (ext & He & Hc & _)].
    + left. rewrite Hst in He. cbn in He. subst ext. done.
    + right. right. by exists Overflow.
Qed.

(** The outcomes of the run in which [malloc] has no memory for the code
    table. *)
Lemma unglaze_no_table_cases (src : list Z) (src_length dst_length : Z) (r : glaze_result) :
  unglaze_no_table src src_length dst_length = Done r ->
  (message r = None /\ ret r = 0 /\ written r = []) \/
  (message r = Some SizeMismatch /\ ret r <> dst_length) \/
  (exists e, message r = Some e /\ e <> SizeMismatch /\ ret r = 0).
Proof.
  unfold unglaze_no_table. cbv zeta.
  intros (dec_length & E & Hrun)%bind_Done_inv.
  destruct (Z.eqb_spec dec_length dst_length) as [->|Hne]; cbn [negb] in *.
  2:{ injection Hrun as <-. right. left. done. }
  apply bind_Done_inv in Hrun as (bl & E1 & Hrun).
  destruct (bl <=? 4).
  { injection Hrun as <-. right. right. by eexists. }
  destruct (wrap32 (bl + 4) >=? src_length).
  { injection Hrun as <-. right. right. by eexists. }
  apply bind_Done_inv in Hrun as (cl & E2 & Hrun). injection Hrun as <-. left. done.
Qed.

(** X9.  What the return value of [unglaze] tells its caller, in every run,
    the one in which [malloc] fails included.  The size-mismatch message
    comes with a return value other than [dst_length], every other message
    with 0.  A run that returns [dst_length] has printed no message, unless
    [dst_length] is 0: every error after the size check returns 0, which a
    caller that compares the result with an expected size of 0 takes for
    success.  A run that prints no message returns [dst_length], or 0 with
    nothing written. *)
Theorem unglaze_return_value (src : list Z) (src_length dst_length cap : Z)
    (r : glaze_result) :
  unglaze src src_length dst_length cap = Done r \/
  unglaze_no_table src src_length dst_length = Done r ->
  (message r = Some SizeMismatch -> ret r <> dst_length) /\
  (forall e, message r = Some e -> e <> SizeMismatch -> ret r = 0) /\
  (ret r = dst_length ->
   message r = None \/ dst_length = 0 /\ message r <> Some SizeMismatch) /\
  (message r = None -> ret r = dst_length \/ ret r = 0 /\ written r = []).
Proof.
  intros Hrun.
  assert (Hcases :
    (message r = None /\ (ret r = dst_length \/ ret r = 0 /\ written r = [])) \/
    (message r = Some SizeMismatch /\ ret r <> dst_length) \/
    (exists e, message r = Some e /\ e <> SizeMismatch /\ ret r = 0)).
  { destruct Hrun as [Hrun|Hrun].
    - apply unglaze_cases in Hrun as [(Hm & Hr & _)|[?|?]]; [left|right; by left|right; by right].
      split; [done|by left].
    - apply unglaze_no_table_cases in Hrun as [(Hm & Hr & Hw)|[?|?]];
        [left|right; by left|right; by right].
      split; [done|by right]. }
  destruct Hcases as [[Hm Hr]|[[Hm Hr]|(e & Hm & He & Hr)]]; rewrite Hm.
  - split; [done|]. split; [done|]. split; [by left|done].
  - split; [done|]. split; [intros e [= <-]; done|]. split; [done|done].
  - split; [intros [= ->]; done|]. split; [done|]. split; [|done].
    intros <-. right. split; [done|]. intros [= ->]. done.
Qed.

Lemma unglaze_return_value_witness :
  let r := mk_glaze 0 (Some BitstreamTooSmall) [] in
  unglaze [0; 0; 0; 0; 0; 0; 0; 0] 8 0 0 = Done r /\
  (message r = Some SizeMismatch -> ret r <> 0) /\
  (forall e, message r = Some e -> e <> SizeMismatch -> ret r = 0) /\
  (ret r = 0 -> message r = None \/ 0 = 0 /\ message r <> Some SizeMismatch) /\
  (message r = None -> ret r = 0 \/ ret r = 0 /\ written r = []).
Proof.
  intros r. split; [reflexivity|].
  apply (unglaze_return_value [0; 0; 0; 0; 0; 0; 0; 0] 8 0 0 r). left. reflexivity.
Defined.

(** X10.  A run of [unglaze] that returns a [dst_length] other than 0 has
    printed no message and has written at least [dst_length] bytes: the
    return value tells the caller that the output is filled, not that the
    writes have stayed inside it.  In scenario S5 the run returns 10 after
    writing 12 bytes. *)
Theorem unglaze_fills_output (src : list Z) (src_length dst_length cap : Z)
    (r : glaze_result) :
  unglaze src src_length dst_length cap = Done r \/
  unglaze_no_table src src_length dst_length = Done r ->
  ret r = dst_length -> dst_length <> 0 ->
  message r = None /\ dst_length <= Z.of_nat (length (written r)).
Proof.
  intros [Hrun|Hrun] Hret Hne.
  - apply unglaze_cases in Hrun as [(Hm & _ & Hge & _)|[[_ Hr]|(e & _ & _ & Hr)]];
      [done|done|congruence].
  - apply unglaze_no_table_cases in Hrun as [(_ & Hr & _)|[[_ Hr]|(e & _ & _ & Hr)]];
      [congruence|done|congruence].
Qed.

Lemma unglaze_fills_output_witness :
  let r := mk_glaze 10 None [65; 66; 67; 67; 68; 69; 70; 71; 72; 73; 74; 0] in
  unglaze s5_src 33 10 12 = Done r /\
  message r = None /\ 10 <= Z.of_nat (length (written r)) /\ length (written r) = 12%nat.
Proof.
  intros r. split; [vm_compute; reflexivity|].
  split; [|split]; [| |reflexivity].
  - apply (unglaze_fills_output s5_src 33 10 12 r);
      [left; vm_compute; reflexivity|reflexivity|lia].
  - cbn. lia.
Defined.

(** X11.  The writes of [unglaze] past [dst_length] are bounded: an opcode
    is started only below [dst_length] and writes at most 269 bytes, so
    whatever the room behind [dst], no run writes more than
    [dst_length + 268] bytes, and a buffer of that size is as good as any
    larger one. *)
Theorem unglaze_slack (src : list Z) (src_length dst_length cap : Z) (r : glaze_result) :
  byte_buf src -> 0 <= dst_length ->
  unglaze src src_length dst_length cap = Done r ->
  Z.of_nat (length (written r)) <= dst_length + 268 /\
  unglaze src src_length dst_length (dst_length + 268) = Done r.
Proof.
  intros Hsrc Hdl
    [(Hw & _ & Hall)|(t & cl & bs & bl & md & ml & st0 & Ht & Hst & Hrun & Hback)]%unglaze_inv.
  - rewrite Hw. cbn. split; [lia|apply Hall].
  - apply BitstreamFacts.build_code_table_shape in Ht as [Ht _].
    pose proof (glaze_loop_result _ _ _ _ _ _ _ _ _ _ Hrun) as [_ (ext & _ & _ & Hb)].
    assert (Hlen : Z.of_nat (length (written r)) <= dst_length + 268).
    { apply Hb; try done. rewrite Hst. cbn. lia. }
    split; [done|]. apply Hback. by apply (glaze_loop_lower _ _ _ cap).
Qed.

Lemma unglaze_slack_witness :
  let r := mk_glaze 10 None [65; 66; 67; 67; 68; 69; 70; 71; 72; 73; 74; 0] in
  Z.of_nat (length (written r)) <= 10 + 268 /\ unglaze s5_src 33 10 (10 + 268) = Done r.
Proof.
  intros r. apply (unglaze_slack s5_src 33 10 12 r).
  - apply (bool_decide_unpack _). vm_compute. exact I.
  - lia.
  - vm_compute. reflexivity.
Defined.

(** X12.  The back-reference copy of the opcodes 03, 04 and 05 is the
    overlapping copy of LZ77, with no check of the distance.  For [n > 0]
    cells and a distance [d >= 0] (a sum of bytes) it stays inside the
    buffer exactly when [d <= dst - start] and [n] more cells fit; it then
    appends [n] cells and leaves the earlier output as it is.  For [d >= 1]
    every new cell equals the cell [d] positions before it, so that a
    distance shorter than [n] repeats the last [d] cells.  For [d = 0] every
    cell is copied onto itself: the run goes on, and the [n] cells keep what
    [malloc] left in them. *)
Theorem copy_back_spec (cap : Z) (n : nat) (out : list Z) (d : Z) :
  0 <= d -> (0 < n)%nat ->
  (d <= Z.of_nat (length out) /\ Z.of_nat (length out) + Z.of_nat n <= cap
   <-> exists out', copy_back cap n out d = Done out') /\
  forall out', copy_back cap n out d = Done out' ->
    length out' = (length out + n)%nat /\
    take (length out) out' = out /\
    (1 <= d -> forall j : nat, (length out <= j < length out')%nat ->
       out' !! j = out' !! (j - Z.to_nat d)%nat) /\
    (d = 0 -> forall j : nat, (length out <= j < length out')%nat ->
       out' !! j = Some indeterminate).
Proof.
  intros Hd0 Hn.
  assert (Hrun : forall m out,
            d <= Z.of_nat (length out) -> Z.of_nat (length out) + Z.of_nat m <= cap ->
            exists out', copy_back cap m out d = Done out').
  { clear Hn. induction m as [|m IH]; intros out0 Hd Hc; cbn [copy_back]; [by eexists|].
    unfold emit_back. destruct (Z.ltb_spec (Z.of_nat (length out0) - d) 0); [lia|].
    destruct (Z.leb_spec cap (Z.of_nat (length out0) - d)); [lia|]. cbn [orb].
    destruct (Z.ltb_spec (Z.of_nat (length out0)) cap); [|lia]. rewrite bind_Done.
    apply IH; rewrite length_app; cbn; lia. }
  assert (Hinv : forall m out out',
            copy_back cap m out d = Done out' ->
            length out' = (length out + m)%nat /\
            take (length out) out' = out /\
            (Z.of_nat (length out') <= cap \/ m = 0%nat) /\
            ((0 < m)%nat -> d <= Z.of_nat (length out)) /\
            (1 <= d -> forall j : nat, (length out <= j < length out')%nat ->
               out' !! j = out' !! (j - Z.to_nat d)%nat) /\
            (d = 0 -> forall j : nat, (length out <= j < length out')%nat ->
               out' !! j = Some indeterminate)).
  { clear Hn. induction m as [|m IH]; intros out0 out'; cbn [copy_back].
    - intros [= <-]. rewrite Nat.add_0_r, take_ge by lia.
      split; [done|]. split; [done|]. split; [by right|].
      split; [lia|]. split; intros ? j Hj; lia.
    - intros (o & (Hd & -> & Hc)%emit_back_ext & Hrest)%bind_Done_inv.
      set (v := default indeterminate (out0 !! Z.to_nat (Z.of_nat (length out0) - d))) in *.
      apply IH in Hrest as (Hl & Ht & Hc' & _ & Hper & Hself).
      rewrite length_app in *. cbn [length] in *.
      assert (Hpre : take (S (length out0)) out' = out0 ++ [v]).
      { rewrite <- Ht. f_equal. lia. }
      assert (Hl1 : out' !! length out0 = Some v).
      { rewrite <- (lookup_take_lt out' (S (length out0))) by lia.
        rewrite Hpre. rewrite lookup_app_r by lia. by rewrite Nat.sub_diag. }
      split; [lia|]. split; [|split; [|split; [done|split]]].
      + transitivity (take (length out0) (take (S (length out0)) out')).
        * rewrite take_take. f_equal. lia.
        * rewrite Hpre. apply take_app_length.
      + left. destruct Hc' as [?|E0]; [done|]. subst m. lia.
      + intros Hd1 j Hj. destruct (decide (j = length out0)) as [->|Hne]; [|apply Hper; lia].
        destruct (lookup_lt_is_Some_2 out0 (Z.to_nat (Z.of_nat (length out0) - d))
                    ltac:(lia)) as [b Hlook].
        assert (Hl2 : out' !! (length out0 - Z.to_nat d)%nat = Some b).
        { rewrite <- (lookup_take_lt out' (S (length out0))) by lia.
          rewrite Hpre. rewrite lookup_app_l by lia. rewrite <- Hlook. f_equal. lia. }
        rewrite Hl1, Hl2. subst v. by rewrite Hlook.
      + intros -> j Hj. destruct (decide (j = length out0)) as [->|Hne]; [|apply Hself; [done|lia]].
        rewrite Hl1. subst v. rewrite lookup_ge_None_2 by lia. done. }
  split; [split|].
  - intros [Hd Hc]. by apply Hrun.
  - intros [out' Hout]. apply Hinv in Hout as (Hl & _ & Hc & Hd & _).
    split; [by apply Hd|]. destruct Hc as [Hc|Hc]; lia.
  - intros out' Hout. apply Hinv in Hout as (Hl & Ht & _ & _ & Hper & Hself). done.
Qed.

Lemma copy_back_spec_witness :
  ((2 <= Z.of_nat (length [65; 66]) /\ Z.of_nat (length [65; 66]) + Z.of_nat 5 <= 8
    <-> exists out', copy_back 8 5 [65; 66] 2 = Done out') /\
   forall out', copy_back 8 5 [65; 66] 2 = Done out' ->
     length out' = (length [65; 66] + 5)%nat /\
     take (length [65; 66]) out' = [65; 66] /\
     (1 <= 2 -> forall j : nat, (length [65; 66] <= j < length out')%nat ->
        out' !! j = out' !! (j - Z.to_nat 2)%nat) /\
     (2 = 0 -> forall j : nat, (length [65; 66] <= j < length out')%nat ->
        out' !! j = Some indeterminate)) /\
  ((0 <= Z.of_nat (length [65]) /\ Z.of_nat (length [65]) + Z.of_nat 2 <= 8
    <-> exists out', copy_back 8 2 [65] 0 = Done out') /\
   forall out', copy_back 8 2 [65] 0 = Done out' ->
     length out' = (length [65] + 2)%nat /\
     take (length [65]) out' = [65] /\
     (1 <= 0 -> forall j : nat, (length [65] <= j < length out')%nat ->
        out' !! j = out' !! (j - Z.to_nat 0)%nat) /\
     (0 = 0 -> forall j : nat, (length [65] <= j < length out')%nat ->
        out' !! j = Some indeterminate)).
Proof.
  split.
  - apply (copy_back_spec 8 5 [65; 66] 2); lia.
  - apply (copy_back_spec 8 2 [65] 0); lia.
Defined.

End OutputFacts.

(** ** The XOR pass and the checksum of descrambler2 *)

Module XorFacts.
Import Gust.

Ltac xor_bits :=
  apply Z.bits_inj'; intros ? _; rewrite !Z.lxor_spec;
  repeat match goal with |- context [Z.testbit ?x ?n] => destruct (Z.testbit x n) end;
  reflexivity.

(** Two bytes masked with the same value differ as they did before. *)
Lemma mask_cancel (a b k : Z) :
  is_byte a -> is_byte b ->
  Z.lxor (wrap8 (Z.lxor b k)) (wrap8 (Z.lxor a k)) = Z.lxor b a.
Proof.
  intros Ha Hb. apply byte_ext.
  - apply lxor_byte; apply wrap8_byte.
  - by apply lxor_byte.
  - intros j Hj. rewrite !Z.lxor_spec, !testbit_wrap8, !Z.lxor_spec by lia.
    destruct (Z.ltb_spec j 8); [|lia]. cbn.
    destruct (Z.testbit a j), (Z.testbit b j), (Z.testbit k j); done.
Qed.

(** The XOR pass on two buffers of the same size, side by side: the state
    it goes through does not depend on the bytes. *)
Lemma xor_loop_sim (seed0 : Z) (lengths : arr3) (n : nat) :
  forall (i : Z) (A B : list Z) (st : xor_state),
  byte_buf A -> byte_buf B -> length A = length B ->
  0 <= i -> i + Z.of_nat n <= Z.of_nat (length A) ->
  exists A' B' st',
    xor_loop n i A seed0 lengths st = Done (A', st') /\
    xor_loop n i B seed0 lengths st = Done (B', st') /\
    byte_buf A' /\ byte_buf B' /\ length A' = length A /\ length B' = length B /\
    forall j : nat, cell B' j = Z.lxor (cell B j) (Z.lxor (cell A j) (cell A' j)).
Proof.
  induction n as [|n IH]; intros i A B st HA HB Hlen Hi Hn.
  - exists A, B, st. do 6 (split; [done|]). intros j.
    by rewrite Z.lxor_nilpotent, Z.lxor_0_r.
  - cbn [xor_loop]. rewrite (rd_Done A), (rd_Done B) by lia. rewrite !bind_Done.
    rewrite (wr_Done A), (wr_Done B) by lia. rewrite !bind_Done.
    set (k := Z.shiftr (wrap32 (seed0 * seed1 st + SEED_INCREMENT)) 16).
    set (a := cell A (Z.to_nat i)). set (b := cell B (Z.to_nat i)).
    set (A1 := <[Z.to_nat i := wrap8 (Z.lxor a k)]> A).
    set (B1 := <[Z.to_nat i := wrap8 (Z.lxor b k)]> B).
    assert (HA1 : byte_buf A1) by (apply byte_buf_insert; [done|apply wrap8_byte]).
    assert (HB1 : byte_buf B1) by (apply byte_buf_insert; [done|apply wrap8_byte]).
    assert (HlA : length A1 = length A) by apply length_insert.
    assert (HlB : length B1 = length B) by apply length_insert.
    assert (Hnext : forall st1, exists A' B' st',
              xor_loop n (i + 1) A1 seed0 lengths st1 = Done (A', st') /\
              xor_loop n (i + 1) B1 seed0 lengths st1 = Done (B', st') /\
              byte_buf A' /\ byte_buf B' /\ length A' = length A /\ length B' = length B /\
              forall j : nat, cell B' j = Z.lxor (cell B j) (Z.lxor (cell A j) (cell A' j))).
    { intros st1.
      destruct (IH (i + 1) A1 B1 st1 HA1 HB1 ltac:(lia) ltac:(lia) ltac:(lia))
        as (A' & B' & st' & RA & RB & HA' & HB' & LA & LB & Hcell).
      exists A', B', st'. do 4 (split; [done|]). split; [lia|]. split; [lia|].
      intros j. rewrite Hcell. destruct (decide (j = Z.to_nat i)) as [->|Hne].
      - subst A1 B1. rewrite !cell_insert_eq by lia. fold a b.
        rewrite <- !Z.lxor_assoc.
        rewrite mask_cancel by (apply cell_byte; done). done.
      - subst A1 B1. by rewrite !cell_insert_ne by done. }
    destruct (_ >=? _); [destruct (_ >=? 3)|]; apply Hnext.
Qed.

(** X13.  The XOR pass of [descrambler2] is a stream cipher whose key stream
    does not depend on the data: on two buffers of the same size it ends in
    the same state, the one written back to [seeds->table], and the two
    outputs differ exactly where, and as, the two inputs differ. *)
Theorem xor_pass_data_independent (seed0 : Z) (lengths : arr3) (st : xor_state)
    (A B : list Z) (n : nat) :
  byte_buf A -> byte_buf B -> length A = length B -> (n <= length A)%nat ->
  exists A' B' st',
    xor_loop n 0 A seed0 lengths st = Done (A', st') /\
    xor_loop n 0 B seed0 lengths st = Done (B', st') /\
    forall j : nat, Z.lxor (cell A' j) (cell B' j) = Z.lxor (cell A j) (cell B j).
Proof.
  intros HA HB Hlen Hn.
  destruct (xor_loop_sim seed0 lengths n 0 A B st HA HB Hlen ltac:(lia) ltac:(lia))
    as (A' & B' & st' & RA & RB & _ & _ & _ & _ & Hcell).
  exists A', B', st'. split; [done|]. split; [done|]. intros j. rewrite Hcell.
  xor_bits.
Qed.

Lemma xor_pass_data_independent_witness :
  exists A' B' st',
    xor_loop 3 0 [1; 2; 3; 4] 7 (2, 2, 2) (xor_init demo_seeds) = Done (A', st') /\
    xor_loop 3 0 [9; 9; 9; 9] 7 (2, 2, 2) (xor_init demo_seeds) = Done (B', st') /\
    forall j : nat, Z.lxor (cell A' j) (cell B' j)
                    = Z.lxor (cell [1; 2; 3; 4] j) (cell [9; 9; 9; 9] j).
Proof.
  apply (xor_pass_data_independent 7 (2, 2, 2) (xor_init demo_seeds) [1; 2; 3; 4] [9; 9; 9; 9] 3).
  - apply (bool_decide_unpack _). vm_compute. exact I.
  - apply (bool_decide_unpack _). vm_compute. exact I.
  - reflexivity.
  - cbn. lia.
Defined.

(** X14.  The XOR pass is its own inverse: run again from the same state on
    its own output, it gives the input back.  Scrambling a payload for
    [descrambler2] is therefore the same loop. *)
Theorem xor_pass_involutive (seed0 : Z) (lengths : arr3) (st : xor_state)
    (buf : list Z) (n : nat) :
  byte_buf buf -> (n <= length buf)%nat ->
  exists buf' st',
    xor_loop n 0 buf seed0 lengths st = Done (buf', st') /\
    xor_loop n 0 buf' seed0 lengths st = Done (buf, st').
Proof.
  intros Hb Hn.
  destruct (xor_loop_sim seed0 lengths n 0 buf buf st Hb Hb eq_refl ltac:(lia) ltac:(lia))
    as (buf' & _ & st' & R1 & _ & Hb' & _ & Hl & _ & _).
  destruct (xor_loop_sim seed0 lengths n 0 buf buf' st Hb Hb' ltac:(lia) ltac:(lia) ltac:(lia))
    as (A' & B' & st'' & RA & RB & _ & _ & _ & HlB & Hcell).
  rewrite R1 in RA. injection RA as <- <-.
  exists buf', st'. split; [done|]. rewrite RB. do 2 f_equal.
  apply list_eq. intros j. destruct (decide (j < length buf)%nat) as [Hj|Hj].
  - rewrite !lookup_cell by lia. f_equal. rewrite Hcell.
    xor_bits.
  - rewrite !lookup_ge_None_2; [done|lia|lia].
Qed.

Lemma xor_pass_involutive_witness :
  exists buf' st',
    xor_loop 3 0 [1; 2; 3; 4] 7 (2, 2, 2) (xor_init demo_seeds) = Done (buf', st') /\
    xor_loop 3 0 buf' 7 (2, 2, 2) (xor_init demo_seeds) = Done ([1; 2; 3; 4], st').
Proof.
  apply (xor_pass_involutive 7 (2, 2, 2) (xor_init demo_seeds) [1; 2; 3; 4] 3).
  - apply (bool_decide_unpack _). vm_compute. exact I.
  - cbn. lia.
Defined.

Lemma checksum_step_comm (c : Z * Z) (v w : Z) :
  checksum_step (checksum_step c v) w = checksum_step (checksum_step c w) v.
Proof.
  unfold checksum_step. cbn [fst snd]. f_equal.
  - rewrite !Z.lxor_assoc. f_equal. apply Z.lxor_comm.
  - unfold wrap32. rewrite !Zminus_mod_idemp_l. f_equal. lia.
Qed.

Lemma checksum_fold_perm (ws ws' : list Z) :
  ws ≡ₚ ws' -> forall c, foldl checksum_step c ws = foldl checksum_step c ws'.
Proof.
  induction 1 as [|w ws ws' _ IH|v w ws|ws1 ws2 ws3 _ IH1 _ IH2]; intros c; cbn.
  - done.
  - apply IH.
  - by rewrite checksum_step_comm.
  - by rewrite IH1.
Qed.

(** X15.  The checksum of [descrambler2] is blind to the order of the
    32-bit words: two payloads that hold the same words in any order have
    the same checksum pair, so the check accepts one exactly when it accepts
    the other. *)
Theorem checksum_order_blind (buf buf' : list Z) (n : nat) :
  4 * Z.of_nat n <= Z.of_nat (length buf) -> 4 * Z.of_nat n <= Z.of_nat (length buf') ->
  be_words buf (4 * Z.of_nat n) ≡ₚ be_words buf' (4 * Z.of_nat n) ->
  exists c, checksum_loop n 0 buf (0, 0) = Done c /\ checksum_loop n 0 buf' (0, 0) = Done c.
Proof.
  intros Hl Hl' Hperm. unfold be_words in Hperm.
  replace (4 * Z.of_nat n / 4) with (Z.of_nat n) in Hperm by zlia.
  pose proof (D2Facts.checksum_loop_spec buf n 0 (0, 0) ltac:(lia) ltac:(lia)) as R.
  pose proof (D2Facts.checksum_loop_spec buf' n 0 (0, 0) ltac:(lia) ltac:(lia)) as R'.
  change (4 * 0) with 0 in R, R'. rewrite R, R'. eexists. split; [done|].
  f_equal. symmetry. by apply checksum_fold_perm.
Qed.

Lemma checksum_order_blind_witness :
  exists c, checksum_loop 2 0 [0; 0; 0; 1; 0; 0; 0; 2] (0, 0) = Done c /\
            checksum_loop 2 0 [0; 0; 0; 2; 0; 0; 0; 1] (0, 0) = Done c.
Proof.
  apply (checksum_order_blind [0; 0; 0; 1; 0; 0; 0; 2] [0; 0; 0; 2; 0; 0; 0; 1] 2).
  - cbn. lia.
  - cbn. lia.
  - vm_compute. apply perm_swap.
Defined.

End XorFacts.

(** ** descrambler1 on a buffer of odd size *)

Module OddSizeFacts.
Import Gust.

(** The 16-bit loop steps by two up to [buf_size]: on an odd size its last
    word starts at the last byte. *)
Lemma d1_loop_odd (fence : Z) (n : nat) : forall i buf seed,
  fence <> 0 -> 0 <= i -> (0 < n)%nat ->
  i + 2 * Z.of_nat n = Z.of_nat (length buf) + 1 ->
  d1_loop n i buf seed fence = Crash OutOfBounds.
Proof.
  induction n as [|n IH]; intros i buf seed Hf Hi Hn Hlen; [lia|].
  cbn [d1_loop]. unfold Util.getbe16.
  destruct (decide (n = 0%nat)) as [->|Hne].
  - rewrite (rd_Done buf i) by lia. rewrite bind_Done.
    rewrite (rd_Crash buf (i + 1)) by lia. done.
  - rewrite !rd_Done by lia. rewrite !bind_Done.
    destruct (Z.eqb_spec fence 0); [done|].
    unfold Util.setbe16. rewrite wr_Done by lia. rewrite bind_Done.
    rewrite wr_Done by (rewrite length_insert; lia).
    rewrite bind_Done. apply IH; [done|lia|lia|].
    rewrite !length_insert. lia.
Qed.

(** X16.  [descrambler1] needs an even [buf_size]: on a buffer of odd size
    of at least 0x800 bytes the call ends in an access outside its buffers,
    and whatever the chunk pass has left in the buffer, the last iteration
    of the 16-bit loop reads its big-endian word at [buf[buf_size - 1]], one
    byte of which lies behind the buffer. *)
Theorem descrambler1_odd_size (buf : list Z) (seeds : seed_data) :
  let buf_size := Z.of_nat (length buf) in
  byte_buf buf -> 0x800 <= buf_size -> buf_size mod 2 = 1 ->
  seeds_fence seeds <> 0 ->
  descrambler1 buf buf_size seeds = Crash OutOfBounds /\
  forall (buf' : list Z) (seed : Z * Z), length buf' = length buf ->
    d1_loop (Z.to_nat ((buf_size + 1) / 2)) 0 buf' seed (seeds_fence seeds)
    = Crash OutOfBounds.
Proof.
  intros buf_size Hb Hsize Hodd Hf. split.
  - unfold descrambler1. cbv zeta.
    assert (Hmin : Util.min buf_size 0x800 = 0x800).
    { unfold Util.min. destruct (Z.ltb_spec buf_size 2048); [lia|done]. }
    rewrite Hmin.
    rewrite DescrambleFacts.descramble_chunk_overrun; [done|lia|].
    vm_compute. discriminate.
  - intros buf' seed Hl. apply d1_loop_odd; [done|lia| |].
    + assert (0 < (buf_size + 1) / 2) by zlia. lia.
    + rewrite Hl. fold buf_size. rewrite Z2Nat.id by zlia. zlia.
Qed.

Lemma descrambler1_odd_size_witness :
  descrambler1 (replicate 0x801 0) 0x801 demo_seeds = Crash OutOfBounds /\
  d1_loop (Z.to_nat 0x401) 0 (replicate 0x801 0xFF) (SEED_CONSTANT, 0x22) 7
  = Crash OutOfBounds.
Proof.
  assert (H := descrambler1_odd_size (replicate 0x801 0) demo_seeds).
  rewrite length_replicate in H. cbv zeta in H.
  destruct H as [H1 H2].
  - apply Forall_replicate. unfold is_byte. lia.
  - lia.
  - reflexivity.
  - cbn. lia.
  - split; [exact H1|]. apply (H2 (replicate 0x801 0xFF) (SEED_CONSTANT, 0x22)).
    by rewrite !length_replicate.
Defined.

End OddSizeFacts.

(** ** main of gust_enc.c *)

Module MainFacts.
Import Gust GustMain.

Lemma rd_cases (buf : list Z) (i : Z) :
  (exists b, rd buf i = Done b) \/ rd buf i = Crash OutOfBounds.
Proof. unfold rd. repeat case_match; eauto. Qed.

Lemma getbe32_cases (buf : list Z) (i : Z) :
  0 <= i ->
  (i + 4 <= Z.of_nat (length buf) /\ Util.getbe32 buf i = Done (be32_at buf i)) \/
  (Z.of_nat (length buf) < i + 4 /\ Util.getbe32 buf i = Crash OutOfBounds).
Proof.
  intros Hi. destruct (Z.le_gt_cases (i + 4) (Z.of_nat (length buf))) as [Hle|Hgt].
  - left. split; [done|]. by apply D2Facts.getbe32_Done.
  - right. split; [lia|]. unfold Util.getbe32.
    destruct (Z.lt_ge_cases i (Z.of_nat (length buf))); [|by rewrite (rd_Crash buf i) by lia].
    rewrite (rd_Done buf i), bind_Done by lia.
    destruct (Z.lt_ge_cases (i + 1) (Z.of_nat (length buf)));
      [|by rewrite (rd_Crash buf (i + 1)) by lia].
    rewrite (rd_Done buf (i + 1)), bind_Done by lia.
    destruct (Z.lt_ge_cases (i + 2) (Z.of_nat (length buf)));
      [|by rewrite (rd_Crash buf (i + 2)) by lia].
    rewrite (rd_Done buf (i + 2)), bind_Done by lia.
    by rewrite (rd_Crash buf (i + 3)) by lia.
Qed.

(** On an empty chunk the chunk pass of [descrambler1] leaves its buffers:
    with exactly [table_size] elements allocated for [base_table] in the
    table loop, and otherwise in the first bit swap. *)
Lemma descramble_chunk_nil (behind : list Z) (seed : Z * Z) :
  descramble_chunk behind [] 0x800 seed 0x100 = Crash OutOfBounds.
Proof.
  destruct behind as [|b0 behind].
  { apply DescrambleFacts.descramble_chunk_overrun; [lia|vm_compute; discriminate]. }
  rewrite (DescrambleFacts.descramble_chunk_first _ _ _ _ _ 2047);
    [|done|reflexivity|vm_compute; discriminate].
  cbv zeta. change (wrap32 (Z.shiftl 256 3)) with 2048.
  pose proof (ChunkFacts.scrambling_table_props 2048 seed ltac:(lia)) as (_ & _ & Hlen).
  cbv zeta in Hlen.
  destruct (shuffle (Z.to_nat 2048) (base_table 2048) seed) as [tbl seed'].
  cbn [fst] in Hlen. destruct tbl as [|s0 [|s1 tbl]]; [cbn in Hlen; lia..|].
  cbn [swap_loop].
  change (0 <? Util.min 2048 (wrap32 (Z.shiftl 2048 3))) with true. cbv iota.
  unfold swap_bits. cbv zeta. rewrite (rd_Crash []) by (cbn; lia). done.
Qed.

Lemma descrambler1_nil (buf_size : Z) (seeds : seed_data) :
  0x800 <= buf_size -> descrambler1 [] buf_size seeds = Crash OutOfBounds.
Proof.
  intros Hsize. unfold descrambler1. cbv zeta.
  assert (Hmin : Util.min buf_size 0x800 = 0x800).
  { unfold Util.min. destruct (Z.ltb_spec buf_size 2048); [lia|done]. }
  rewrite Hmin, drop_nil, descramble_chunk_nil. done.
Qed.

(** X18.  [main] does not check that the file holds the 16-byte header it
    skips.  On a file shorter than that, unless the type check rejects it,
    the program reads outside the buffer: in the header itself, or in
    [descrambler1], which is handed a size that has wrapped around, so that
    its chunk pass runs on 0x800 bytes of a stream that holds none. *)
Theorem decode_file_short (seeds : seed_data) (file : list Z) :
  Z.of_nat (length file) < 16 ->
  (decode_file seeds file = Crash OutOfBounds \/
   (4 <= Z.of_nat (length file) /\ be32_at file 0 <> 2 /\
    decode_file seeds file = Done (inl (InvalidType (be32_at file 0))))) /\
  forall (behind : list Z) (seed : Z * Z),
    descramble_chunk behind (drop 16 file) 0x800 seed 0x100 = Crash OutOfBounds.
Proof.
  intros Hshort. split.
  2:{ intros behind seed. rewrite drop_ge by lia. apply descramble_chunk_nil. }
  unfold decode_file. cbv zeta.
  destruct (getbe32_cases file 0 ltac:(lia)) as [[H4 ->]|[_ ->]]; [|by left].
  rewrite bind_Done.
  destruct (Z.eqb_spec (be32_at file 0) 2) as [Htype|Htype]; cbn [negb]; [|by right].
  left. destruct (getbe32_cases file 4 ltac:(lia)) as [[H8 ->]|[_ ->]]; [|done].
  rewrite bind_Done, drop_ge by lia. rewrite descrambler1_nil; [done|].
  unfold wrap32. zlia.
Qed.

Lemma decode_file_short_witness :
  (decode_file demo_seeds [0; 0; 0; 2; 0; 0; 0; 1] = Crash OutOfBounds \/
   (4 <= Z.of_nat (length [0; 0; 0; 2; 0; 0; 0; 1]) /\ be32_at [0; 0; 0; 2; 0; 0; 0; 1] 0 <> 2 /\
    decode_file demo_seeds [0; 0; 0; 2; 0; 0; 0; 1]
    = Done (inl (InvalidType (be32_at [0; 0; 0; 2; 0; 0; 0; 1] 0))))) /\
  forall (behind : list Z) (seed : Z * Z),
    descramble_chunk behind (drop 16 [0; 0; 0; 2; 0; 0; 0; 1]) 0x800 seed 0x100
    = Crash OutOfBounds.
Proof. apply (decode_file_short demo_seeds [0; 0; 0; 2; 0; 0; 0; 1]). cbn. lia. Defined.

End MainFacts.

(** ** The layout detection on archives below 4 GiB *)

Module SmallOffsetFacts.
Import Pak.

Lemma sum_abs_deltas_zeros (l : list Z) :
  Forall (fun v => v = 0) l -> sum_abs_deltas (0 :: l) = 0.
Proof.
  induction 1 as [|b l -> _ IH]; [done|].
  rewrite DetectFacts.sum_abs_deltas_cons, IH. done.
Qed.

(** X19.  On a 64-bit entry table whose sampled [data_offset]s are all
    below 4 GiB the detection cannot select the 32-bit layout, whatever
    else the table holds: the upper halves it sums for the 64-bit
    candidate are all zero, and no sum is smaller than zero. *)
Theorem is_pak32_small_offsets (nb_entries : Z) (entries : list Z) :
  0 <= nb_entries -> byte_buf entries ->
  168 * nb_entries <= Z.of_nat (length entries) ->
  (forall i, 0 <= i < Z.min nb_entries 64 -> le64_at entries (168 * i + 152) < 2 ^ 32) ->
  is_pak32 nb_entries entries = Done false.
Proof.
  intros Hnb Hb Hlen Hsmall. unfold is_pak32.
  assert (Hmin : Util.min nb_entries 64 = Z.min nb_entries 64).
  { unfold Util.min. destruct (Z.ltb_spec nb_entries 64); lia. }
  rewrite Hmin. set (n := Z.min nb_entries 64) in *.
  destruct (DetectFacts.detect_loop_spec entries Hb (Z.to_nat n) 0 (mk_detect 0 0 0 0))
    as (st & -> & H0 & H1); cbn [sum0 sum1 last0 last1]; try lia.
  rewrite bind_Done. cbn [sum0 sum1 last0 last1] in H0, H1.
  rewrite Z2Nat.id in H0, H1 by lia.
  assert (Hz : sum1 st = 0).
  { rewrite H1, Z.add_0_l. apply sum_abs_deltas_zeros.
    apply Forall_fmap, Forall_forall. intros i Hi. cbn.
    apply elem_of_seqZ in Hi. specialize (Hsmall i ltac:(lia)).
    unfold le64_at in Hsmall. unfold high_word.
    replace (168 * i + 156) with (168 * i + 152 + 4) by lia.
    pose proof (le32_at_range entries (168 * i + 152) Hb).
    pose proof (le32_at_range entries (168 * i + 152 + 4) Hb). lia. }
  assert (Hpos : 0 <= sum0 st).
  { rewrite H0, Z.add_0_l.
    apply DetectFacts.sum_abs_deltas_bound; [lia|].
    apply DetectFacts.words_range. intros j. by apply le32_at_range. }
  rewrite Hz. f_equal. apply Z.ltb_ge. done.
Qed.

Lemma is_pak32_small_offsets_witness : is_pak32 2 wide_entries = Done false.
Proof.
  apply (is_pak32_small_offsets 2 wide_entries).
  - lia.
  - apply (bool_decide_unpack _). vm_compute. exact I.
  - vm_compute. discriminate.
  - intros i Hi. change (Z.min 2 64) with 2 in Hi.
    assert (i = 0 \/ i = 1) as [->| ->] by lia; vm_compute; reflexivity.
Defined.

End SmallOffsetFacts.

(** ** Stored streams *)

Module StoreFacts.
Import Gust Bitstream.

Lemma be32_compose (v : Z) :
  0 <= v < 2 ^ 32 ->
  Z.lor (Z.lor (Z.lor (Z.shiftl (wrap8 (Z.shiftr v 24)) 24)
                      (Z.shiftl (wrap8 (Z.shiftr v 16)) 16))
               (Z.shiftl (wrap8 (Z.shiftr v 8)) 8))
        (wrap8 v) = v.
Proof.
  intros Hv. apply Z.bits_inj'. intros n Hn.
  rewrite !Z.lor_spec, !Z.shiftl_spec by lia.
  assert (H : forall k, 0 <= k ->
            Z.testbit (wrap8 (Z.shiftr v k)) (n - k)
            = (k <=? n) && (n <? k + 8) && Z.testbit v n).
  { intros k Hk. destruct (Z.leb_spec k n).
    - rewrite testbit_wrap8, Z.shiftr_spec by lia.
      replace (n - k + k) with n by lia.
      destruct (Z.ltb_spec (n - k) 8), (Z.ltb_spec n (k + 8)); try lia; done.
    - by rewrite Z.testbit_neg_r by lia. }
  rewrite !H, testbit_wrap8 by lia.
  destruct (Z.lt_ge_cases n 32) as [Hlt|Hge].
  - destruct (Z.leb_spec 24 n), (Z.leb_spec 16 n), (Z.leb_spec 8 n),
      (Z.ltb_spec n (24 + 8)), (Z.ltb_spec n (16 + 8)), (Z.ltb_spec n (8 + 8)),
      (Z.ltb_spec n 8); try lia; cbn; by rewrite ?orb_false_r.
  - rewrite <- (Z.mod_small v (2 ^ 32)) by lia.
    rewrite Z.mod_pow2_bits_high by lia. by rewrite !andb_false_r.
Qed.

Lemma rd_app_r (pre l : list Z) (j : Z) :
  0 <= j -> rd (pre ++ l) (Z.of_nat (length pre) + j) = rd l j.
Proof.
  intros Hj. unfold rd.
  destruct (Z.ltb_spec (Z.of_nat (length pre) + j) 0), (Z.ltb_spec j 0); try lia.
  rewrite lookup_app_r by lia.
  replace (Z.to_nat (Z.of_nat (length pre) + j) - length pre)%nat with (Z.to_nat j) by lia.
  done.
Qed.

Lemma getbe32_app_r (pre l : list Z) (j : Z) :
  0 <= j -> Util.getbe32 (pre ++ l) (Z.of_nat (length pre) + j) = Util.getbe32 l j.
Proof.
  intros Hj. unfold Util.getbe32.
  rewrite <- !Z.add_assoc, !rd_app_r by lia. done.
Qed.

Lemma getbe32_bytes (v : Z) (l : list Z) :
  0 <= v < 2 ^ 32 -> Util.getbe32 (be32_bytes v ++ l) 0 = Done v.
Proof.
  intros Hv. rewrite D2Facts.getbe32_Done by (cbn; lia). f_equal.
  unfold be32_at, be32_bytes, cell. cbn -[wrap8 Z.shiftr Z.shiftl Z.lor].
  by apply be32_compose.
Qed.

Lemma getbe32_at (pre l : list Z) (v i : Z) :
  0 <= v < 2 ^ 32 -> i = Z.of_nat (length pre) ->
  Util.getbe32 (pre ++ be32_bytes v ++ l) i = Done v.
Proof.
  intros Hv ->. rewrite <- (Z.add_0_r (Z.of_nat (length pre))).
  rewrite getbe32_app_r by lia. by apply getbe32_bytes.
Qed.

(** *** The code table of a run of 1 bits *)

Lemma ones_left_within (k : Z) (ctx : getbits_ctx) (a : Z) :
  0 <= k -> ones_left k ctx a -> within ctx.
Proof.
  intros Hk (j & _ & _ & _ & Hs & Hp & Ht & _). unfold within. split; [lia|].
  rewrite Hs. apply (f_equal length) in Ht.
  rewrite length_take, length_replicate in Ht. lia.
Qed.

Lemma getbit_one (k : Z) (ctx : getbits_ctx) (a : Z) :
  0 <= k -> ones_left k ctx a -> 0 < a ->
  exists ctx', getbits ctx 1 = Done (1, ctx') /\ ones_left k ctx' (a - 1).
Proof.
  intros Hk (j & Hj & Hm & Hb & Hs & Hp & Ht & ->) Ha.
  unfold getbits. change (Z.to_nat 1) with 1%nat. cbn [getbits_loop].
  destruct (decide (j = 0)) as [->|Hj0].
  - change (Z.shiftr 128 (8 - 0)) with 0 in Hm. rewrite Hm. change (0 =? 0) with true.
    cbn [andb]. rewrite Hs. destruct (Z.geb_spec (pos ctx) k) as [|Hlt]; [lia|].
    assert (Hlook : buffer ctx !! Z.to_nat (pos ctx) = Some 0xFF).
    { rewrite <- (lookup_take_lt _ (Z.to_nat k)) by lia. rewrite Ht.
      apply lookup_replicate_2. lia. }
    unfold rd. destruct (Z.ltb_spec (pos ctx) 0); [lia|]. rewrite Hlook, !bind_Done.
    cbn [buffer size pos getbits_buffer getbits_mask].
    change (Z.land 255 128 =? 0) with false. cbv iota.
    eexists. split; [reflexivity|]. exists 7. cbn [buffer size pos getbits_buffer getbits_mask].
    split; [lia|]. split; [done|]. split; [done|]. split; [done|]. split; [lia|].
    split; [done|lia].
  - assert (Hcases : j = 1 \/ j = 2 \/ j = 3 \/ j = 4 \/ j = 5 \/ j = 6 \/ j = 7 \/ j = 8) by lia.
    assert (Hmask : (getbits_mask ctx =? 0) = false /\
                    (Z.land 255 (getbits_mask ctx) =? 0) = false /\
                    Z.shiftr (getbits_mask ctx) 1 = Z.shiftr 0x80 (8 - (j - 1))).
    { rewrite Hm. destruct Hcases as [->|[->|[->|[->|[->|[->|[->| ->]]]]]]]; done. }
    destruct Hmask as (Hm0 & Hm1 & Hm'). rewrite Hm0. cbn [andb]. rewrite bind_Done.
    rewrite (Hb ltac:(lia)), Hm1.
    eexists. split; [reflexivity|]. exists (j - 1).
    cbn [buffer size pos getbits_buffer getbits_mask].
    split; [lia|]. split; [done|]. split; [done|]. split; [done|].
    split; [done|]. split; [done|lia].
Qed.

Lemma code_table_ones (k : Z) (m : nat) : forall (ctx : getbits_ctx) (a : Z) (acc : list Z),
  0 <= k -> ones_left k ctx a -> Z.of_nat m <= a + 1 ->
  code_table_loop m 1 ctx acc = Done (acc ++ replicate m 1).
Proof.
  induction m as [|m IH]; intros ctx a acc Hk Hones Hm; cbn [code_table_loop].
  - by rewrite app_nil_r.
  - change (1 =? EOF32) with false. change (1 =? 1) with true. cbv iota.
    assert (Ha : 0 <= a).
    { destruct Hones as (j & ? & _ & _ & _ & ? & _ & ->). lia. }
    destruct (decide (a = 0)) as [->|Hne].
    + assert (m = 0%nat) as -> by lia.
      destruct (BitstreamFacts.getbits_step ctx 1 (ones_left_within _ _ _ Hk Hones))
        as (c & ctx' & -> & _). rewrite bind_Done. done.
    + destruct (getbit_one k ctx a Hk Hones ltac:(lia)) as (ctx' & -> & Hones').
      rewrite bind_Done, (IH ctx' (a - 1)) by (done || lia).
      by rewrite <- app_assoc.
Qed.

Lemma length_be32_bytes (v : Z) : length (be32_bytes v) = 4%nat.
Proof. done. Qed.

Lemma build_code_table_store (n : nat) (tail : list Z) :
  Z.of_nat n < 2 ^ 32 ->
  build_code_table (store_bitstream n ++ tail) (Z.of_nat (length (store_bitstream n)))
  = Done (Z.of_nat n, replicate n 1).
Proof.
  intros Hn. unfold build_code_table, store_bitstream.
  rewrite <- app_assoc, getbe32_bytes, bind_Done by lia.
  rewrite (drop_app_length' (be32_bytes (Z.of_nat n))) by done.
  rewrite length_app, length_be32_bytes, length_replicate.
  set (k := Z.of_nat (S (n / 8))).
  replace (wrap32 (Z.of_nat (4 + S (n / 8)) - 4)) with k.
  2:{ unfold wrap32, k. pose proof (Nat.div_mod_eq n 8).
      rewrite Z.mod_small; lia. }
  assert (Hk : 0 <= k) by lia.
  assert (Hones : ones_left k (mk_ctx (replicate (S (n / 8)) 0xFF ++ tail) k 0 0 0) (8 * k)).
  { exists 0. cbn [buffer size pos getbits_buffer getbits_mask].
    split; [lia|]. split; [done|]. split; [lia|]. split; [done|]. split; [lia|].
    split; [|lia]. unfold k. rewrite Nat2Z.id.
    rewrite take_app_length'; [done|by rewrite length_replicate]. }
  destruct (getbit_one k _ _ Hk Hones ltac:(lia)) as (ctx' & -> & Hones').
  rewrite bind_Done, Nat2Z.id.
  rewrite (code_table_ones k n ctx' (8 * k - 1)); [done|done|done|].
  unfold k. pose proof (Nat.div_mod_eq n 8). pose proof (Nat.mod_upper_bound n 8). lia.
Qed.

(** *** The opcode loop on a table of opcodes 01 *)

Section Literals.
Variables (src data : list Z) (dbase lenp max_len : Z).
Hypothesis data_bytes : byte_buf data.
Hypothesis data_at : forall i : nat, (i < length data)%nat ->
  rd src (dbase + Z.of_nat i) = Done (cell data i).
Hypothesis len_ok : lenp <= max_len.

Lemma store_loop (fuel : nat) : forall i : nat,
  (i <= length data)%nat -> (length data - i < fuel)%nat ->
  let n := Z.of_nat (length data) in
  glaze_loop src (replicate (length data) 1) n n fuel n (dbase + n) max_len
    (mk_state (Z.of_nat i) (dbase + Z.of_nat i) lenp (take i data))
  = Done (mk_glaze n None data).
Proof.
  induction fuel as [|fuel IH]; intros i Hi Hfuel n; [lia|].
  cbn [glaze_loop dst code dict len]. rewrite length_take.
  destruct (Z.ltb_spec (Z.of_nat (i `min` length data)) n) as [Hlt|Hge].
  - assert (Hi' : (i < length data)%nat) by lia.
    destruct (Z.gtb_spec (dbase + Z.of_nat i) (dbase + n)); [lia|].
    destruct (Z.gtb_spec lenp max_len); [lia|].
    destruct (Z.gtb_spec (Z.of_nat i) n); [lia|]. cbn [orb].
    assert (Hop : rd_code (replicate (length data) 1) n (Z.of_nat i) = Done 1).
    { unfold rd_code. destruct (Z.ltb_spec (Z.of_nat i) 0); [lia|].
      destruct (Z.leb_spec n (Z.of_nat i)); [lia|]. cbn [orb].
      by rewrite lookup_replicate_2 by lia. }
    unfold glaze_step. cbn [dst code dict len]. rewrite Hop, bind_Done.
    change (1 =? 1) with true. cbv iota. cbn [copy_dict].
    rewrite data_at, bind_Done by done. unfold emit. rewrite length_take.
    destruct (Z.ltb_spec (Z.of_nat (i `min` length data)) n); [|lia].
    rewrite !bind_Done.
    rewrite wrap8_id by (by apply cell_byte).
    rewrite <- (take_S_r data i (cell data i)) by (apply lookup_cell; lia).
    replace (Z.of_nat i + 1) with (Z.of_nat (S i)) by lia.
    replace (dbase + Z.of_nat i + 1) with (dbase + Z.of_nat (S i)) by lia.
    apply IH; lia.
  - rewrite take_ge by lia. done.
Qed.
End Literals.

(** X20.  [unglaze] restores stored data.  The stream that holds [data] as
    its dictionary and one opcode 01 per byte, followed by anything,
    decompresses to [data]: no error, the return value is the size of
    [data], and exactly its bytes are written.  So every byte string below
    4 GiB has a stream that [unglaze] decodes to it. *)
Theorem store_round_trip (data rest : list Z) (src_length : Z) :
  byte_buf data ->
  Z.of_nat (length (store_stream data)) <= src_length < 2 ^ 32 ->
  let n := Z.of_nat (length data) in
  unglaze (store_stream data ++ rest) src_length n n = Done (mk_glaze n None data).
Proof.
  intros Hb Hsize n.
  set (bits := store_bitstream (length data)).
  set (bl := Z.of_nat (length bits)).
  set (tail := be32_bytes 0 ++ rest).
  set (src := store_stream data ++ rest).
  assert (Hbl : bl = 5 + Z.of_nat (length data / 8)).
  { unfold bl, bits, store_bitstream. rewrite length_app, length_replicate, length_be32_bytes. lia. }
  assert (Htotal : Z.of_nat (length (store_stream data)) = bl + n + 16).
  { unfold store_stream. fold bits. rewrite !length_app, !length_be32_bytes. lia. }
  assert (Hdiv : 0 <= Z.of_nat (length data / 8)) by lia.
  assert (Hsrc : src = be32_bytes n ++ be32_bytes bl ++ bits ++ be32_bytes n ++ data ++ tail).
  { unfold src, store_stream, tail. fold bits bl n. by rewrite <- !app_assoc. }
  assert (E0 : Util.getbe32 src 0 = Done n).
  { rewrite Hsrc. apply getbe32_bytes. lia. }
  assert (E4 : Util.getbe32 src 4 = Done bl).
  { rewrite Hsrc. apply getbe32_at; [lia|done]. }
  assert (Ed : Util.getbe32 src (8 + bl) = Done n).
  { rewrite Hsrc, !(app_assoc _ _ (be32_bytes n ++ _)).
    apply getbe32_at; [lia|]. rewrite !length_app, !length_be32_bytes. lia. }
  assert (El : Util.getbe32 src (8 + bl + 4 + n) = Done 0).
  { rewrite Hsrc. unfold tail.
    rewrite !(app_assoc _ _ (be32_bytes 0 ++ _)).
    apply getbe32_at; [lia|]. rewrite !length_app, !length_be32_bytes. lia. }
  assert (Et : drop 8 src = bits ++ be32_bytes n ++ data ++ tail).
  { rewrite Hsrc, (app_assoc (be32_bytes n)). by rewrite drop_app_length'. }
  assert (Er : forall i : nat, (i < length data)%nat ->
            rd src (8 + bl + 4 + Z.of_nat i) = Done (cell data i)).
  { intros i Hi. rewrite Hsrc, !(app_assoc _ _ (data ++ _)).
    replace (8 + bl + 4 + Z.of_nat i)
      with (Z.of_nat (length (((be32_bytes n ++ be32_bytes bl) ++ bits) ++ be32_bytes n))
            + Z.of_nat i)
      by (rewrite !length_app, !length_be32_bytes; lia).
    rewrite rd_app_r by lia. unfold rd.
    destruct (Z.ltb_spec (Z.of_nat i) 0); [lia|].
    rewrite Nat2Z.id, lookup_app_l by done. by rewrite lookup_cell by done. }
  unfold unglaze. cbv zeta. fold src.
  rewrite E0, bind_Done, Z.eqb_refl. cbn [negb].
  rewrite E4, bind_Done.
  destruct (Z.leb_spec bl 4); [lia|].
  assert (W1 : wrap32 (bl + 4) = bl + 4) by (unfold wrap32; apply Z.mod_small; lia).
  rewrite W1. destruct (Z.geb_spec (bl + 4) src_length); [lia|].
  rewrite Et. unfold bl, bits.
  rewrite build_code_table_store, bind_Done by lia. fold bits bl.
  rewrite Ed, bind_Done.
  assert (W2 : wrap32 (bl + 4 + n + 4) = bl + 4 + n + 4) by (unfold wrap32; apply Z.mod_small; lia).
  rewrite W2. destruct (Z.geb_spec (bl + 4 + n + 4) src_length); [lia|].
  rewrite El, bind_Done.
  assert (W3 : wrap32 (bl + 4 + n + 4 + 0 + 4) = bl + 4 + n + 4 + 0 + 4)
    by (unfold wrap32; apply Z.mod_small; lia).
  rewrite W3. destruct (Z.geb_spec (bl + 4 + n + 4 + 0 + 4) src_length); [lia|].
  pose proof (store_loop src data (8 + bl + 4) (8 + bl + 4 + n + 4) (8 + bl + 4 + n + 4 + 0)
                Hb Er ltac:(lia) (S (Z.to_nat n)) 0 ltac:(lia) ltac:(lia)) as Hloop.
  cbv zeta in Hloop. fold n in Hloop. rewrite take_0 in Hloop.
  change (Z.of_nat 0) with 0 in Hloop. rewrite !Z.add_0_r in Hloop.
  rewrite !Z.add_0_r. exact Hloop.
Qed.

Lemma store_round_trip_witness :
  unglaze (store_stream [72; 105] ++ [1; 2; 3]) 30 2 2 = Done (mk_glaze 2 None [72; 105]).
Proof.
  apply (store_round_trip [72; 105] [1; 2; 3] 30).
  - apply (bool_decide_unpack _). vm_compute. exact I.
  - cbn. lia.
Defined.

End StoreFacts.

(** ** The length checks of unglaze, and descrambler2 on large buffers *)

Module BoundsFacts.
Import Gust.

(** The code table is built with reads only: the one fault it can run into
    is a read outside the bitstream. *)
Lemma getbits_loop_faults (e : fault) (n : nat) : forall ctx x,
  e <> OutOfBounds -> avoids e (getbits_loop n ctx x).
Proof.
  induction n as [|n IH]; intros ctx x He; cbn [getbits_loop]; [done|].
  case_match; [done|]. apply avoids_bind; [|intros ctx'; by apply IH].
  case_match; avoids_accesses.
Qed.

Lemma code_length_faults (e : fault) (fuel : nat) : forall code_len c ctx,
  e <> OutOfBounds -> e <> OutOfFuel -> avoids e (code_length fuel code_len c ctx).
Proof.
  induction fuel as [|fuel IH]; intros code_len c ctx He He'; cbn [code_length];
    (case_match; [|done]);
    (apply avoids_bind; [by apply getbits_loop_faults|]); intros [c' ctx'];
    (case_match; [|done]).
  - by apply avoids_Crash.
  - by apply IH.
Qed.

Lemma code_table_loop_faults (e : fault) (n : nat) : forall c ctx acc,
  e <> OutOfBounds -> e <> OutOfFuel -> avoids e (code_table_loop n c ctx acc).
Proof.
  induction n as [|n IH]; intros c ctx acc He He'; cbn [code_table_loop]; [done|].
  case_match; [done|]. case_match.
  - apply avoids_bind; [by apply getbits_loop_faults|]. intros [c' ctx']. by apply IH.
  - apply avoids_bind; [by apply code_length_faults|]. intros [[code_len c1] ctx1].
    case_match; [done|]. case_match.
    + apply avoids_bind; [by apply getbits_loop_faults|]. intros [v ctx2].
      apply avoids_bind; [by apply getbits_loop_faults|]. intros [c' ctx']. by apply IH.
    + apply avoids_bind; [by apply getbits_loop_faults|]. intros [c' ctx']. by apply IH.
Qed.

Lemma build_code_table_cases (bitstream : list Z) (bitstream_length : Z) :
  (exists r, build_code_table bitstream bitstream_length = Done r) \/
  build_code_table bitstream bitstream_length = Crash OutOfBounds.
Proof.
  destruct (build_code_table bitstream bitstream_length) as [r|e] eqn:E; [by eauto|].
  right. f_equal.
  assert (Hav : forall e', e' <> OutOfBounds -> e' <> OutOfFuel ->
            avoids e' (build_code_table bitstream bitstream_length)).
  { intros e' He He'. unfold build_code_table.
    apply avoids_bind; [unfold Util.getbe32; avoids_accesses|]. intros n.
    apply avoids_bind; [by apply getbits_loop_faults|]. intros [c ctx].
    apply avoids_bind; [by apply code_table_loop_faults|]. done. }
  pose proof (GlazeFacts.build_code_table_fuel bitstream bitstream_length) as Hfuel.
  destruct e; try done.
  - exfalso. by apply (Hav DivideByZero).
  - exfalso. by apply (Hav Uninitialised).
Qed.

(** X21.  The first length check of [unglaze] is defeated by 32-bit
    wrap-around.  For a stream whose size word matches and whose
    [bitstream_length] is one of the four largest 32-bit values,
    [bitstream_length + 4] wraps to less than 4 and passes the check
    against [src_length]; the function goes on and reads outside [src], at
    the latest where it looks for the dictionary behind the bitstream. *)
Theorem unglaze_length_check_wraps (src : list Z) (src_length dst_length cap : Z) :
  Z.of_nat (length src) < 2 ^ 32 -> 4 <= src_length ->
  be32_at src 0 = dst_length ->
  2 ^ 32 - 4 <= be32_at src 4 < 2 ^ 32 ->
  unglaze src src_length dst_length cap = Crash OutOfBounds.
Proof.
  intros Hlen Hsl Hdec Hbl. unfold unglaze. cbv zeta.
  destruct (MainFacts.getbe32_cases src 0 ltac:(lia)) as [[_ ->]|[_ ->]]; [|done].
  rewrite bind_Done, Hdec, Z.eqb_refl. cbn [negb].
  destruct (MainFacts.getbe32_cases src 4 ltac:(lia)) as [[_ ->]|[_ ->]]; [|done].
  rewrite bind_Done. set (bl := be32_at src 4) in *.
  destruct (Z.leb_spec bl 4); [lia|].
  assert (Hw : wrap32 (bl + 4) = bl + 4 - 2 ^ 32) by (unfold wrap32; zlia).
  rewrite Hw. destruct (Z.geb_spec (bl + 4 - 2 ^ 32) src_length); [lia|].
  destruct (build_code_table_cases (drop 8 src) bl) as [[[n t] ->]| ->]; [|done].
  rewrite bind_Done.
  destruct (MainFacts.getbe32_cases src (8 + bl) ltac:(lia)) as [[? _]|[_ ->]]; [lia|done].
Qed.

Lemma unglaze_length_check_wraps_witness :
  unglaze [0; 0; 0; 0; 0xFF; 0xFF; 0xFF; 0xFC; 0; 0; 0; 0] 12 0 0 = Crash OutOfBounds.
Proof.
  apply unglaze_length_check_wraps.
  - cbn. lia.
  - lia.
  - reflexivity.
  - vm_compute. split; [discriminate|reflexivity].
Defined.

(** Where an element behind [base_table] can be read, its value does not
    reach the scrambling table. *)
Lemma slices_behind (behind behind' : list Z) (fuel : nat) :
  behind <> [] -> behind' <> [] ->
  forall chunk remaining chunk_size seed slice_size table_size,
  slices behind fuel chunk remaining chunk_size seed slice_size table_size
  = slices behind' fuel chunk remaining chunk_size seed slice_size table_size.
Proof.
  intros Hb Hb'. induction fuel as [|fuel IH]; intros; cbn [slices]; [done|].
  destruct (0 <? remaining); [|done].
  rewrite !ChunkFacts.scrambling_table_shuffle by done. rewrite !bind_Done.
  destruct (shuffle _ _ _) as [tbl seed1].
  destruct (swap_loop _ _ _ _) as [c|e]; [|done].
  rewrite !bind_Done. by rewrite IH.
Qed.

(** X22.  The table loop of [descramble_chunk] reads one element past the
    end of [base_table]: in its first iteration, for every slice, [memmove]
    copies [table_size - x] elements from index [x + 1], the last of them
    from index [table_size] of an array of [table_size] elements.  With
    exactly that array allocated, the pass on a chunk that is not empty
    leaves it before any bit is swapped, whatever the chunk, the seed and
    the slice size.  Where more is readable, what is read there has no
    effect on the result. *)
Theorem base_table_overrun (chunk : list Z) (chunk_size : Z) (seed : Z * Z)
    (slice_size : Z) :
  0 < chunk_size -> 4 <= wrap32 (Z.shiftl slice_size 3) ->
  descramble_chunk [] chunk chunk_size seed slice_size = Crash OutOfBounds /\
  forall behind behind' : list Z, behind <> [] -> behind' <> [] ->
    descramble_chunk behind chunk chunk_size seed slice_size
    = descramble_chunk behind' chunk chunk_size seed slice_size.
Proof.
  intros Hcs Ht. split; [by apply DescrambleFacts.descramble_chunk_overrun|].
  intros behind behind' Hb Hb'. unfold descramble_chunk. cbv zeta.
  case_match; [done|]. by rewrite (slices_behind behind behind').
Qed.

Lemma base_table_overrun_witness :
  descramble_chunk [] s6_buf 0x200 (0x3B9A73C9, 0x12345678) 0x80 = Crash OutOfBounds /\
  forall behind behind' : list Z, behind <> [] -> behind' <> [] ->
    descramble_chunk behind s6_buf 0x200 (0x3B9A73C9, 0x12345678) 0x80
    = descramble_chunk behind' s6_buf 0x200 (0x3B9A73C9, 0x12345678) 0x80.
Proof.
  apply (base_table_overrun s6_buf 0x200 (0x3B9A73C9, 0x12345678) 0x80).
  - lia.
  - vm_compute. discriminate.
Defined.

End BoundsFacts.

(** ** The 16-bit loop of descrambler1 loses no information *)

Module WordFacts.
Import Gust.

Lemma wrap16_lxor (a b : Z) : wrap16 (Z.lxor a b) = Z.lxor (wrap16 a) (wrap16 b).
Proof.
  unfold wrap16. rewrite <- !Z.land_ones by lia. apply Z.bits_inj'. intros n Hn.
  rewrite !Z.lxor_spec, !Z.land_spec, Z.lxor_spec.
  destruct (Z.testbit a n), (Z.testbit b n), (Z.testbit (Z.ones 16) n); done.
Qed.

Lemma lxor_cancel_r (a b c : Z) : Z.lxor a c = Z.lxor b c -> a = b.
Proof.
  intros H. apply (f_equal (fun z => Z.lxor z c)) in H.
  by rewrite !Z.lxor_assoc, Z.lxor_nilpotent, !Z.lxor_0_r in H.
Qed.

(** The transformation of one 16-bit word, [w ^= x] under the fence test
    and [w -= x], is one-to-one. *)
Lemma d1_word_inj (x : Z) (c : bool) (w v : Z) :
  0 <= w < 2 ^ 16 -> 0 <= v < 2 ^ 16 ->
  wrap16 ((if c then wrap16 (Z.lxor w (wrap16 x)) else w) - wrap16 x)
  = wrap16 ((if c then wrap16 (Z.lxor v (wrap16 x)) else v) - wrap16 x) ->
  w = v.
Proof.
  intros Hw Hv H.
  set (a := if c then wrap16 (Z.lxor w (wrap16 x)) else w) in *.
  set (b := if c then wrap16 (Z.lxor v (wrap16 x)) else v) in *.
  assert (Ha : 0 <= a < 2 ^ 16).
  { subst a. destruct c; [apply Z.mod_pos_bound; lia|done]. }
  assert (Hb : 0 <= b < 2 ^ 16).
  { subst b. destruct c; [apply Z.mod_pos_bound; lia|done]. }
  assert (Hab : a = b).
  { unfold wrap16 in H. pose proof (Z.mod_pos_bound x (2 ^ 16) ltac:(lia)).
    clearbody a b. zlia. }
  subst a b. destruct c; [|done].
  rewrite !wrap16_lxor in Hab.
  assert (Hid : forall z, 0 <= z < 2 ^ 16 -> wrap16 z = z)
    by (intros; apply Z.mod_small; lia).
  rewrite (Hid w), (Hid v) in Hab by done. by apply lxor_cancel_r in Hab.
Qed.

Lemma be16_value (b0 b1 : Z) :
  is_byte b0 -> is_byte b1 ->
  Z.lor (Z.shiftl b0 8) b1 = 256 * b0 + b1 /\ 0 <= 256 * b0 + b1 < 2 ^ 16.
Proof.
  unfold is_byte. intros H0 H1. split; [|lia].
  rewrite Z.lor_comm, (lor_shiftl_add b1 b0 8) by lia. lia.
Qed.

Lemma be16_bytes (w : Z) :
  0 <= w < 2 ^ 16 -> w = 256 * wrap8 (Z.shiftr w 8) + wrap8 w.
Proof.
  intros Hw. unfold wrap8. rewrite Z.shiftr_div_pow2 by lia.
  change (2 ^ 8) with 256. zlia.
Qed.

(** One iteration of the word loop on a buffer that holds the word. *)
Lemma d1_loop_step (fence : Z) (n : nat) (i : Z) (buf : list Z) (seed : Z * Z) :
  fence <> 0 -> 0 <= i -> i + 2 <= Z.of_nat (length buf) ->
  let x := Z.land (Z.shiftr (prng seed).2 16) 0x7fff in
  let w := Z.lor (Z.shiftl (cell buf (Z.to_nat i)) 8) (cell buf (Z.to_nat (i + 1))) in
  let w2 := wrap16 ((if x mod fence >=? fence / 2
                     then wrap16 (Z.lxor w (wrap16 x)) else w) - wrap16 x) in
  d1_loop (S n) i buf seed fence
  = d1_loop n (i + 2)
      (<[Z.to_nat (i + 1) := wrap8 w2]> (<[Z.to_nat i := wrap8 (Z.shiftr w2 8)]> buf))
      (prng seed) fence.
Proof.
  intros Hf Hi Hlen x w w2. cbn [d1_loop].
  unfold Util.getbe16. rewrite !rd_Done by lia. rewrite !bind_Done.
  destruct (Z.eqb_spec fence 0); [done|].
  unfold Util.setbe16. rewrite wr_Done by lia. rewrite bind_Done.
  rewrite wr_Done by (rewrite length_insert; lia).
  rewrite bind_Done. done.
Qed.

Lemma d1_loop_inj (fence : Z) (n : nat) : forall (i : Z) (A B : list Z) (seed : Z * Z),
  fence <> 0 -> byte_buf A -> byte_buf B -> length A = length B ->
  0 <= i -> i + 2 * Z.of_nat n <= Z.of_nat (length A) ->
  d1_loop n i A seed fence = d1_loop n i B seed fence -> A = B.
Proof.
  induction n as [|n IH]; intros i A B seed Hf HA HB Hlen Hi Hn.
  { cbn [d1_loop]. by intros [= ->]. }
  rewrite !d1_loop_step by lia. cbv zeta.
  set (x := Z.land (Z.shiftr (prng seed).2 16) 0x7fff).
  set (c := x mod fence >=? fence / 2).
  set (wA := Z.lor (Z.shiftl (cell A (Z.to_nat i)) 8) (cell A (Z.to_nat (i + 1)))).
  set (wB := Z.lor (Z.shiftl (cell B (Z.to_nat i)) 8) (cell B (Z.to_nat (i + 1)))).
  set (vA := wrap16 ((if c then wrap16 (Z.lxor wA (wrap16 x)) else wA) - wrap16 x)).
  set (vB := wrap16 ((if c then wrap16 (Z.lxor wB (wrap16 x)) else wB) - wrap16 x)).
  set (A1 := <[Z.to_nat (i + 1) := wrap8 vA]> (<[Z.to_nat i := wrap8 (Z.shiftr vA 8)]> A)).
  set (B1 := <[Z.to_nat (i + 1) := wrap8 vB]> (<[Z.to_nat i := wrap8 (Z.shiftr vB 8)]> B)).
  assert (HA1 : byte_buf A1) by (repeat apply byte_buf_insert; (done || apply wrap8_byte)).
  assert (HB1 : byte_buf B1) by (repeat apply byte_buf_insert; (done || apply wrap8_byte)).
  assert (HlA1 : length A1 = length A) by (unfold A1; by rewrite !length_insert).
  assert (HlB1 : length B1 = length B) by (unfold B1; by rewrite !length_insert).
  intros Heq. apply (IH (i + 2) A1 B1 (prng seed) Hf HA1 HB1) in Heq; [|lia|lia|lia].
  unfold A1, B1 in Heq.
  pose proof (cell_byte A (Z.to_nat i) HA) as Ha0.
  pose proof (cell_byte A (Z.to_nat (i + 1)) HA) as Ha1.
  pose proof (cell_byte B (Z.to_nat i) HB) as Hb0.
  pose proof (cell_byte B (Z.to_nat (i + 1)) HB) as Hb1.
  destruct (be16_value _ _ Ha0 Ha1) as [EA RA]. fold wA in EA.
  destruct (be16_value _ _ Hb0 Hb1) as [EB RB]. fold wB in EB.
  assert (Hhi : wrap8 (Z.shiftr vA 8) = wrap8 (Z.shiftr vB 8)).
  { apply (f_equal (fun l => cell l (Z.to_nat i))) in Heq.
    rewrite !(cell_insert_ne _ (Z.to_nat (i + 1)) (Z.to_nat i)) in Heq by lia.
    rewrite !cell_insert_eq in Heq by lia. done. }
  assert (Hlo : wrap8 vA = wrap8 vB).
  { apply (f_equal (fun l => cell l (Z.to_nat (i + 1)))) in Heq.
    rewrite !cell_insert_eq in Heq by (rewrite length_insert; lia). done. }
  assert (Hv : vA = vB).
  { rewrite (be16_bytes vA), (be16_bytes vB), Hhi, Hlo;
      [done|apply Z.mod_pos_bound; lia..]. }
  assert (Hw : wA = wB).
  { apply (d1_word_inj x c); [lia|lia|]. exact Hv. }
  assert (H0 : cell A (Z.to_nat i) = cell B (Z.to_nat i)).
  { unfold is_byte in *. lia. }
  assert (H1 : cell A (Z.to_nat (i + 1)) = cell B (Z.to_nat (i + 1))).
  { unfold is_byte in *. lia. }
  apply list_eq. intros j.
  destruct (decide (j < length A)%nat) as [Hj|Hj];
    [|rewrite !lookup_ge_None_2; [done|lia|lia]].
  rewrite !lookup_cell by lia. f_equal.
  destruct (decide (j = Z.to_nat i)) as [->|Hne0]; [done|].
  destruct (decide (j = Z.to_nat (i + 1))) as [->|Hne1]; [done|].
  apply (f_equal (fun l => cell l j)) in Heq.
  rewrite !(cell_insert_ne _ (Z.to_nat (i + 1)) j) in Heq by done.
  rewrite !(cell_insert_ne _ (Z.to_nat i) j) in Heq by done. done.
Qed.

(** X23.  The 16-bit loop of [descrambler1] loses no information: on two
    buffers of bytes of the same even size, with a fence other than 0, the
    loop over the whole buffer completes on both, and the outputs are equal
    only if the inputs are.  Each word is changed by an XOR and a
    subtraction of the same pseudo-random value, whatever the data. *)
Theorem d1_loop_injective (A B : list Z) (seed : Z * Z) (fence : Z) :
  let buf_size := Z.of_nat (length A) in
  let words := Z.to_nat ((buf_size + 1) / 2) in
  byte_buf A -> byte_buf B -> length A = length B ->
  buf_size mod 2 = 0 -> fence <> 0 ->
  exists A' B',
    d1_loop words 0 A seed fence = Done A' /\
    d1_loop words 0 B seed fence = Done B' /\
    (A' = B' <-> A = B).
Proof.
  intros buf_size words HA HB Hlen Heven Hf.
  assert (Hbound : 0 + 2 * Z.of_nat words <= Z.of_nat (length A)).
  { fold buf_size. unfold words. zlia. }
  destruct (DescrambleFacts.d1_loop_total fence words 0 A seed Hf ltac:(lia) Hbound)
    as (A' & EA & _).
  destruct (DescrambleFacts.d1_loop_total fence words 0 B seed Hf ltac:(lia)
              ltac:(rewrite <- Hlen; exact Hbound))
    as (B' & EB & _).
  exists A', B'. split; [done|]. split; [done|]. split.
  - intros HR.
    apply (d1_loop_inj fence words 0 A B seed Hf HA HB Hlen ltac:(lia) Hbound).
    by rewrite EA, EB, HR.
  - intros <-. rewrite EA in EB. by injection EB.
Qed.

Lemma d1_loop_injective_witness :
  exists A' B',
    d1_loop 2 0 [0x12; 0x34; 0x56; 0x78] (SEED_CONSTANT, 5) 7 = Done A' /\
    d1_loop 2 0 [0x12; 0x34; 0x56; 0x79] (SEED_CONSTANT, 5) 7 = Done B' /\
    (A' = B' <-> [0x12; 0x34; 0x56; 0x78] = [0x12; 0x34; 0x56; 0x79]).
Proof.
  apply (d1_loop_injective [0x12; 0x34; 0x56; 0x78] [0x12; 0x34; 0x56; 0x79]
           (SEED_CONSTANT, 5) 7).
  - apply (bool_decide_unpack _). vm_compute. exact I.
  - apply (bool_decide_unpack _). vm_compute. exact I.
  - reflexivity.
  - reflexivity.
  - lia.
Defined.

End WordFacts.

(** ** The directory of an entry *)

Module PathFacts.
Import PakEntry FilenameFacts.

Lemma cut_loop_spec (PATH_SEP : Z) (path : list Z) (len : nat) (n : nat) :
  (len < length path)%nat -> (n <= len)%nat ->
  (forall j : nat, (n < j <= len)%nat -> cell path j <> PATH_SEP) ->
  (forall j : nat, (1 <= j <= len)%nat -> cell path j <> PATH_SEP) /\
    cut_loop n PATH_SEP path = Done path
  \/
  exists m : nat, (1 <= m <= n)%nat /\ cell path m = PATH_SEP /\
    (forall j : nat, (m < j <= len)%nat -> cell path j <> PATH_SEP) /\
    cut_loop n PATH_SEP path = Done (<[m := 0]> path).
Proof.
  intros Hlen. induction n as [|n IH]; intros Hn Habove.
  - left. split; [|done]. intros j Hj. apply Habove. lia.
  - cbn [cut_loop]. rewrite rd_Done, bind_Done, Nat2Z.id by lia.
    destruct (Z.eqb_spec (cell path (S n)) PATH_SEP) as [Heq|Hne].
    + right. exists (S n). split; [lia|]. split; [done|]. split; [done|].
      rewrite wr_Done, Nat2Z.id by lia. done.
    + destruct IH as [[Hnone Hrun]|(m & Hm & Hsep & Hab & Hrun)]; [lia| |by left|].
      * intros j Hj. destruct (decide (j = S n)) as [->|]; [done|]. apply Habove. lia.
      * right. exists m. split; [lia|]. done.
Qed.

(** X24.  The string that the entry loop hands to [create_path] is the
    path cut at its last separator, where the first character is not
    looked at: the cut keeps the bytes before that separator and ends the
    string there.  A path with no separator after its first character is
    handed over whole, so for an entry outside any directory the
    directory to create is the name of the file itself. *)
Theorem parent_dir_spec (PATH_SEP : Z) (path : list Z) (len : nat) :
  PATH_SEP <> 0 ->
  strlen path = Done (Z.of_nat len) ->
  (forall j : nat, (1 <= j < len)%nat -> cell path j <> PATH_SEP) /\
    parent_dir PATH_SEP path = Done path
  \/
  exists (m : nat) (path' : list Z), (1 <= m < len)%nat /\ cell path m = PATH_SEP /\
    (forall j : nat, (m < j < len)%nat -> cell path j <> PATH_SEP) /\
    parent_dir PATH_SEP path = Done path' /\
    strlen path' = Done (Z.of_nat m) /\ take m path' = take m path.
Proof.
  intros Hsep Hlen. unfold parent_dir. rewrite Hlen, bind_Done, Nat2Z.id.
  pose proof (proj1 (strlen_spec path len) Hlen) as [Hnul Hall].
  pose proof (lookup_lt_Some _ _ _ Hnul) as Hsize.
  assert (Hend : cell path len <> PATH_SEP).
  { rewrite (cell_lookup _ _ _ Hnul). congruence. }
  destruct (cut_loop_spec PATH_SEP path len len Hsize ltac:(lia) ltac:(intros; lia))
    as [[Hnone Hrun]|(m & Hm & Hc & Hab & Hrun)].
  - left. split; [|done]. intros j Hj. apply Hnone. lia.
  - right. exists m, (<[m := 0]> path).
    assert (Hm' : (m < len)%nat).
    { destruct (decide (m = len)) as [->|]; [done|lia]. }
    split; [lia|]. split; [done|]. split; [intros j Hj; apply Hab; lia|].
    split; [done|]. split.
    + apply strlen_spec. split; [apply list_lookup_insert_eq; lia|].
      intros j Hj. rewrite list_lookup_insert_ne by lia. apply Hall. lia.
    + by rewrite take_insert_ge by lia.
Qed.

Lemma parent_dir_spec_witness :
  (forall j : nat, (1 <= j < 5)%nat -> cell [120; 46; 98; 105; 110; 0] j <> 47) /\
    parent_dir 47 [120; 46; 98; 105; 110; 0] = Done [120; 46; 98; 105; 110; 0]
  \/
  exists (m : nat) (path' : list Z), (1 <= m < 5)%nat /\
    cell [120; 46; 98; 105; 110; 0] m = 47 /\
    (forall j : nat, (m < j < 5)%nat -> cell [120; 46; 98; 105; 110; 0] j <> 47) /\
    parent_dir 47 [120; 46; 98; 105; 110; 0] = Done path' /\
    strlen path' = Done (Z.of_nat m) /\ take m path' = take m [120; 46; 98; 105; 110; 0].
Proof.
  apply (parent_dir_spec 47 [120; 46; 98; 105; 110; 0] 5).
  - lia.
  - reflexivity.
Defined.

End PathFacts.
